(** * Fin-Agent desktop: orchestrator, preload bridge and chat view

    A shallow embedding of the parts of the Electron main process
    (stream decoding, port cleanup, global shortcut handling), of the
    preload channel bridge and of the chat view's event handling, with the
    properties stated about them. *)

From Stdlib Require Import NArith Ascii String DecimalString Lia.
From stdpp Require Import base option list gmap.

Set Default Proof Using "Type".

(** ** JavaScript strings

    A JavaScript string is a sequence of UTF-16 code units; a code unit is
    modelled by its number. *)

Module JsString.

Abbreviation str := (list N).

(** Literals: the code units of an ASCII text. *)
Definition js (s : string) : str := map N_of_ascii (list_ascii_of_string s).

(** Template-literal rendering of a non-negative integer. *)
Definition dec (n : N) : str := js (NilZero.string_of_uint (N.to_uint n)).

Definition LF : N := 10%N.
Definition CR : N := 13%N.

(** [WhiteSpace] and [LineTerminator] of ECMAScript: what [trim],
    [trimEnd] and the regular expression class [\s] match. *)
Definition is_ws (c : N) : bool :=
  ((9 <=? c) && (c <=? 13) || (c =? 32) || (c =? 160) || (c =? 5760)
   || (8192 <=? c) && (c <=? 8202) || (c =? 8232) || (c =? 8233)
   || (c =? 8239) || (c =? 8287) || (c =? 12288) || (c =? 65279))%N.

Definition str_eqb (a b : str) : bool := bool_decide (a = b).

(** [s.startsWith(p)] *)
Fixpoint startsWith (s p : str) {struct p} : bool :=
  match p with
  | [] => true
  | a :: p' =>
      match s with
      | [] => false
      | b :: s' => N.eqb a b && startsWith s' p'
      end
  end.

(** [s.endsWith(x)] *)
Definition endsWith (s x : str) : bool :=
  startsWith (reverse s) (reverse x).

(** [s.indexOf(pat)], with [None] for -1 *)
Fixpoint indexOf (s pat : str) : option nat :=
  if startsWith s pat then Some 0
  else match s with
       | [] => None
       | _ :: s' => S <$> indexOf s' pat
       end.

(** [s.split(sep)] for a one-character separator *)
Fixpoint split_on (sep : N) (s : str) : list str :=
  match s with
  | [] => [[]]
  | c :: t =>
      if N.eqb c sep then [] :: split_on sep t
      else match split_on sep t with
           | h :: r => (c :: h) :: r
           | [] => [[c]]
           end
  end.

(** [s.split(/\s+/)]: the pieces between maximal runs of white space. *)
Fixpoint split_ws_from (in_ws : bool) (s : str) : list str :=
  match s with
  | [] => [[]]
  | c :: t =>
      if is_ws c then
        if in_ws then split_ws_from true t else [] :: split_ws_from true t
      else match split_ws_from false t with
           | h :: r => (c :: h) :: r
           | [] => [[c]]
           end
  end.

Definition split_ws (s : str) : list str := split_ws_from false s.

(** [parts.join(sep)] *)
Fixpoint join (sep : str) (parts : list str) : str :=
  match parts with
  | [] => []
  | [p] => p
  | p :: rest => p ++ sep ++ join sep rest
  end.

Fixpoint trimStart (s : str) : str :=
  match s with
  | [] => []
  | c :: t => if is_ws c then trimStart t else s
  end.

Fixpoint trimEnd (s : str) : str :=
  match s with
  | [] => []
  | c :: t =>
      match trimEnd t with
      | [] => if is_ws c then [] else [c]
      | t' => c :: t'
      end
  end.

Definition trim (s : str) : str := trimEnd (trimStart s).

(** [s.replace(/\r\n/g, '\n')]: one left-to-right pass. *)
Fixpoint replace_crlf (s : str) : str :=
  match s with
  | [] => []
  | c :: t =>
      match t with
      | d :: t' =>
          if N.eqb c CR && N.eqb d LF then LF :: replace_crlf t'
          else c :: replace_crlf t
      | [] => [c]
      end
  end.

(** [s.replace(/^\s/, '')]: at most one leading white-space character. *)
Definition strip_leading_ws (s : str) : str :=
  match s with
  | c :: t => if is_ws c then t else s
  | [] => []
  end.

(** Truthiness of a string value. *)
Definition truthy (s : str) : bool :=
  match s with [] => false | _ => true end.

Definition is_dec_digit (c : N) : bool := ((48 <=? c) && (c <=? 57))%N.

Definition is_hex_digit (c : N) : bool :=
  (is_dec_digit c || (65 <=? c) && (c <=? 70) || (97 <=? c) && (c <=? 102))%N.

(** [isNaN(parseInt(s))]: [parseInt] skips leading white space and one
    sign, takes radix 16 after a [0x] or [0X] prefix and radix 10 otherwise,
    and is [NaN] exactly when no digit of the radix follows. *)
Definition parseInt_isNaN (s : str) : bool :=
  let s1 := trimStart s in
  let s2 := match s1 with
            | c :: t => if N.eqb c 43 || N.eqb c 45 then t else s1
            | [] => s1
            end in
  match s2 with
  | [] => true
  | c :: t =>
      match t with
      | x :: t' =>
          if N.eqb c 48 && (N.eqb x 120 || N.eqb x 88) then
            match t' with
            | d :: _ => negb (is_hex_digit d)
            | [] => true
            end
          else negb (is_dec_digit c)
      | [] => negb (is_dec_digit c)
      end
  end.

(** A value of type [string | undefined] inside a template literal or
    on the right of [+=]. *)
Definition to_text (o : option str) : str := default (js "undefined") o.

(** [o || ''] *)
Definition or_empty (o : option str) : str := default [] o.

(** Truthiness of a [string | undefined] value. *)
Definition truthy_opt (o : option str) : bool :=
  match o with Some s => truthy s | None => false end.

End JsString.

Import JsString.

(** How a call ends: with a value, or with a thrown [Error] (its message). *)
Inductive completion (A : Type) : Type :=
| Returns (a : A)
| Throws (message : str).
Arguments Returns {A} a.
Arguments Throws {A} message.

(** ** JSON texts

    [JSON.parse] as far as the decoder depends on it: whether a text is a
    JSON text (ECMA-404). The parsed value is kept as its text. *)

Module Json.

(** Literals in which an apostrophe stands for the quotation mark. *)
Definition jsq (s : string) : str :=
  map (fun c => if N.eqb c 39 then 34%N else c) (js s).

Definition is_json_ws (c : N) : bool :=
  N.eqb c 32 || N.eqb c 9 || N.eqb c 10 || N.eqb c 13.

Fixpoint skip_ws (s : str) : str :=
  match s with
  | [] => []
  | c :: t => if is_json_ws c then skip_ws t else s
  end.

Fixpoint skip_digits (s : str) : str :=
  match s with
  | [] => []
  | c :: t => if is_dec_digit c then skip_digits t else s
  end.

(** The characters that may follow a backslash, [u] apart. *)
Definition is_escape (c : N) : bool :=
  N.eqb c 34 || N.eqb c 92 || N.eqb c 47 || N.eqb c 98 || N.eqb c 102
  || N.eqb c 110 || N.eqb c 114 || N.eqb c 116.

(** A string after its opening quotation mark: what follows the closing
    one. *)
Fixpoint string_rest (s : str) : option str :=
  match s with
  | [] => None
  | c :: t =>
      if N.eqb c 34 then Some t
      else if N.eqb c 92 then
        match t with
        | [] => None
        | e :: t1 =>
            if is_escape e then string_rest t1
            else if N.eqb e 117 then
              match t1 with
              | h1 :: h2 :: h3 :: h4 :: t2 =>
                  if is_hex_digit h1 && is_hex_digit h2
                     && is_hex_digit h3 && is_hex_digit h4
                  then string_rest t2 else None
              | _ => None
              end
            else None
        end
      else if N.ltb c 32 then None
      else string_rest t
  end.

(** At least one digit, and the digits that follow. *)
Definition digits1 (s : str) : option str :=
  match s with
  | c :: t => if is_dec_digit c then Some (skip_digits t) else None
  | [] => None
  end.

(** A fraction, if there is one. *)
Definition fraction (s : str) : option str :=
  match s with
  | c :: t => if N.eqb c 46 then digits1 t else Some s
  | [] => Some s
  end.

(** An exponent, if there is one. *)
Definition exponent (s : str) : option str :=
  match s with
  | c :: t =>
      if N.eqb c 101 || N.eqb c 69 then
        match t with
        | sign :: t1 =>
            if N.eqb sign 43 || N.eqb sign 45 then digits1 t1 else digits1 t
        | [] => None
        end
      else Some s
  | [] => Some s
  end.

Definition number (s : str) : option str :=
  let s1 := match s with
            | c :: t => if N.eqb c 45 then t else s
            | [] => s
            end in
  match s1 with
  | c :: t =>
      if N.eqb c 48 then fraction t ≫= exponent
      else if is_dec_digit c then fraction (skip_digits t) ≫= exponent
      else None
  | [] => None
  end.

Definition literal (word : string) (s : str) : option str :=
  if startsWith s (js word) then Some (drop (length (js word)) s) else None.

(** A value, the elements of an array after its bracket or a comma, and
    the members of an object after its brace or a comma: what follows. *)
Fixpoint value (fuel : nat) (s : str) : option str :=
  match fuel with
  | O => None
  | S fuel =>
      match skip_ws s with
      | [] => None
      | c :: t =>
          if N.eqb c 123 then
            match skip_ws t with
            | d :: r => if N.eqb d 125 then Some r else members fuel t
            | [] => None
            end
          else if N.eqb c 91 then
            match skip_ws t with
            | d :: r => if N.eqb d 93 then Some r else elements fuel t
            | [] => None
            end
          else if N.eqb c 34 then string_rest t
          else if N.eqb c 116 then literal "true" (c :: t)
          else if N.eqb c 102 then literal "false" (c :: t)
          else if N.eqb c 110 then literal "null" (c :: t)
          else number (c :: t)
      end
  end
with elements (fuel : nat) (s : str) : option str :=
  match fuel with
  | O => None
  | S fuel =>
      match value fuel s with
      | None => None
      | Some r =>
          match skip_ws r with
          | d :: r1 =>
              if N.eqb d 44 then elements fuel r1
              else if N.eqb d 93 then Some r1
              else None
          | [] => None
          end
      end
  end
with members (fuel : nat) (s : str) : option str :=
  match fuel with
  | O => None
  | S fuel =>
      match skip_ws s with
      | q :: t =>
          if N.eqb q 34 then
            match string_rest t with
            | None => None
            | Some r =>
                match skip_ws r with
                | colon :: r1 =>
                    if N.eqb colon 58 then
                      match value fuel r1 with
                      | None => None
                      | Some r2 =>
                          match skip_ws r2 with
                          | d :: r3 =>
                              if N.eqb d 44 then members fuel r3
                              else if N.eqb d 125 then Some r3
                              else None
                          | [] => None
                          end
                      end
                    else None
                | [] => None
                end
            end
          else None
      | [] => None
      end
  end.

(** A JSON text: one value between white space. Every step of the three
    functions above reads a character of its own, so the length of the
    text bounds them. *)
Definition is_json (s : str) : bool :=
  match value (S (length s)) s with
  | Some r => negb (truthy (skip_ws r))
  | None => false
  end.

(** [JSON.parse], [None] when it throws. *)
Definition parse (s : str) : option (list N) :=
  if is_json s then Some s else None.

End Json.

(** ** The streaming chat request of the [submit-input] handler *)

Module Stream.

(** What the main process sends to the chat window on [bot-stream]:
    [{ type: 'finish' }], a parsed payload, or
    [{ type: 'error', content }]. *)
Inductive bot_stream (J : Type) : Type :=
| finish_event
| parsed_event (data : J)
| error_event (content : str).
Arguments finish_event {J}.
Arguments parsed_event {J} data.
Arguments error_event {J} content.

(** The frame separator. *)
Definition separator : str := [LF; LF].

(** What the network delivers for one request, one event-loop turn each. *)
Inductive transport_event : Type :=
| req_error (message : str)
| response (statusCode : N)
| res_data (chunk : str)
| res_end
| res_error (message : str).

Inductive process_state : Type :=
| alive
| exited (code : N).

Section Decoder.

Context {J : Type}.
(** [JSON.parse], [None] when it throws. *)
Variable JSON_parse : str -> option J.
(** Whether [chatWindow] is non-null. *)
Variable chatWindow : bool.

(** [chatWindow.webContents.send('bot-stream', m)] under [if (chatWindow)] *)
Definition send (m : bot_stream J) : list (bot_stream J) :=
  if chatWindow then [m] else [].

(** One iteration of the loop over the lines of a frame. *)
Definition data_line (rawLine : str) : option str :=
  let line := trimEnd rawLine in
  if negb (truthy line) then None
  else if startsWith line (js "data:")
       then Some (strip_leading_ws (drop 5 line))
       else None.

Definition dataLines (eventText : str) : list str :=
  omap data_line (split_on LF eventText).

Definition flushEvent (eventText : str) : list (bot_stream J) :=
  let lines := dataLines eventText in
  if Nat.eqb (length lines) 0 then []
  else
    let dataStr := join [LF] lines in
    if str_eqb dataStr (js "[DONE]") then send finish_event
    else match JSON_parse dataStr with
         | Some data => send (parsed_event data)
         | None => []
         end.

(** The [while ((idx = buffer.indexOf('\n\n')) !== -1)] loop; every
    iteration shortens the buffer, so its length bounds the iterations. *)
Fixpoint frame_loop (fuel : nat) (buffer : str)
  : option (str * list (bot_stream J)) :=
  match indexOf buffer separator with
  | None => Some (buffer, [])
  | Some idx =>
      match fuel with
      | O => None
      | S fuel' =>
          let eventText := take idx buffer in
          let buffer' := drop (idx + 2) buffer in
          match frame_loop fuel' buffer' with
          | Some (rest, sent) => Some (rest, flushEvent eventText ++ sent)
          | None => None
          end
      end
  end.

(** [res.on('data', ...)] *)
Definition on_data (buffer chunk : str) : option (str * list (bot_stream J)) :=
  let buffer := replace_crlf (buffer ++ chunk) in
  frame_loop (length buffer) buffer.

(** [res.on('end', ...)] *)
Definition on_end (buffer : str) : list (bot_stream J) :=
  if truthy (trim buffer) then flushEvent buffer else [].

(** [res.on('error', ...)] *)
Definition on_res_error (message : str) : list (bot_stream J) :=
  send (error_event (js "Stream error: " ++ message)).

(** [req.on('error', ...)] *)
Definition on_req_error (message : str) : list (bot_stream J) :=
  send (error_event (js "Request error: " ++ message)).

(** The callback given to [http.request]: it throws on a status other
    than 200, and otherwise starts with an empty buffer. *)
Definition response_callback (statusCode : N) : completion str :=
  if negb (N.eqb statusCode 200)
  then Throws (js "HTTP error! status: " ++ dec statusCode)
  else Returns [].

(** Feeding the chunks of one response to [on_data], in order. *)
Fixpoint feed (buffer : str) (chunks : list str)
  : option (str * list (bot_stream J)) :=
  match chunks with
  | [] => Some (buffer, [])
  | chunk :: more =>
      match on_data buffer chunk with
      | None => None
      | Some (buffer', sent) =>
          match feed buffer' more with
          | None => None
          | Some (rest, sent') => Some (rest, sent ++ sent')
          end
      end
  end.

(** The state of one request: the response's buffer once the response
    callback has run. *)
Record request_state : Type := mk_request { res_buffer : option str }.

(** What one event-loop turn leaves behind. *)
Record turn : Type := mk_turn {
  turn_state : request_state;
  turn_sent : list (bot_stream J);
  turn_process : process_state
}.

(** [process.on('uncaughtException', ...)]: the worker is killed and the
    process exits with code 1; nothing is sent to the chat window. *)
Definition uncaughtException (st : request_state) (message : str) : turn :=
  mk_turn st [] (exited 1).

(** One turn of the event loop for a transport event of the request. The
    listeners run from the event loop, outside the [try] block of the
    [submit-input] handler, which has returned by then; what a listener
    throws reaches [uncaughtException]. The listeners of the response are
    registered by the response callback after its status check. *)
Definition event_loop_turn (st : request_state) (e : transport_event) : turn :=
  match e with
  | req_error message => mk_turn st (on_req_error message) alive
  | response statusCode =>
      match response_callback statusCode with
      | Returns buffer => mk_turn (mk_request (Some buffer)) [] alive
      | Throws message => uncaughtException st message
      end
  | res_data chunk =>
      match res_buffer st with
      | None => mk_turn st [] alive
      | Some buffer =>
          match on_data buffer chunk with
          | Some (buffer', sent) => mk_turn (mk_request (Some buffer')) sent alive
          | None => mk_turn st [] alive
          end
      end
  | res_end =>
      match res_buffer st with
      | None => mk_turn st [] alive
      | Some buffer => mk_turn st (on_end buffer) alive
      end
  | res_error message =>
      match res_buffer st with
      | None => mk_turn st [] alive
      | Some _ => mk_turn st (on_res_error message) alive
      end
  end.

(** The turns of one request, until the process exits: what is sent to
    the chat window, and how the process ends up. *)
Fixpoint run_request (st : request_state) (events : list transport_event)
  : list (bot_stream J) * process_state :=
  match events with
  | [] => ([], alive)
  | e :: more =>
      let t := event_loop_turn st e in
      match turn_process t with
      | alive =>
          let '(sent, p) := run_request (turn_state t) more in
          (turn_sent t ++ sent, p)
      | exited code => (turn_sent t, exited code)
      end
  end.

End Decoder.

(** *** The vocabulary of the frame properties *)

(** The text made of [frames], each followed by the separator, and then
    [rest]. *)
Definition framed (frames : list str) (rest : str) : str :=
  concat ((fun f => f ++ separator) <$> frames) ++ rest.

(** A complete frame: the text up to the first separator of what follows. *)
Definition complete_frame (f : str) : Prop :=
  indexOf (f ++ separator) separator = Some (length f).

(** A text in which no frame has ended. *)
Definition unterminated (s : str) : Prop :=
  indexOf s separator = None.

(** [crlf_rewrite s t]: [t] is [s] with some of its CR LF pairs rewritten
    to LF, in one pass or in several. *)
Inductive crlf_rewrite : list N -> list N -> Prop :=
| rw_nil : crlf_rewrite [] []
| rw_keep c s t : crlf_rewrite s t -> crlf_rewrite (c :: s) (c :: t)
| rw_crlf s t : crlf_rewrite s t -> crlf_rewrite (CR :: LF :: s) (LF :: t)
| rw_again s t u : crlf_rewrite s t -> crlf_rewrite t u -> crlf_rewrite s u.

End Stream.

(** ** Clearing the worker's port before it starts *)

Module PortReaper.

(** [process.platform === 'win32'] or not. *)
Inductive platform : Type :=
| win32
| posix.

(** How the promise of [execPromise] settles. *)
Inductive exec_result : Type :=
| resolved (stdout : str)
| rejected (message : str).

(** What [killProcessOnPort] does to the outside: the shell commands it
    runs and the delays it waits for, in order. *)
Inductive action : Type :=
| Exec (command : str)
| Sleep (ms : N).

(** The candidate in one line of [netstat] output: its last column. *)
Definition pid_of_line (line : str) : str :=
  default [] (last (split_ws (trim line))).

Definition pid_accepted (pid : str) : bool :=
  truthy pid && negb (str_eqb pid (js "0")) && negb (parseInt_isNaN pid).

(** [Set.prototype.add]: insertion order, no duplicates. *)
Definition set_add (pids : list str) (pid : str) : list str :=
  if bool_decide (pid ∈ pids) then pids else pids ++ [pid].

Definition collect_pid (pids : list str) (line : str) : list str :=
  let pid := pid_of_line line in
  if pid_accepted pid then set_add pids pid else pids.

(** The set [pids] of the Windows branch. *)
Definition netstat_pids (stdout : str) : list str :=
  fold_left collect_pid (split_on LF (trim stdout)) [].

(** The array [pids] of the other branch. *)
Definition lsof_pids (stdout : str) : list str :=
  split_on LF (trim stdout).

Definition netstat_command (port : N) : str :=
  js "netstat -ano | findstr :" ++ dec port.

Definition taskkill_command (pid : str) : str :=
  js "taskkill /F /PID " ++ pid.

Definition lsof_command (port : N) : str :=
  js "lsof -ti:" ++ dec port.

Definition kill_command (pid : str) : str :=
  js "kill -9 " ++ pid.


Section Reaper.

(** The operating system: a state of the world and what a shell command
    does in it. *)
Context {W : Type}.
Variable execPromise : W -> str -> W * exec_result.

(** Computations over the world that record their actions and may throw. *)
Definition M (A : Type) : Type :=
  W * list action -> completion A * (W * list action).

Definition ret {A} (a : A) : M A := fun s => (Returns a, s).

Definition bind {A B} (m : M A) (k : A -> M B) : M B :=
  fun s =>
    match m s with
    | (Returns a, s') => k a s'
    | (Throws e, s') => (Throws e, s')
    end.

(** [try { m } catch (err) { h err }] *)
Definition try_catch {A} (m : M A) (h : str -> M A) : M A :=
  fun s =>
    match m s with
    | (Returns a, s') => (Returns a, s')
    | (Throws e, s') => h e s'
    end.

(** [await execPromise(command)], giving [stdout] *)
Definition exec (command : str) : M str :=
  fun s =>
    let '(w', r) := execPromise (fst s) command in
    let s' := (w', snd s ++ [Exec command]) in
    match r with
    | resolved stdout => (Returns stdout, s')
    | rejected e => (Throws e, s')
    end.

(** [await new Promise(resolve => setTimeout(resolve, ms))] *)
Definition sleep (ms : N) : M unit :=
  fun s => (Returns tt, (fst s, snd s ++ [Sleep ms])).

(** [for (const x of xs) { body x }] *)
Fixpoint for_of {A} (xs : list A) (body : A -> M unit) : M unit :=
  match xs with
  | [] => ret tt
  | x :: rest => bind (body x) (fun _ => for_of rest body)
  end.

Definition kill_windows (pid : str) : M unit :=
  try_catch (bind (exec (taskkill_command pid)) (fun _ => ret tt))
            (fun _ => ret tt).

Definition kill_posix (pid : str) : M unit :=
  if truthy pid then bind (exec (kill_command pid)) (fun _ => ret tt)
  else ret tt.

Definition killProcessOnPort (p : platform) (port : N) : M unit :=
  try_catch
    (match p with
     | win32 =>
         bind (exec (netstat_command port)) (fun stdout =>
         if truthy stdout then
           bind (for_of (netstat_pids stdout) kill_windows) (fun _ =>
           sleep 500)
         else ret tt)
     | posix =>
         try_catch
           (bind (exec (lsof_command port)) (fun stdout =>
            if truthy stdout then
              bind (for_of (lsof_pids stdout) kill_posix) (fun _ =>
              sleep 500)
            else ret tt))
           (fun _ => ret tt)
     end)
    (fun _ => ret tt).

(** Running it from a world, with nothing recorded yet. *)
Definition reclaim (p : platform) (port : N) (w : W)
  : completion unit * (W * list action) :=
  killProcessOnPort p port (w, []).

End Reaper.

(** A host of the other kind in the same situation. *)
Definition busy_posix_host (w : unit) (command : str) : unit * exec_result :=
  if str_eqb command (lsof_command 5678)
  then (tt, resolved (js "4242" ++ [LF] ++ js "977" ++ [LF]))
  else if str_eqb command (kill_command (js "4242"))
  then (tt, rejected (js "Operation not permitted"))
  else (tt, resolved []).




(** Those that do it by force: [taskkill /F] and [kill -9]. *)
Definition is_forced_kill (a : action) : bool :=
  match a with
  | Exec c => startsWith c (js "taskkill /F ") || startsWith c (js "kill -9 ")
  | Sleep _ => false
  end.


End PortReaper.

(** ** The global shortcut *)

Module Hotkey.

(** The two callbacks the main process registers. *)
Inductive callback : Type :=
| toggleMainWindow
| noop.

(** What the system answers to a registration: the accelerator is bound,
    it is taken by another application, or the call throws. *)
Inductive answer : Type :=
| granted
| refused
| raised (message : str).

#[global] Instance answer_eq_dec : EqDecision answer.
Proof. solve_decision. Defined.

(** A call on Electron's [globalShortcut]. *)
Inductive gs_call : Type :=
| call_isRegistered (accelerator : str)
| call_register (accelerator : str) (cb : callback)
| call_unregister (accelerator : str)
| call_unregisterAll.

(** Electron's [globalShortcut]: the accelerators this application
    holds, and the calls made on it so far. *)
Record shortcuts : Type := mk_shortcuts {
  held : gmap (list N) callback;
  gs_calls : list gs_call
}.

Section GlobalShortcut.

Variable system : str -> answer.

Definition gs_isRegistered (g : shortcuts) (accelerator : str) : bool * shortcuts :=
  (bool_decide (is_Some (held g !! accelerator)),
   mk_shortcuts (held g) (gs_calls g ++ [call_isRegistered accelerator])).

(** [register] gives [false] for an accelerator that is already held, by
    this application or by another one. *)
Definition gs_register (g : shortcuts) (accelerator : str) (cb : callback)
  : completion bool * shortcuts :=
  let calls := gs_calls g ++ [call_register accelerator cb] in
  match held g !! accelerator with
  | Some _ => (Returns false, mk_shortcuts (held g) calls)
  | None =>
      match system accelerator with
      | granted => (Returns true, mk_shortcuts (<[accelerator := cb]> (held g)) calls)
      | refused => (Returns false, mk_shortcuts (held g) calls)
      | raised message => (Throws message, mk_shortcuts (held g) calls)
      end
  end.

Definition gs_unregister (g : shortcuts) (accelerator : str) : shortcuts :=
  mk_shortcuts (delete accelerator (held g))
    (gs_calls g ++ [call_unregister accelerator]).

Definition gs_unregisterAll (g : shortcuts) : shortcuts :=
  mk_shortcuts ∅ (gs_calls g ++ [call_unregisterAll]).

(** The main process: [globalShortcut] and [currentGlobalShortcut]. *)
Record main : Type := mk_main {
  globalShortcut : shortcuts;
  currentGlobalShortcut : str
}.

Definition registry (st : main) : gmap (list N) callback :=
  held (globalShortcut st).

(** [let currentGlobalShortcut = 'Ctrl+Alt+Q'] *)
Definition initial : main := mk_main (mk_shortcuts ∅ []) (js "Ctrl+Alt+Q").

Definition registerGlobalShortcut (shortcut : str) (st : main) : main :=
  let g := gs_unregisterAll (globalShortcut st) in
  match gs_register g shortcut toggleMainWindow with
  | (Returns ret, g') =>
      if negb ret then mk_main g' (currentGlobalShortcut st)
      else mk_main g' shortcut
  | (Throws _, g') => mk_main g' (currentGlobalShortcut st)
  end.

(** Registrations one after the other, as the configuration changes. *)
Definition register_each (shortcuts : list str) (st : main) : main :=
  fold_left (fun st shortcut => registerGlobalShortcut shortcut st) shortcuts st.

(** [ipcMain.handle('suspend-shortcut', ...)] *)
Definition suspend_shortcut (st : main) : main :=
  mk_main (gs_unregisterAll (globalShortcut st)) (currentGlobalShortcut st).

(** [ipcMain.handle('resume-shortcut', ...)] *)
Definition resume_shortcut (st : main) : main :=
  if truthy (currentGlobalShortcut st)
  then registerGlobalShortcut (currentGlobalShortcut st) st
  else st.

(** [ipcMain.handle('check-shortcut', ...)] *)
Definition check_shortcut (shortcut : str) (st : main) : bool * main :=
  let '(registered, g) := gs_isRegistered (globalShortcut st) shortcut in
  if registered then (false, mk_main g (currentGlobalShortcut st))
  else
    match gs_register g shortcut noop with
    | (Returns ret, g') =>
        if ret
        then (true, mk_main (gs_unregister g' shortcut) (currentGlobalShortcut st))
        else (false, mk_main g' (currentGlobalShortcut st))
    | (Throws _, g') => (false, mk_main g' (currentGlobalShortcut st))
    end.

End GlobalShortcut.

(** The state [st] after [calls] that have left the registry as it was. *)
Definition after_calls (st : main) (calls : list gs_call) : main :=
  mk_main (mk_shortcuts (registry st) (gs_calls (globalShortcut st) ++ calls))
    (currentGlobalShortcut st).

(** A system on which another application holds [Ctrl+C] and every
    other accelerator is free. *)
Definition sample_system (accelerator : str) : answer :=
  if str_eqb accelerator (js "Ctrl+C") then refused else granted.

End Hotkey.

(** ** The preload script *)

Module Preload.

(** A renderer callback is a function object, known by its identity. *)
Abbreviation handler := nat.

(** A listener on [ipcRenderer]: the fan-out closure of a channel bridge
    over its [callbacks] set, or the closure of [onNavigate] over its
    callback. *)
Inductive listener : Type :=
| fan_out (callbacks : nat)
| direct (callback : handler).

(** The renderer side: the listeners of [ipcRenderer] by channel, in the
    order of their registration, and the [Set] objects of the bridges, by
    the order of their allocation; a [Set] keeps insertion order. *)
Record renderer : Type := mk_renderer {
  listeners : gmap (list N) (list listener);
  sets : list (list handler)
}.

Definition fresh : renderer := mk_renderer ∅ [].

Definition listeners_of (r : renderer) (channel : str) : list listener :=
  default [] (listeners r !! channel).

(** [ipcRenderer.on(channel, l)] *)
Definition ipc_on (channel : str) (l : listener) (r : renderer) : renderer :=
  mk_renderer (<[channel := listeners_of r channel ++ [l]]> (listeners r)) (sets r).

(** [ipcRenderer.removeAllListeners(channel)] *)
Definition ipc_removeAllListeners (channel : str) (r : renderer) : renderer :=
  mk_renderer (delete channel (listeners r)) (sets r).

(** [new Set()] *)
Definition new_set (r : renderer) : renderer * nat :=
  (mk_renderer (listeners r) (sets r ++ [[]]), length (sets r)).

(** [callbacks.add(cb)] *)
Definition set_add (cb : handler) (callbacks : list handler) : list handler :=
  if bool_decide (cb ∈ callbacks) then callbacks else callbacks ++ [cb].

(** [callbacks.delete(cb)] *)
Definition set_delete (cb : handler) (callbacks : list handler) : list handler :=
  filter (fun x => x <> cb) callbacks.

(** [createChannelBridge(channel)]; the function it returns is known by
    the [Set] it closes over. *)
Definition createChannelBridge (channel : str) (r : renderer) : renderer * nat :=
  let '(r1, callbacks) := new_set r in
  let r2 := ipc_removeAllListeners channel r1 in
  (ipc_on channel (fan_out callbacks) r2, callbacks).

(** What a function of the API returns. *)
Inductive returned : Type :=
| undefined
| unsubscribe_fn (callbacks : nat) (cb : handler).

(** The function a bridge returns, applied to [cb]. *)
Definition subscribe (callbacks : nat) (cb : handler) (r : renderer)
  : renderer * returned :=
  (mk_renderer (listeners r) (alter (set_add cb) callbacks (sets r)),
   unsubscribe_fn callbacks cb).

(** Calling an [Unsubscribe]. *)
Definition unsubscribe (callbacks : nat) (cb : handler) (r : renderer) : renderer :=
  mk_renderer (listeners r) (alter (set_delete cb) callbacks (sets r)).

(** The preload module once executed: the renderer and the four bridges. *)
Record preload : Type := mk_preload {
  ipc : renderer;
  onNewMessageBridge : nat;
  onBotResponseBridge : nat;
  onBotStreamBridge : nat;
  onFocusInputBridge : nat
}.

(** Executing the module body, on a renderer that may hold listeners of
    an earlier execution. *)
Definition load (r : renderer) : preload :=
  let '(r1, b1) := createChannelBridge (js "new-message") r in
  let '(r2, b2) := createChannelBridge (js "bot-response") r1 in
  let '(r3, b3) := createChannelBridge (js "bot-stream") r2 in
  let '(r4, b4) := createChannelBridge (js "focus-input") r3 in
  mk_preload r4 b1 b2 b3 b4.

(** The subscription functions of [api]. *)
Inductive method : Type :=
| onNewMessage
| onBotResponse
| onBotStream
| onFocusInput.

#[global] Instance method_eq_dec : EqDecision method.
Proof. solve_decision. Defined.

Definition bridge_of (p : preload) (m : method) : nat :=
  match m with
  | onNewMessage => onNewMessageBridge p
  | onBotResponse => onBotResponseBridge p
  | onBotStream => onBotStreamBridge p
  | onFocusInput => onFocusInputBridge p
  end.

Definition channel_of (m : method) : str :=
  match m with
  | onNewMessage => js "new-message"
  | onBotResponse => js "bot-response"
  | onBotStream => js "bot-stream"
  | onFocusInput => js "focus-input"
  end.

Definition with_ipc (p : preload) (r : renderer) : preload :=
  mk_preload r (onNewMessageBridge p) (onBotResponseBridge p)
             (onBotStreamBridge p) (onFocusInputBridge p).

(** [api.onNewMessage(cb)] and its three siblings. *)
Definition api_subscribe (m : method) (cb : handler) (p : preload)
  : preload * returned :=
  let '(r, u) := subscribe (bridge_of p m) cb (ipc p) in
  (with_ipc p r, u).

(** [api.onNavigate(cb)] *)
Definition onNavigate (cb : handler) (p : preload) : preload * returned :=
  (with_ipc p (ipc_on (js "navigate-route") (direct cb) (ipc p)), undefined).

(** Calling what an API function returned. *)
Definition call_returned (u : returned) (p : preload) : preload :=
  match u with
  | undefined => p
  | unsubscribe_fn callbacks cb => with_ipc p (unsubscribe callbacks cb (ipc p))
  end.

(** What the renderer code does with the API, one call at a time. *)
Inductive api_call : Type :=
| call_subscribe (m : method) (cb : handler)
| call_unsubscribe (m : method) (cb : handler)
| call_onNavigate (cb : handler).

Definition step (p : preload) (c : api_call) : preload :=
  match c with
  | call_subscribe m cb => fst (api_subscribe m cb p)
  | call_unsubscribe m cb => call_returned (unsubscribe_fn (bridge_of p m) cb) p
  | call_onNavigate cb => fst (onNavigate cb p)
  end.

Definition run (p : preload) (calls : list api_call) : preload :=
  fold_left step calls p.

(** The contents of the [callbacks] set behind a subscription function. *)
Definition subscribers (p : preload) (m : method) : list handler :=
  default [] (sets (ipc p) !! bridge_of p m).

(** What holds of the module once loaded: every bridged channel has the
    fan-out of its bridge as its one listener, over a set of its own. *)
Definition bridged (p : preload) : Prop :=
  (forall m, listeners (ipc p) !! channel_of m = Some [fan_out (bridge_of p m)]) /\
  (forall m, bridge_of p m < length (sets (ipc p))) /\
  (forall m m', bridge_of p m = bridge_of p m' -> m = m') /\
  (forall m, NoDup (subscribers p m)).

(** The calls that leave the subscriptions of [m] alone. *)
Definition other_call (m : method) (c : api_call) : Prop :=
  match c with
  | call_subscribe m' _ | call_unsubscribe m' _ => m' <> m
  | call_onNavigate _ => True
  end.

Section Delivery.

Context {P : Type}.

(** A listener called with [payload]: the callbacks it calls, in order.
    A callback is taken to return, and not to change the set while the
    listener goes through it. *)
Definition call_listener (r : renderer) (payload : P) (l : listener)
  : list (handler * P) :=
  match l with
  | fan_out callbacks =>
      (fun cb => (cb, payload)) <$> default [] (sets r !! callbacks)
  | direct cb => [(cb, payload)]
  end.

(** A message arriving on [channel]: [ipcRenderer] calls the listeners of
    the channel in order. *)
Definition emit (r : renderer) (channel : str) (payload : P)
  : list (handler * P) :=
  flat_map (call_listener r payload) (listeners_of r channel).

End Delivery.

End Preload.

(** ** The chat view *)

Module ChatView.

Inductive role : Type :=
| user
| assistant.

Inductive status : Type :=
| running
| success
| error.

#[global] Instance status_eq_dec : EqDecision status.
Proof. solve_decision. Defined.

(** What the [content] of a [text] or [thinking] block holds: a string;
    [undefined], when the block was pushed for an event without
    [content]; or [NaN], which [undefined + undefined] is. *)
Inductive value : Type :=
| Str (s : str)
| Undefined
| NaN.

(** [data.content], a string or [undefined]. *)
Definition of_content (o : option str) : value :=
  match o with
  | Some s => Str s
  | None => Undefined
  end.

(** The string a value is turned into when it is added to a string. *)
Definition value_text (v : value) : str :=
  match v with
  | Str s => s
  | Undefined => js "undefined"
  | NaN => js "NaN"
  end.

(** [a + b]: concatenation when one of the two is a string, and the sum
    of two numbers otherwise, which is [NaN] for these. *)
Definition js_plus (a b : value) : value :=
  match a, b with
  | Str s, _ => Str (s ++ value_text b)
  | _, Str t => Str (value_text a ++ t)
  | _, _ => NaN
  end.

(** A [tool_execution] block. *)
Record tool : Type := mk_tool {
  name : option str;
  args : str;
  result : option str;
  tool_status : status;
  lastChunkLength : option nat
}.

Inductive ChatBlock : Type :=
| text (content : value)
| thinking (content : value)
| tool_execution (t : tool).

Record Message : Type := mk_message {
  msg_role : role;
  content : str;
  blocks : list ChatBlock;
  logs : option str
}.

(** The payload of a [bot-stream] event, with the fields the view reads;
    a field that is absent is [None]. [data_args] holds the text the view
    computes from [data.args] as [argsStr]. *)
Record StreamData : Type := mk_data {
  data_type : str;
  data_content : option str;
  data_name : option str;
  data_arguments : option str;
  data_args : str;
  data_tool_name : option str;
  data_result : option str
}.

Definition is_type (data : StreamData) (tag : string) : bool :=
  str_eqb (data_type data) (js tag).

(** Writing through the reference to the last element of an array. *)
Definition set_last {A} (l : list A) (x : A) : list A :=
  take (length l - 1) l ++ [x].

Definition getLastToolExecution (bs : list ChatBlock) : option tool :=
  match last bs with
  | Some (tool_execution t) => Some t
  | _ => None
  end.

(** Appending to the last block when it is a [text] block, and pushing a
    new one otherwise. *)
Definition append_text (bs : list ChatBlock) (x : value) : list ChatBlock :=
  match last bs with
  | Some (text c) => set_last bs (text (js_plus c x))
  | _ => bs ++ [text x]
  end.

Definition append_thinking (bs : list ChatBlock) (x : value) : list ChatBlock :=
  match last bs with
  | Some (thinking c) => set_last bs (thinking (js_plus c x))
  | _ => bs ++ [thinking x]
  end.

Definition same_name (a b : option str) : bool := bool_decide (a = b).

(** The first half of the [tool_call_chunk] branch: with a name in the
    chunk, a new record is opened unless a running one of that name (or
    without a name, which then takes it) is the last block. *)
Definition open_tool (bs : list ChatBlock) (data : StreamData) : list ChatBlock :=
  if truthy_opt (data_name data) then
    match getLastToolExecution bs with
    | None => bs ++ [tool_execution (mk_tool (data_name data) [] None running (Some 0))]
    | Some t =>
        if negb (bool_decide (tool_status t = running))
           || (truthy_opt (name t) && negb (same_name (name t) (data_name data)))
        then bs ++ [tool_execution (mk_tool (data_name data) [] None running (Some 0))]
        else if negb (truthy_opt (name t))
        then set_last bs (tool_execution
               (mk_tool (data_name data) (args t) (result t) (tool_status t)
                  (match lastChunkLength t with
                   | Some (S n) => Some (S n)
                   | _ => Some 0
                   end)))
        else bs
    end
  else bs.

(** The second half: the chunk's arguments go to the end of the record's
    text, unless that text already ends with them. *)
Definition append_arguments (bs : list ChatBlock) (data : StreamData) : list ChatBlock :=
  match data_arguments data, getLastToolExecution bs with
  | Some newArgs, Some t =>
      if truthy newArgs && bool_decide (tool_status t = running) then
        let currentArgs := args t in
        if truthy newArgs && endsWith currentArgs newArgs then bs
        else set_last bs (tool_execution
               (mk_tool (name t) (currentArgs ++ newArgs) (result t) (tool_status t)
                  (Some (length (currentArgs ++ newArgs)))))
      else bs
  | _, _ => bs
  end.

Definition with_blocks (m : Message) (bs : list ChatBlock) : Message :=
  mk_message (msg_role m) (content m) bs (logs m).

Definition add_log (m : Message) (line : str) : Message :=
  mk_message (msg_role m) (content m) (blocks m) (Some (or_empty (logs m) ++ line)).

(** What the handler of [bot-stream] does to the assistant message. *)
Definition apply_event (m : Message) (data : StreamData) : Message :=
  if is_type data "content" then
    mk_message (msg_role m) (content m ++ to_text (data_content data))
      (append_text (blocks m) (of_content (data_content data))) (logs m)
  else if is_type data "answer" then
    if negb (truthy (content m)) || negb (truthy (trim (content m))) then
      mk_message (msg_role m) (or_empty (data_content data))
        (if Nat.eqb (length (blocks m)) 0
         then blocks m ++ [text (Str (or_empty (data_content data)))]
         else append_text (blocks m) (Str (or_empty (data_content data))))
        (logs m)
    else m
  else if is_type data "thinking" then
    with_blocks m (append_thinking (blocks m) (of_content (data_content data)))
  else if is_type data "log" then
    add_log m (js "[Log] " ++ to_text (data_content data) ++ [LF])
  else if is_type data "tool_call" then
    let argsStr := data_args data in
    let bs :=
      match getLastToolExecution (blocks m) with
      | Some t =>
          if bool_decide (tool_status t = running)
             && same_name (name t) (data_tool_name data)
          then set_last (blocks m) (tool_execution
                 (mk_tool (name t) argsStr (result t) (tool_status t) (lastChunkLength t)))
          else blocks m ++ [tool_execution
                 (mk_tool (data_tool_name data) argsStr None running None)]
      | None => blocks m ++ [tool_execution
                 (mk_tool (data_tool_name data) argsStr None running None)]
      end in
    add_log (with_blocks m bs)
      (js "[Tool Call] " ++ to_text (data_tool_name data) ++ js "(" ++ argsStr
         ++ js ")" ++ [LF])
  else if is_type data "tool_call_chunk" then
    with_blocks m (append_arguments (open_tool (blocks m) data) data)
  else if is_type data "tool_result" then
    let rawResult := or_empty (data_result data) in
    let bs :=
      match getLastToolExecution (blocks m) with
      | Some t => set_last (blocks m) (tool_execution
                    (mk_tool (name t) (args t) (Some rawResult) success (lastChunkLength t)))
      | None => blocks m ++ [tool_execution
                    (mk_tool (data_tool_name data) (js "(Missing input)")
                       (Some rawResult) success None)]
      end in
    let resultStr :=
      if Nat.ltb 500 (length rawResult) then take 500 rawResult ++ js "..."
      else rawResult in
    add_log (with_blocks m bs) (js "[Tool Result] " ++ resultStr ++ [LF])
  else if is_type data "error" then
    mk_message (msg_role m)
      (content m ++ [LF] ++ js "**Error:** " ++ to_text (data_content data))
      (blocks m
       ++ [text (Str ([LF] ++ js "**Error:** " ++ to_text (data_content data)))])
      (logs m)
  else m.

(** The updater given to [setMessages]: an assistant message is created
    when the last message is not one, and the event is applied to it. *)
Definition update_messages (data : StreamData) (prev : list Message) : list Message :=
  let newMessages :=
    match last prev with
    | Some (mk_message assistant _ _ _) => prev
    | _ => prev ++ [mk_message assistant [] [] (Some [])]
    end in
  match last newMessages with
  | Some assistantMsg => set_last newMessages (apply_event assistantMsg data)
  | None => newMessages
  end.

(** The state of the component. *)
Record view : Type := mk_view {
  messages : list Message;
  input : str;
  isTyping : bool;
  isResponding : bool
}.

Definition initial : view := mk_view [] [] false false.

(** The listener of [new-message]. *)
Definition onNewMessage (txt : str) (v : view) : view :=
  if truthy txt
  then mk_view (messages v ++ [mk_message user txt [] None]) (input v) true true
  else v.

Definition starts_response (data : StreamData) : bool :=
  is_type data "content" || is_type data "answer" || is_type data "thinking"
  || is_type data "tool_call" || is_type data "tool_call_chunk".

(** The listener of [bot-stream]; [None] is a payload that is not truthy. *)
Definition onBotStream (payload : option StreamData) (v : view) : view :=
  match payload with
  | None => v
  | Some data =>
      let responding :=
        if negb (isResponding v) && starts_response data then true
        else isResponding v in
      let '(typing, responding) :=
        if is_type data "content" || is_type data "answer" then (false, responding)
        else if is_type data "error" || is_type data "finish" then (false, false)
        else (isTyping v, responding) in
      mk_view (update_messages data (messages v)) (input v) typing responding
  end.

(** How [window.api.checkConfig()] settles. *)
Inductive config_check : Type :=
| configured
| not_configured
| check_failed.

(** What a handler does besides updating the state. *)
Inductive effect : Type :=
| preventDefault
| submitInput (txt : str)
| navigate (route : str).

(** [handleSubmit] up to its [await]: what it has done by then, and,
    when it goes on to wait for [window.api.checkConfig()], the [input]
    its closure holds. *)
Definition handleSubmit (v : view) : list effect * option str :=
  if isResponding v then ([preventDefault], None)
  else if negb (truthy (trim (input v))) then ([preventDefault], None)
  else ([preventDefault], Some (input v)).

(** [handleSubmit] after the [await], on the state the component has by
    then; [input0] is the input of the closure. The setters act on the
    state of that time. *)
Definition handleSubmit_resume (check : config_check) (input0 : str) (v : view)
  : view * list effect :=
  match check with
  | configured =>
      (mk_view (messages v) [] (isTyping v) true, [submitInput input0])
  | not_configured | check_failed => (v, [navigate (js "/config")])
  end.

Definition handleKeyDown (key : str) (v : view) : list effect :=
  if str_eqb key (js "Enter") && isResponding v then [preventDefault] else [].

(** Whether the submit button is disabled. *)
Definition submit_disabled (v : view) : bool :=
  negb (truthy (trim (input v))) || isTyping v || isResponding v.

Definition run_stream (events : list (option StreamData)) (v : view) : view :=
  fold_left (fun v e => onBotStream e v) events v.

(** What happens to the component, one turn of the event loop each: a
    submit event of the form; the answer of [checkConfig] to the [k]-th
    of the handlers that wait for one; a change of the input field; and
    the two messages of the main process. *)
Inductive ui_event : Type :=
| submit
| check_answered (k : nat) (check : config_check)
| change (value : str)
| new_message (txt : str)
| bot_stream (payload : option StreamData).

(** The component over time: its state, the inputs of the handlers that
    wait for [checkConfig], and what the handlers have done so far. *)
Record session : Type := mk_session {
  shown : view;
  waiting : list str;
  done_so_far : list effect
}.

Definition session_step (s : session) (e : ui_event) : session :=
  match e with
  | submit =>
      let '(effects, closure) := handleSubmit (shown s) in
      mk_session (shown s) (waiting s ++ option_list closure)
        (done_so_far s ++ effects)
  | check_answered k check =>
      match waiting s !! k with
      | Some input0 =>
          let '(v, effects) := handleSubmit_resume check input0 (shown s) in
          mk_session v (delete k (waiting s)) (done_so_far s ++ effects)
      | None => s
      end
  | change value =>
      mk_session (mk_view (messages (shown s)) value (isTyping (shown s))
                    (isResponding (shown s)))
        (waiting s) (done_so_far s)
  | new_message txt =>
      mk_session (onNewMessage txt (shown s)) (waiting s) (done_so_far s)
  | bot_stream payload =>
      mk_session (onBotStream payload (shown s)) (waiting s) (done_so_far s)
  end.

Definition session_run (s : session) (events : list ui_event) : session :=
  fold_left session_step events s.

(** The component as it is mounted. *)
Definition mounted : session := mk_session initial [] [].

(** *** The vocabulary of the properties *)

(** The events that end a response. *)
Definition ends_response (data : StreamData) : bool :=
  is_type data "error" || is_type data "finish".

(** A payload that does not end the response. *)
Definition keeps_responding (payload : option StreamData) : Prop :=
  match payload with
  | None => True
  | Some data => ends_response data = false
  end.

(** A chunk that goes on with the record [t], the last block: it has no
    name, or [t] is running and has that name or none. *)
Definition continues (t : tool) (data : StreamData) : bool :=
  negb (truthy_opt (data_name data))
  || (bool_decide (tool_status t = running)
      && (negb (truthy_opt (name t)) || same_name (name t) (data_name data))).

(** A chunk of tool arguments and an answer, as samples. *)
Definition sample_chunk (arguments : string) : StreamData :=
  mk_data (js "tool_call_chunk") None None (Some (js arguments)) [] None None.

Definition sample_answer (txt : string) : StreamData :=
  mk_data (js "answer") (Some (js txt)) None None [] None None.

Definition sample_event (tag : string) : StreamData :=
  mk_data (js tag) (Some (js "x")) None None [] None None.

(** An assistant message whose last block is a running tool record. *)
Definition sample_tool_message : Message :=
  mk_message assistant []
    [thinking (Str (js "looking it up"));
     tool_execution (mk_tool (Some (js "search")) (js "{q:1}") None running (Some 5))]
    None.

(** An assistant message with the given content, streamed as one block. *)
Definition sample_text_message (txt : string) : Message :=
  mk_message assistant (js txt) [text (Str (js txt))] None.

End ChatView.

(** ** Line endings of a stream *)

Module LineEndings.

(** A text sent with CR LF line endings: every LF of [s] as CR LF. *)
Definition crlf_encode (s : str) : str :=
  flat_map (fun c => if N.eqb c LF then [CR; LF] else [c]) s.

End LineEndings.

(** ** Requests to the worker that are not streamed *)

Module Api.

(** How the promise of [makeApiRequest] settles. *)
Inductive settled (J : Type) : Type :=
| resolved_json (json : J)
| resolved_text (body : str)
| rejected (message : str).
Arguments resolved_json {J} json.
Arguments resolved_text {J} body.
Arguments rejected {J} message.

(** The events [makeApiRequest] has listeners for. *)
Inductive event : Type :=
| req_error (message : str)
| response (statusCode : N)
| res_data (chunk : str)
| res_end.

Section Request.

Context {J : Type}.
Variable JSON_parse : str -> option J.

(** One call: the buffer of the response callback, once it has run, and
    the promise, once it is settled. *)
Record request : Type := mk_request {
  buffer : option str;
  promise : option (settled J)
}.

Definition start : request := mk_request None None.

(** [resolve] and [reject] do nothing to a promise that is settled. *)
Definition settle (r : settled J) (p : option (settled J)) : option (settled J) :=
  match p with
  | Some _ => p
  | None => Some r
  end.

(** The listener of [end]. *)
Definition on_end (buffer : str) : settled J :=
  match JSON_parse buffer with
  | Some json => resolved_json json
  | None => resolved_text buffer
  end.

Definition turn (st : request) (e : event) : request :=
  match e with
  | req_error message =>
      mk_request (buffer st) (settle (rejected message) (promise st))
  | response _ => mk_request (Some []) (promise st)
  | res_data chunk =>
      match buffer st with
      | Some b => mk_request (Some (b ++ chunk)) (promise st)
      | None => st
      end
  | res_end =>
      match buffer st with
      | Some b => mk_request (buffer st) (settle (on_end b) (promise st))
      | None => st
      end
  end.

Definition run (st : request) (events : list event) : request :=
  fold_left turn events st.

End Request.

End Api.

(** ** Waiting for the worker at startup *)

Module Readiness.

(** What [checkConfigLoop] does to the outside. *)
Inductive action : Type :=
| Request (path : str)
| Sleep (ms : N)
| ShowConfigPage
| HideInput.

Section Loop.

Context {J W : Type}.
(** [makeApiRequest] as the world answers it. *)
Variable makeApiRequest : W -> str -> W * Api.settled J.
(** [config && config.wake_up_shortcut], when it is truthy. *)
Variable wake_up_shortcut : J -> option (list N).
(** [res && res.configured === false] *)
Variable not_configured : J -> bool.
Variable system : str -> Hotkey.answer.
(** Whether [chatWindow] and [inputWindow] are non-null. *)
Variable chatWindow inputWindow : bool.

Record state : Type := mk_state {
  world : W;
  hotkeys : Hotkey.main;
  trace : list action
}.

(** The shortcut to register for what [/config] has answered; a body that
    is not JSON is a string, which has no such property. *)
Definition shortcut_of (config : Api.settled J) : str :=
  match config with
  | Api.resolved_json json => default (js "Ctrl+Alt+Q") (wake_up_shortcut json)
  | _ => js "Ctrl+Alt+Q"
  end.

Definition is_not_configured (res : Api.settled J) : bool :=
  match res with
  | Api.resolved_json json => not_configured json
  | _ => false
  end.

(** The branch taken when the configuration is missing. *)
Definition redirect : list action :=
  (if chatWindow then [ShowConfigPage] else [])
  ++ (if inputWindow then [HideInput] else []).

(** The [while (attempts < 20)] loop, by the attempts that are left. *)
Fixpoint attempt (left : nat) (st : state) : state :=
  match left with
  | O => st
  | S left' =>
      let '(w1, config) := makeApiRequest (world st) (js "/config") in
      let tr1 := trace st ++ [Request (js "/config")] in
      match config with
      | Api.rejected _ =>
          attempt left' (mk_state w1 (hotkeys st) (tr1 ++ [Sleep 1000]))
      | _ =>
          let hk := Hotkey.registerGlobalShortcut system (shortcut_of config)
                      (hotkeys st) in
          let '(w2, res) := makeApiRequest w1 (js "/config/check") in
          let tr2 := tr1 ++ [Request (js "/config/check")] in
          match res with
          | Api.rejected _ =>
              attempt left' (mk_state w2 hk (tr2 ++ [Sleep 1000]))
          | _ =>
              mk_state w2 hk
                (tr2 ++ (if is_not_configured res then redirect else []))
          end
      end
  end.

Definition checkConfigLoop (st : state) : state := attempt 20 st.

End Loop.

End Readiness.

(** ** The handlers that touch the global shortcut *)

Module HotkeyOps.

(** The calls that reach [globalShortcut]: a registration by the
    readiness loop, and the handlers of [save-config],
    [suspend-shortcut], [resume-shortcut] and [check-shortcut]. *)
Inductive handler_call : Type :=
| register (shortcut : str)
| save_config (wake_up_shortcut : option str)
| suspend
| resume
| check (shortcut : str).

Section Handlers.

Variable system : str -> Hotkey.answer.

(** The part of [ipcMain.handle('save-config', ...)] before the request:
    [if (data.wake_up_shortcut) registerGlobalShortcut(...)]. *)
Definition save_config_shortcut (wake_up_shortcut : option str) (st : Hotkey.main)
  : Hotkey.main :=
  match wake_up_shortcut with
  | Some shortcut =>
      if truthy shortcut then Hotkey.registerGlobalShortcut system shortcut st
      else st
  | None => st
  end.

Definition handle (st : Hotkey.main) (c : handler_call) : Hotkey.main :=
  match c with
  | register shortcut => Hotkey.registerGlobalShortcut system shortcut st
  | save_config wake_up_shortcut => save_config_shortcut wake_up_shortcut st
  | suspend => Hotkey.suspend_shortcut st
  | resume => Hotkey.resume_shortcut system st
  | check shortcut => snd (Hotkey.check_shortcut system shortcut st)
  end.

Definition run (st : Hotkey.main) (calls : list handler_call) : Hotkey.main :=
  fold_left handle calls st.

End Handlers.

(** Nothing is held, or the remembered accelerator alone, bound to
    [toggleMainWindow]. *)
Definition consistent (st : Hotkey.main) : Prop :=
  Hotkey.registry st = ∅ \/
  Hotkey.registry st
  = {[ Hotkey.currentGlobalShortcut st := Hotkey.toggleMainWindow ]}.

End HotkeyOps.

(** ** The preload module executed again *)

Module PreloadReload.

Import Preload.

(** The API object of an earlier execution of the module, used after the
    module was executed again: its bridges lie below the sets of the new
    execution, whose channels keep their one listener over an empty set. *)
Definition stale (p q : preload) : Prop :=
  (forall m, listeners (ipc q) !! channel_of m
             = Some [fan_out (bridge_of (load (ipc p)) m)]) /\
  (forall m, sets (ipc q) !! bridge_of (load (ipc p)) m = Some []) /\
  (forall m, bridge_of q m < length (sets (ipc p))).

End PreloadReload.

(** ** The blocks of a message under a stream *)

Module ChatBlocks.

Import ChatView.

(** [bs'] is [bs] with its last block rewritten or with one block more. *)
Definition last_touched (bs bs' : list ChatBlock) : Prop :=
  take (length bs - 1) bs' = take (length bs - 1) bs /\
  length bs <= length bs' <= length bs + 1.

End ChatBlocks.

(** ** Ending the worker process *)

Module Cleanup.

(** [process.platform], as far as the cleanup tells platforms apart. *)
Inductive os : Type :=
| win32
| darwin
| other_os.

Inductive signal : Type :=
| SIGTERM
| SIGKILL.

(** What the cleanup does to the outside, in order. [SetTimeout ms pid]
    is the timer whose callback sends [SIGKILL] to [pid]. *)
Inductive action : Type :=
| ExecSync (command : str) (timeout : N)
| Kill (pid : N) (sig : signal)
| SetTimeout (ms : N) (pid : N)
| AppQuit
| ProcessExit (code : N).

Definition graceful_command (pid : N) : str :=
  js "taskkill /pid " ++ dec pid ++ js " /t".

Definition forced_command (pid : N) : str :=
  js "taskkill /pid " ++ dec pid ++ js " /f /t".

(** The listeners that call [killPythonProcess]. *)
Inductive hook : Type :=
| window_all_closed
| before_quit
| will_quit
| process_exit
| process_SIGINT
| process_SIGTERM
| uncaughtException (message : str)
| unhandledRejection (reason : str).

Section Main.

Context {W : Type}.
Variable platform : os.
(** [execSync] and [process.kill]: [Some message] when they throw. *)
Variable execSync : W -> str -> W * option str.
Variable process_kill : W -> N -> signal -> W * option str.

(** [pyProc] is [null], or a child process whose [pid] may be
    [undefined]. *)
Record main : Type := mk_main {
  world : W;
  pyProc : option (option N);
  trace : list action
}.

Definition M (A : Type) : Type := main -> completion A * main.

Definition ret {A} (a : A) : M A := fun st => (Returns a, st).

Definition bind {A B} (m : M A) (k : A -> M B) : M B :=
  fun st =>
    match m st with
    | (Returns a, st') => k a st'
    | (Throws e, st') => (Throws e, st')
    end.

Definition try_catch {A} (m : M A) (h : str -> M A) : M A :=
  fun st =>
    match m st with
    | (Returns a, st') => (Returns a, st')
    | (Throws e, st') => h e st'
    end.

Definition record (a : action) : M unit :=
  fun st => (Returns tt, mk_main (world st) (pyProc st) (trace st ++ [a])).

Definition exec_sync (command : str) (timeout : N) : M unit :=
  fun st =>
    let '(w, r) := execSync (world st) command in
    let st' := mk_main w (pyProc st) (trace st ++ [ExecSync command timeout]) in
    match r with
    | None => (Returns tt, st')
    | Some e => (Throws e, st')
    end.

Definition kill (pid : N) (sig : signal) : M unit :=
  fun st =>
    let '(w, r) := process_kill (world st) pid sig in
    let st' := mk_main w (pyProc st) (trace st ++ [Kill pid sig]) in
    match r with
    | None => (Returns tt, st')
    | Some e => (Throws e, st')
    end.

(** [pyProc = null] *)
Definition clear_pyProc : M unit :=
  fun st => (Returns tt, mk_main (world st) None (trace st)).

(** The [pid] under [if (pyProc && pyProc.pid)]. *)
Definition live_pid (st : main) : option N :=
  match pyProc st with
  | Some (Some pid) => if N.eqb pid 0 then None else Some pid
  | _ => None
  end.

(** The callback of the timer. *)
Definition sigkill_timer (pid : N) : M unit :=
  try_catch (kill pid SIGKILL) (fun _ => ret tt).

(** The body of the outer [try]; [true] stands for its [return]. *)
Definition terminate (pid : N) : M bool :=
  match platform with
  | win32 =>
      bind (try_catch
              (bind (exec_sync (graceful_command pid) 2000) (fun _ =>
               bind clear_pyProc (fun _ => ret true)))
              (fun _ => ret false))
           (fun returned =>
              if returned : bool then ret true
              else bind (try_catch (exec_sync (forced_command pid) 5000)
                                   (fun _ => ret tt))
                        (fun _ => ret false))
  | _ =>
      bind (try_catch
              (bind (kill pid SIGTERM) (fun _ => record (SetTimeout 1000 pid)))
              (fun _ => ret tt))
           (fun _ => ret false)
  end.

Definition killPythonProcess : M unit :=
  fun st =>
    match live_pid st with
    | Some pid =>
        bind (try_catch (terminate pid) (fun _ => ret false))
             (fun returned => if returned : bool then ret tt else clear_pyProc) st
    | None => ret tt st
    end.

Definition on_hook (h : hook) : M unit :=
  match h with
  | window_all_closed =>
      bind killPythonProcess (fun _ =>
      match platform with
      | darwin => ret tt
      | _ => record AppQuit
      end)
  | before_quit | will_quit | process_exit => killPythonProcess
  | process_SIGINT | process_SIGTERM =>
      bind killPythonProcess (fun _ => record AppQuit)
  | uncaughtException _ | unhandledRejection _ =>
      bind killPythonProcess (fun _ => record (ProcessExit 1))
  end.

(** The listeners as they run one after the other. *)
Fixpoint run_hooks (hooks : list hook) : M unit :=
  match hooks with
  | [] => ret tt
  | h :: rest => bind (on_hook h) (fun _ => run_hooks rest)
  end.

End Main.

(** The actions that act on the worker. *)
Definition on_worker (a : action) : bool :=
  match a with
  | ExecSync _ _ | Kill _ _ | SetTimeout _ _ => true
  | AppQuit | ProcessExit _ => false
  end.

(** A host on which [taskkill] without [/f] fails, and one on which the
    worker is gone. *)
Definition stubborn_host (w : unit) (command : str) : unit * option str :=
  if endsWith command (js " /f /t") then (tt, None)
  else (tt, Some (js "Command failed")).

Definition gone_host (w : unit) (pid : N) (sig : signal) : unit * option str :=
  (tt, Some (js "kill ESRCH")).

End Cleanup.

(** ** The two windows *)

Module Windows.

Inductive window : Type :=
| inputWindow
| chatWindow.

#[global] Instance window_eq_dec : EqDecision window.
Proof. solve_decision. Defined.

(** The calls on a window; [Send] is [webContents.send], with the
    argument after the channel when there is one. *)
Inductive call : Type :=
| Hide (w : window)
| Restore (w : window)
| Show (w : window)
| Focus (w : window)
| Send (w : window) (channel : str) (argument : option str).

Definition window_of (c : call) : window :=
  match c with
  | Hide w | Restore w | Show w | Focus w | Send w _ _ => w
  end.

(** What reaches the main process: the global shortcut, and the messages
    of the renderers. *)
Inductive event : Type :=
| shortcut_pressed
| submit_input (text : str)
| open_settings
| reset_conversation_context.

Record main : Type := mk_main {
  hasConversationContext : bool;
  calls : list call
}.

Section Main.

(** Whether the variable of the window holds a window. *)
Variable created : window -> bool.
(** What [isVisible()] and [isMinimized()] answer, after the calls made
    so far. *)
Variables isVisible isMinimized : window -> list call -> bool.

Definition call_all (cs : list call) (st : main) : main :=
  mk_main (hasConversationContext st) (calls st ++ cs).

Definition toggle (w : window) (st : main) : main :=
  if created w then
    if isVisible w (calls st) then call_all [Hide w] st
    else
      let st1 := if isMinimized w (calls st) then call_all [Restore w] st else st in
      call_all [Show w; Focus w; Send w (js "focus-input") None] st1
  else st.

Definition toggleMainWindow (st : main) : main :=
  if hasConversationContext st then toggle chatWindow st
  else toggle inputWindow st.

(** The handlers of [submit-input] and [open-settings], up to the message
    they send to the chat window. *)
Definition to_chat (channel argument : str) (st : main) : main :=
  let st1 := if created inputWindow then call_all [Hide inputWindow] st else st in
  if created chatWindow
  then call_all [Show chatWindow; Focus chatWindow;
                 Send chatWindow channel (Some argument)] st1
  else st1.

Definition handle (st : main) (e : event) : main :=
  match e with
  | shortcut_pressed => toggleMainWindow st
  | submit_input text =>
      to_chat (js "new-message") text (mk_main true (calls st))
  | open_settings => to_chat (js "navigate-route") (js "/config") st
  | reset_conversation_context => mk_main false (calls st)
  end.

Definition run (st : main) (events : list event) : main :=
  fold_left handle events st.

End Main.

(** The events that set or clear the conversation context. *)
Definition sets_context (e : event) : Prop :=
  match e with
  | submit_input _ | reset_conversation_context => True
  | _ => False
  end.

#[global] Instance sets_context_dec (e : event) : Decision (sets_context e).
Proof. destruct e; simpl; apply _. Defined.

End Windows.

(** ** The attempts of the readiness loop, by their outcome *)

Module Attempts.

Import Readiness.

(** How an attempt ends: the configuration request is rejected; it is
    answered and the check request is rejected; or both are answered,
    with the redirection to the configuration page or without. *)
Inductive outcome : Type :=
| config_rejected
| check_rejected
| answered (redirected : bool).

Definition failed (o : outcome) : Prop :=
  o = config_rejected \/ o = check_rejected.

Section Outcomes.

Context {J W : Type}.
Variable makeApiRequest : W -> str -> W * Api.settled J.
Variable not_configured : J -> bool.
Variable chatWindow inputWindow : bool.

(** The outcome of an attempt made in the world [w], by what the two
    requests are answered, and the world after it. *)
Definition attempt_outcome (w : W) : W * outcome :=
  let '(w1, config) := makeApiRequest w (js "/config") in
  match config with
  | Api.rejected _ => (w1, config_rejected)
  | _ =>
      let '(w2, res) := makeApiRequest w1 (js "/config/check") in
      match res with
      | Api.rejected _ => (w2, check_rejected)
      | _ => (w2, answered (is_not_configured not_configured res))
      end
  end.

(** The outcomes of the attempts made from [w] when [n] may be made: up
    to the first one that is answered. *)
Fixpoint outcomes (n : nat) (w : W) : list outcome :=
  match n with
  | O => []
  | S n' =>
      let '(w', o) := attempt_outcome w in
      match o with
      | answered _ => [o]
      | _ => o :: outcomes n' w'
      end
  end.

(** What an attempt of that outcome does. *)
Definition actions_of (o : outcome) : list action :=
  match o with
  | config_rejected => [Request (js "/config"); Sleep 1000]
  | check_rejected =>
      [Request (js "/config"); Request (js "/config/check"); Sleep 1000]
  | answered redirected =>
      [Request (js "/config"); Request (js "/config/check")]
      ++ (if redirected then redirect chatWindow inputWindow else [])
  end.

End Outcomes.

(** A worker that answers from the third attempt on, and says that the
    configuration is missing; the world counts the requests. *)
Definition slow_worker (w : nat) (path : str) : nat * Api.settled bool :=
  (S w, if Nat.ltb w 2 then Api.rejected (js "connect ECONNREFUSED")
        else Api.resolved_json false).

End Attempts.

(** ** The world along the kills of the port reaper *)

Module ReaperWorld.

Import PortReaper.

Section World.

Context {W : Type}.
Variable execPromise : W -> str -> W * exec_result.

(** The world after [kill -9] was run on [pids], in order, from [w]. *)
Definition after_kills (w : W) (pids : list str) : W :=
  fold_left (fun w pid => fst (execPromise w (kill_command pid))) pids w.

(** Whether the [k]-th kill of [pids], run after the ones before it,
    succeeds. *)
Definition kill_succeeds (w : W) (pids : list str) (k : nat) : Prop :=
  exists pid stdout,
    pids !! k = Some pid /\
    snd (execPromise (after_kills w (take k pids)) (kill_command pid))
    = resolved stdout.

Definition kill_fails (w : W) (pids : list str) (k : nat) : Prop :=
  exists pid message,
    pids !! k = Some pid /\
    snd (execPromise (after_kills w (take k pids)) (kill_command pid))
    = rejected message.

End World.

End ReaperWorld.

(** * Properties *)

(** ** JavaScript strings *)

Example split_on_ex :
  split_on LF (js "a" ++ [LF; LF] ++ js "b") = [js "a"; []; js "b"].
Proof. reflexivity. Qed.

Example split_ws_ex :
  split_ws (js "TCP  0.0.0.0:5678   LISTENING 4242") =
  [js "TCP"; js "0.0.0.0:5678"; js "LISTENING"; js "4242"].
Proof. reflexivity. Qed.

Example trim_ex : trim (js "  a b " ++ [CR; LF]) = js "a b".
Proof. reflexivity. Qed.

Example indexOf_ex : indexOf (js "ab" ++ [LF; LF] ++ js "c") [LF; LF] = Some 2.
Proof. reflexivity. Qed.

Example replace_crlf_ex :
  replace_crlf (js "a" ++ [CR; LF; CR; LF] ++ js "b") = js "a" ++ [LF; LF] ++ js "b".
Proof. reflexivity. Qed.

Example dec_ex : dec 5678 = js "5678".
Proof. reflexivity. Qed.

Example json_texts :
  Json.is_json (Json.jsq "{'type':'content','content':'hi'}") = true /\
  Json.is_json (Json.jsq " [1, -2.5e+3, true, null, {'a': []}, 'x\\n'] ") = true /\
  Json.is_json (Json.jsq "{'a':1}}") = false /\
  Json.is_json (Json.jsq "{'a':1") = false /\
  Json.is_json (js "{oops") = false /\
  Json.is_json (js "01") = false /\
  Json.is_json (js "[DONE]") = false /\
  Json.is_json (js "") = false.
Proof. vm_compute. done. Qed.

Lemma startsWith_spec (s p : str) :
  startsWith s p = true <-> exists r, s = p ++ r.
Proof.
  revert s. induction p as [|a p IH]; intros s; simpl.
  - split; [intros _; by exists s | done].
  - destruct s as [|b s].
    + split; [discriminate | intros [r Hr]; discriminate].
    + rewrite andb_true_iff, N.eqb_eq, IH. split.
      * intros [-> [r ->]]. eauto.
      * intros [r Hr]. injection Hr as -> ->. eauto.
Qed.

Lemma startsWith_app (s p : str) : startsWith (p ++ s) p = true.
Proof. apply startsWith_spec. eauto. Qed.

Lemma endsWith_spec (s x : str) :
  endsWith s x = true <-> exists r, s = r ++ x.
Proof.
  unfold endsWith. rewrite startsWith_spec. split.
  - intros [r Hr]. exists (reverse r).
    apply (inj reverse). by rewrite Hr, reverse_app, reverse_involutive.
  - intros [r ->]. exists (reverse r). by rewrite reverse_app.
Qed.

(** [indexOf] gives the first position at which the pattern starts. *)
Lemma indexOf_Some (s pat : str) (i : nat) :
  indexOf s pat = Some i <->
  startsWith (drop i s) pat = true /\
  forall j, j < i -> startsWith (drop j s) pat = false.
Proof.
  revert i. induction s as [|c s IH]; intros i.
  - cbn [indexOf]. destruct (startsWith [] pat) eqn:E.
    + split.
      * intros [= <-]. split; [done | lia].
      * intros [_ H]. destruct i; [done |].
        specialize (H 0 ltac:(lia)). simpl in H. congruence.
    + split; [done |]. intros [H _]. rewrite drop_nil in H. congruence.
  - cbn [indexOf]. destruct (startsWith (c :: s) pat) eqn:E.
    + split.
      * intros [= <-]. split; [done | lia].
      * intros [_ H]. destruct i; [done |].
        specialize (H 0 ltac:(lia)). simpl in H. congruence.
    + destruct (indexOf s pat) as [k|]; simpl.
      * split.
        -- intros [= <-]. destruct (proj1 (IH k) eq_refl) as [H1 H2].
           split; [done |].
           intros [|j] Hj; [done |]. apply H2. lia.
        -- intros [H1 H2]. destruct i as [|i]; [simpl in H1; congruence |].
           f_equal. assert (Some k = Some i) as [= ->]; [| done].
           apply IH. split; [done |]. intros j Hj. apply (H2 (S j)). lia.
      * split; [done |]. intros [H1 H2].
        destruct i as [|i]; [simpl in H1; congruence |].
        assert (None = Some i); [| done].
        apply IH. split; [done |].
        intros j Hj. apply (H2 (S j)). lia.
Qed.

Lemma indexOf_None (s pat : str) :
  indexOf s pat = None <-> forall j, startsWith (drop j s) pat = false.
Proof.
  induction s as [|c s IH]; cbn [indexOf].
  - destruct (startsWith [] pat) eqn:E.
    + split; [done |]. intros H. specialize (H 0). simpl in H. congruence.
    + split; [| done]. intros _ j. by rewrite drop_nil.
  - destruct (startsWith (c :: s) pat) eqn:E.
    + split; [done |]. intros H. specialize (H 0). simpl in H. congruence.
    + destruct (indexOf s pat) as [k|]; simpl.
      * split; [done |]. intros H.
        assert (Some k = None) as E'; [| done].
        apply IH. intros j. apply (H (S j)).
      * split; [| done]. intros _ [|j]; [done |].
        simpl. by apply IH.
Qed.

(** ** The stream decoder *)

Section StreamFacts.

Import Stream.

Context {J : Type}.
Variable JSON_parse : str -> option J.
Variable chatWindow : bool.

Local Abbreviation flushEvent := (flushEvent JSON_parse chatWindow).
Local Abbreviation frame_loop := (frame_loop JSON_parse chatWindow).
Local Abbreviation on_data := (on_data JSON_parse chatWindow).
Local Abbreviation on_end := (on_end JSON_parse chatWindow).
Local Abbreviation feed := (feed JSON_parse chatWindow).

Lemma framed_cons (f : str) (frames : list str) (rest : str) :
  framed (f :: frames) rest = f ++ separator ++ framed frames rest.
Proof. unfold framed. simpl. by rewrite <- !app_assoc. Qed.

Lemma framed_app (frames frames' : list str) (rest : str) :
  framed (frames ++ frames') rest =
  concat ((fun f => f ++ separator) <$> frames) ++ framed frames' rest.
Proof. unfold framed. by rewrite fmap_app, concat_app, <- app_assoc. Qed.

Lemma indexOf_separator_split (buffer : str) (idx : nat) :
  indexOf buffer separator = Some idx ->
  buffer = take idx buffer ++ separator ++ drop (idx + 2) buffer /\
  idx + 2 <= length buffer.
Proof.
  intros H. apply indexOf_Some in H as [H _].
  apply startsWith_spec in H as [r Hr].
  assert (drop (idx + 2) buffer = r) as ->.
  { rewrite <- drop_drop, Hr. done. }
  split.
  - rewrite <- Hr. by rewrite take_drop.
  - apply (f_equal length) in Hr. rewrite length_drop in Hr.
    simpl in Hr. lia.
Qed.

Lemma complete_frame_take (buffer : str) (idx : nat) :
  indexOf buffer separator = Some idx -> complete_frame (take idx buffer).
Proof.
  intros H. destruct (indexOf_separator_split _ _ H) as [Hsplit Hlen].
  apply indexOf_Some in H as [_ Hfirst].
  assert (length (take idx buffer) = idx) as Hidx by (rewrite length_take; lia).
  unfold complete_frame. rewrite Hidx. apply indexOf_Some. split.
  - rewrite <- Hidx at 1. rewrite drop_app_length. done.
  - intros j Hj. destruct (startsWith _ separator) eqn:E; [| done].
    apply startsWith_spec in E as [r Hr].
    rewrite <- (Hfirst j Hj). symmetry. apply startsWith_spec.
    exists (r ++ drop (idx + 2) buffer).
    rewrite Hsplit at 1.
    rewrite (app_assoc (take idx buffer)), drop_app_le.
    + by rewrite Hr, <- app_assoc.
    + rewrite length_app, Hidx. simpl. lia.
Qed.

(** The loop ends, and what it leaves: the frames it has cut, each
    complete, the events of these frames in order, and a rest in which no
    frame has ended. *)
Lemma frame_loop_spec (fuel : nat) (buffer : str) :
  length buffer <= fuel ->
  exists frames rest,
    frame_loop fuel buffer = Some (rest, flat_map flushEvent frames) /\
    buffer = framed frames rest /\
    Forall complete_frame frames /\
    unterminated rest.
Proof.
  revert buffer. induction fuel as [|fuel IH]; intros buffer Hfuel.
  - destruct (indexOf buffer separator) as [idx|] eqn:E.
    + apply indexOf_separator_split in E. lia.
    + exists [], buffer. simpl. rewrite E. done.
  - simpl. destruct (indexOf buffer separator) as [idx|] eqn:E.
    + destruct (indexOf_separator_split _ _ E) as [Hsplit Hlen].
      destruct (IH (drop (idx + 2) buffer)) as (frames & rest & -> & Hb & Hc & Hr).
      { rewrite length_drop. lia. }
      exists (take idx buffer :: frames), rest. repeat split.
      * rewrite framed_cons, <- Hb. exact Hsplit.
      * constructor; [by eapply complete_frame_take | done].
      * done.
    + exists [], buffer. done.
Qed.

Lemma on_data_spec (buffer chunk : str) :
  exists frames rest,
    on_data buffer chunk = Some (rest, flat_map flushEvent frames) /\
    replace_crlf (buffer ++ chunk) = framed frames rest /\
    Forall complete_frame frames /\
    unterminated rest.
Proof. apply frame_loop_spec. done. Qed.

Lemma frame_loop_unterminated (fuel : nat) (buffer : str) :
  unterminated buffer -> frame_loop fuel buffer = Some (buffer, []).
Proof. intros H. destruct fuel; simpl; by rewrite H. Qed.

(** A frame gives one event at most. *)
Lemma flushEvent_at_most_one (f : str) : length (flushEvent f) <= 1.
Proof.
  unfold Stream.flushEvent, send.
  repeat (case_match; simpl); lia.
Qed.

(** It gives one exactly when the chat window is there, the frame has a
    [data:] line, and its payload is the sentinel or parses. *)
Lemma flushEvent_one_iff (f : str) :
  length (flushEvent f) = 1 <->
  chatWindow = true /\ dataLines f <> [] /\
  (join [LF] (dataLines f) = js "[DONE]" \/
   is_Some (JSON_parse (join [LF] (dataLines f)))).
Proof.
  unfold Stream.flushEvent, send, str_eqb.
  destruct (dataLines f) as [|l ls] eqn:El; simpl Nat.eqb; cbv iota.
  - simpl. split; [lia | intros (_ & ? & _); done].
  - case_bool_decide as Hd.
    + destruct chatWindow; simpl.
      * split; [intros _; split_and!; [done | done | by left] | done].
      * split; [lia | intros [? _]; done].
    + destruct (JSON_parse _) as [d|] eqn:Ep.
      * destruct chatWindow; simpl.
        -- split; [intros _; split_and!; [done | done | by right] | done].
        -- split; [lia | intros [? _]; done].
      * simpl. split; [lia |]. intros (_ & _ & [? | [? ?]]); done.
Qed.

Lemma on_end_at_most_one (buffer : str) : length (on_end buffer) <= 1.
Proof.
  unfold Stream.on_end. case_match; [apply flushEvent_at_most_one | simpl; lia].
Qed.

Lemma crlf_rewrite_refl (s : str) : crlf_rewrite s s.
Proof. induction s; by constructor. Qed.

Lemma crlf_rewrite_app (a a' b b' : str) :
  crlf_rewrite a a' -> crlf_rewrite b b' -> crlf_rewrite (a ++ b) (a' ++ b').
Proof.
  intros Ha. revert b b'.
  induction Ha as [|c s t _ IH|s t _ IH|s t u _ IH1 _ IH2]; intros b b' Hb; simpl.
  - done.
  - apply rw_keep. by apply IH.
  - apply rw_crlf. by apply IH.
  - eapply rw_again; [apply IH1, crlf_rewrite_refl | by apply IH2].
Qed.

Lemma replace_crlf_rewrite (s : str) : crlf_rewrite s (replace_crlf s).
Proof.
  induction s as [s IH] using (induction_ltof1 _ length).
  unfold ltof in IH.
  destruct s as [|c [|d t]]; simpl.
  - constructor.
  - apply crlf_rewrite_refl.
  - destruct (N.eqb c CR && N.eqb d LF) eqn:E.
    + apply andb_true_iff in E as [->%N.eqb_eq ->%N.eqb_eq].
      apply rw_crlf, IH. simpl. lia.
    + apply rw_keep, (IH (d :: t)). simpl. lia.
Qed.

(** A text without CR is left as it is. *)
Lemma crlf_rewrite_no_cr (s t : str) :
  crlf_rewrite s t -> CR ∉ s -> t = s.
Proof.
  induction 1 as [|c s t _ IH|s t _ IH|s t u _ IH1 _ IH2]; intros Hcr.
  - done.
  - f_equal. apply IH. intros ?. apply Hcr. by right.
  - exfalso. apply Hcr. by left.
  - rewrite IH2; [by apply IH1 |]. by rewrite IH1.
Qed.

Lemma feed_spec (chunks : list str) (buffer : str) :
  unterminated buffer ->
  exists frames rest,
    feed buffer chunks = Some (rest, flat_map flushEvent frames) /\
    crlf_rewrite (buffer ++ concat chunks) (framed frames rest) /\
    Forall complete_frame frames /\
    unterminated rest.
Proof.
  revert buffer. induction chunks as [|chunk more IH]; intros buffer Hbuf.
  - exists [], buffer. simpl. rewrite app_nil_r. split_and!; try done.
    apply crlf_rewrite_refl.
  - destruct (on_data_spec buffer chunk) as (fs1 & b1 & Hd & Hf1 & Hc1 & Hu1).
    destruct (IH b1 Hu1) as (fs2 & rest & Hfeed & Hrw & Hc2 & Hu2).
    exists (fs1 ++ fs2), rest. split_and!.
    + simpl. rewrite Hd, Hfeed. by rewrite flat_map_app.
    + simpl. rewrite framed_app, app_assoc.
      eapply rw_again.
      * apply crlf_rewrite_app; [apply replace_crlf_rewrite | apply crlf_rewrite_refl].
      * rewrite Hf1. unfold framed at 1. rewrite <- app_assoc.
        apply crlf_rewrite_app; [apply crlf_rewrite_refl | done].
    + by apply Forall_app.
    + done.
Qed.

Lemma feed_app (chunks more : list str) (buffer : str) :
  feed buffer (chunks ++ more) =
  match feed buffer chunks with
  | Some (rest, sent) =>
      match feed rest more with
      | Some (rest', sent') => Some (rest', sent ++ sent')
      | None => None
      end
  | None => None
  end.
Proof.
  revert buffer. induction chunks as [|chunk chunks IH]; intros buffer; simpl.
  - by destruct (feed buffer more) as [[rest' sent']|].
  - destruct (on_data buffer chunk) as [[b1 s1]|]; [| done].
    rewrite IH. destruct (feed b1 chunks) as [[b2 s2]|]; [| done].
    destruct (feed b2 more) as [[b3 s3]|]; [| done].
    by rewrite app_assoc.
Qed.

(** The separator of a complete frame is the first one of every text that
    starts with the frame and its separator. *)
Lemma complete_frame_first (f rest : str) :
  complete_frame f -> indexOf (f ++ separator ++ rest) separator = Some (length f).
Proof.
  intros [H1 H2]%indexOf_Some. apply indexOf_Some. split.
  - rewrite drop_app_length. apply startsWith_app.
  - intros j Hj. specialize (H2 j Hj).
    destruct (startsWith (drop j (f ++ separator ++ rest)) separator) eqn:E; [| done].
    rewrite <- H2. symmetry.
    rewrite app_assoc, drop_app_le in E by (rewrite length_app; simpl; lia).
    destruct (drop j (f ++ separator)) as [|a [|b l]] eqn:Ed.
    + apply (f_equal length) in Ed. rewrite length_drop, length_app in Ed.
      simpl in Ed. lia.
    + apply (f_equal length) in Ed. rewrite length_drop, length_app in Ed.
      simpl in Ed. lia.
    + exact E.
Qed.

(** The frames of a text are determined by the text. *)
Lemma framed_unique (frames frames' : list str) (rest rest' : str) :
  framed frames rest = framed frames' rest' ->
  Forall complete_frame frames -> Forall complete_frame frames' ->
  unterminated rest -> unterminated rest' ->
  frames = frames' /\ rest = rest'.
Proof.
  revert frames'. induction frames as [|f frames IH]; intros frames' E Hc Hc' Hu Hu'.
  - destruct frames' as [|f' frames']; [done |]. exfalso.
    rewrite framed_cons in E. change (framed [] rest) with rest in E.
    apply Forall_cons in Hc' as [Hf' _].
    pose proof (complete_frame_first f' (framed frames' rest') Hf') as Hi.
    rewrite <- E in Hi. unfold unterminated in Hu. congruence.
  - apply Forall_cons in Hc as [Hf Hcf].
    destruct frames' as [|f' frames'].
    + exfalso. rewrite framed_cons in E. change (framed [] rest') with rest' in E.
      pose proof (complete_frame_first f (framed frames rest) Hf) as Hi.
      rewrite E in Hi. unfold unterminated in Hu'. congruence.
    + apply Forall_cons in Hc' as [Hf' Hcf'].
      rewrite !framed_cons in E.
      pose proof (complete_frame_first f (framed frames rest) Hf) as Hi.
      pose proof (complete_frame_first f' (framed frames' rest') Hf') as Hi'.
      rewrite E, Hi' in Hi. injection Hi as Hlen.
      assert (f = f') as ->.
      { apply (f_equal (take (length f))) in E.
        rewrite take_app_length in E. rewrite <- Hlen in E.
        by rewrite take_app_length in E. }
      apply app_inv_head in E. apply app_inv_head in E.
      destruct (IH frames' E) as [-> ->]; done.
Qed.

End StreamFacts.

(** The scenarios of the stream protocol. *)
Example one_content_frame :
  Stream.feed Json.parse true []
    [Json.jsq "data: {'type':'content','content':'hi'}" ++ [LF; LF]] =
  Some ([], [Stream.parsed_event (Json.jsq "{'type':'content','content':'hi'}")]).
Proof. vm_compute. reflexivity. Qed.

Example done_frame :
  Stream.feed Json.parse true [] [js "data: [DONE]" ++ [LF; LF]] =
  Some ([], [Stream.finish_event]).
Proof. vm_compute. reflexivity. Qed.

Example split_frame_first_chunk :
  Stream.feed Json.parse true [] [Json.jsq "data: {'a':1"] =
  Some (Json.jsq "data: {'a':1", []).
Proof. vm_compute. reflexivity. Qed.

Example split_frame_both_chunks :
  Stream.feed Json.parse true []
    [Json.jsq "data: {'a':1";
     js "}" ++ [LF; LF] ++ Json.jsq "data: {'b':2}" ++ [LF; LF]] =
  Some ([], [Stream.parsed_event (Json.jsq "{'a':1}");
             Stream.parsed_event (Json.jsq "{'b':2}")]).
Proof. vm_compute. reflexivity. Qed.

(** A first chunk that holds the whole payload, and a second one that
    starts with a brace: the first frame is not a JSON text. *)
Example split_frame_extra_brace :
  Stream.feed Json.parse true []
    [Json.jsq "data: {'a':1}";
     js "}" ++ [LF; LF] ++ Json.jsq "data: {'b':2}" ++ [LF; LF]] =
  Some ([], [Stream.parsed_event (Json.jsq "{'b':2}")]).
Proof. vm_compute. reflexivity. Qed.

Example crlf_frames :
  Stream.feed Json.parse true []
    [js "data: 1" ++ [CR; LF; CR]; [LF] ++ js "data: 2" ++ [CR; LF; CR; LF]] =
  Some ([], [Stream.parsed_event (js "1"); Stream.parsed_event (js "2")]).
Proof. vm_compute. reflexivity. Qed.

Example multi_line_payload :
  Stream.feed Json.parse true []
    [js "event: message" ++ [LF] ++ js "data:[1," ++ [LF] ++ js "data: 2]" ++ [LF; LF]] =
  Some ([], [Stream.parsed_event (js "[1," ++ [LF] ++ js "2]")]).
Proof. vm_compute. reflexivity. Qed.

Example comment_frame :
  Stream.feed Json.parse true [] [js ": keep-alive" ++ [LF; LF]] = Some ([], []).
Proof. vm_compute. reflexivity. Qed.

Example trailing_frame_flushed_at_end :
  Stream.on_end Json.parse true (js "data: [DONE]") = [Stream.finish_event].
Proof. vm_compute. reflexivity. Qed.

(** C1, as stated, fails: a stream of one complete frame whose [data:]
    line holds a text that is not JSON gives no event. *)
Lemma complete_frame_without_event :
  ~ (forall (chatWindow : bool) (chunks frames : list (list N)) (rest : list N)
            (sent : list (Stream.bot_stream (list N))),
       concat chunks = Stream.framed frames rest ->
       Forall Stream.complete_frame frames ->
       Forall (fun f => Stream.dataLines f <> []) frames ->
       Stream.unterminated rest ->
       Stream.feed Json.parse chatWindow [] chunks = Some (rest, sent) ->
       length sent = length frames).
Proof.
  intros H.
  specialize (H true [js "data: {oops" ++ [LF; LF]] [js "data: {oops"] [] []).
  assert (0 = 1) as E; [| discriminate E].
  apply H.
  - reflexivity.
  - constructor; [reflexivity | constructor].
  - constructor; [vm_compute; discriminate | constructor].
  - reflexivity.
  - vm_compute. reflexivity.
Qed.

(** Connection failures and response errors are sent to the chat window
    as [error] events that carry the message. *)
Lemma transport_errors_sent {J : Type} (JSON_parse : list N -> option J)
    (st : Stream.request_state) (message buffer : list N) :
  Stream.event_loop_turn JSON_parse true st (Stream.req_error message) =
    Stream.mk_turn st [Stream.error_event (js "Request error: " ++ message)]
      Stream.alive /\
  Stream.event_loop_turn JSON_parse true (Stream.mk_request (Some buffer))
      (Stream.res_error message) =
    Stream.mk_turn (Stream.mk_request (Some buffer))
      [Stream.error_event (js "Stream error: " ++ message)] Stream.alive.
Proof. done. Qed.

Example request_answered :
  Stream.run_request Json.parse true (Stream.mk_request None)
    [Stream.response 200;
     Stream.res_data (Json.jsq "data: {'type':'content',");
     Stream.res_data (Json.jsq "'content':'hi'}" ++ [LF; LF] ++ js "data: [DONE]");
     Stream.res_end] =
  ([Stream.parsed_event (Json.jsq "{'type':'content','content':'hi'}");
    Stream.finish_event], Stream.alive).
Proof. vm_compute. reflexivity. Qed.

Example request_refused :
  Stream.run_request Json.parse true (Stream.mk_request None)
    [Stream.req_error (js "connect ECONNREFUSED 127.0.0.1:5678")] =
  ([Stream.error_event (js "Request error: connect ECONNREFUSED 127.0.0.1:5678")],
   Stream.alive).
Proof. vm_compute. reflexivity. Qed.

(** C2, at a response with a status other than 200, such as 500: the
    response callback throws, the exception is not caught by the handler,
    the process exits with code 1 and no [error] event is sent to the chat
    window, then or later. *)
Theorem response_status_500_exits {J : Type} (JSON_parse : list N -> option J)
    (chatWindow : bool) (st : Stream.request_state) (statusCode : N)
    (later : list Stream.transport_event) :
  Stream.response_callback 500 = Throws (js "HTTP error! status: 500") /\
  Stream.event_loop_turn JSON_parse chatWindow st (Stream.response 500) =
    Stream.mk_turn st [] (Stream.exited 1) /\
  Stream.run_request JSON_parse chatWindow st (Stream.response 500 :: later) =
    ([], Stream.exited 1) /\
  Stream.event_loop_turn JSON_parse chatWindow st (Stream.response statusCode) =
    if N.eqb statusCode 200
    then Stream.mk_turn (Stream.mk_request (Some [])) [] Stream.alive
    else Stream.mk_turn st [] (Stream.exited 1).
Proof.
  split_and!; [done | done | done |].
  unfold Stream.event_loop_turn, Stream.response_callback.
  by destruct (N.eqb statusCode 200).
Qed.

(** ** Clearing the port *)

Example netstat_pids_ex :
  PortReaper.netstat_pids
    (js "  TCP    0.0.0.0:5678     0.0.0.0:0      LISTENING     4242" ++ [CR; LF]
     ++ js "  TCP    127.0.0.1:5678   127.0.0.1:50123   ESTABLISHED   4242" ++ [CR; LF]
     ++ js "  TCP    127.0.0.1:50123  127.0.0.1:5678   TIME_WAIT     0" ++ [CR; LF]
     ++ js "  TCP    [::]:5678        [::]:0         LISTENING     977" ++ [CR; LF])
  = [js "4242"; js "977"].
Proof. vm_compute. reflexivity. Qed.

Example lsof_pids_ex :
  PortReaper.lsof_pids (js "4242" ++ [LF] ++ js "977" ++ [LF]) = [js "4242"; js "977"].
Proof. reflexivity. Qed.

Section ReaperFacts.

Import PortReaper.

Context {W : Type}.
Variable execPromise : W -> list N -> W * exec_result.

Local Abbreviation exec := (exec execPromise).
Local Abbreviation kill_windows := (kill_windows execPromise).
Local Abbreviation kill_posix := (kill_posix execPromise).
Local Abbreviation killProcessOnPort := (killProcessOnPort execPromise).
Local Abbreviation reclaim := (reclaim execPromise).

Lemma taskkill_is_forced (pid : str) :
  is_forced_kill (Exec (taskkill_command pid)) = true.
Proof. reflexivity. Qed.


(** The command is recorded whether it succeeds or not. *)
Lemma exec_trace (command : str) (w : W) (tr : list action) :
  exists r, exec command (w, tr) =
            (r, (fst (execPromise w command), tr ++ [Exec command])) /\
    r = match snd (execPromise w command) with
        | resolved stdout => Returns stdout
        | rejected e => Throws e
        end.
Proof.
  unfold PortReaper.exec. simpl.
  destruct (execPromise w command) as [w' [stdout|e]]; simpl; eauto.
Qed.











End ReaperFacts.


(** On the other platform the loop has no [try] of its own: the kill
    that fails ends it. *)
Example busy_posix_host_run :
  PortReaper.reclaim PortReaper.busy_posix_host PortReaper.posix 5678 tt =
  (Returns tt,
   (tt, [PortReaper.Exec (js "lsof -ti:5678");
         PortReaper.Exec (js "kill -9 4242")])).
Proof. vm_compute. reflexivity. Qed.



(** ** The global shortcut *)

Section HotkeyFacts.

Import Hotkey.

Variable system : list N -> answer.

Local Abbreviation registerGlobalShortcut := (registerGlobalShortcut system).
Local Abbreviation resume_shortcut := (resume_shortcut system).
Local Abbreviation check_shortcut := (check_shortcut system).

(** Registration starts from an empty registry: afterwards the registry
    holds the new binding alone, or nothing. *)
Lemma registerGlobalShortcut_granted (shortcut : str) (st : main) :
  system shortcut = granted ->
  registerGlobalShortcut shortcut st =
  mk_main
    (mk_shortcuts {[ shortcut := toggleMainWindow ]}
       ((gs_calls (globalShortcut st) ++ [call_unregisterAll])
        ++ [call_register shortcut toggleMainWindow]))
    shortcut.
Proof.
  intros H. unfold Hotkey.registerGlobalShortcut, gs_register, gs_unregisterAll.
  cbn [held gs_calls]. rewrite lookup_empty, H. done.
Qed.

Lemma registerGlobalShortcut_failed (shortcut : str) (st : main) :
  system shortcut <> granted ->
  registerGlobalShortcut shortcut st =
  mk_main
    (mk_shortcuts ∅
       ((gs_calls (globalShortcut st) ++ [call_unregisterAll])
        ++ [call_register shortcut toggleMainWindow]))
    (currentGlobalShortcut st).
Proof.
  intros H. unfold Hotkey.registerGlobalShortcut, gs_register, gs_unregisterAll.
  cbn [held gs_calls]. rewrite lookup_empty. by destruct (system shortcut).
Qed.

(** C5. The probe of an accelerator this application holds, the active
    binding among them, answers [false] after asking whether it is
    registered and nothing else: no call registers or unregisters, and the
    registry is as before. The probe of an accelerator that is free
    answers [true] after registering a callback that does nothing and
    unregistering it, which leaves the registry as before, with nothing
    held for the accelerator. *)
Theorem check_shortcut_leaves_no_registration (shortcut : str) (st : main) :
  (is_Some (registry st !! shortcut) ->
   check_shortcut shortcut st =
   (false, after_calls st [call_isRegistered shortcut])) /\
  (registry st !! shortcut = None -> system shortcut = granted ->
   check_shortcut shortcut st =
   (true, after_calls st [call_isRegistered shortcut;
                          call_register shortcut noop;
                          call_unregister shortcut]) /\
   registry (snd (check_shortcut shortcut st)) !! shortcut = None) /\
  (forall calls, registry (after_calls st calls) = registry st /\
                 currentGlobalShortcut (after_calls st calls)
                 = currentGlobalShortcut st).
Proof.
  unfold Hotkey.check_shortcut, gs_isRegistered, gs_register, gs_unregister,
    after_calls, registry.
  split_and!.
  - intros H. by rewrite bool_decide_eq_true_2.
  - intros Hfree Hsys.
    rewrite bool_decide_eq_false_2 by (rewrite Hfree; by intros [? ?]).
    cbn [held gs_calls]. rewrite Hfree, Hsys. cbn [held gs_calls snd globalShortcut].
    rewrite delete_insert_id by done. by rewrite <- !app_assoc.
  - done.
Qed.

Lemma last_cons_default {A} (x : A) (l : list A) :
  last (x :: l) = Some (default x (last l)).
Proof.
  revert x. induction l as [|y l IH]; intros x; [done |].
  change (last (x :: y :: l)) with (last (y :: l)). by rewrite !IH.
Qed.

Lemma register_each_cons (shortcut : str) (shortcuts : list str) (st : main) :
  register_each system (shortcut :: shortcuts) st =
  register_each system shortcuts (registerGlobalShortcut shortcut st).
Proof. done. Qed.

(** The remembered accelerator is the last one the system has granted. *)
Lemma register_each_current (shortcuts : list str) (st : main) :
  currentGlobalShortcut (register_each system shortcuts st) =
  default (currentGlobalShortcut st)
    (last (filter (fun shortcut => system shortcut = granted) shortcuts)).
Proof.
  revert st. induction shortcuts as [|shortcut shortcuts IH]; intros st; [done |].
  rewrite register_each_cons, IH, filter_cons. case_decide as Hg.
  - rewrite registerGlobalShortcut_granted by done.
    by rewrite last_cons_default.
  - by rewrite registerGlobalShortcut_failed.
Qed.

(** Suspending leaves nothing held and resuming registers the remembered
    accelerator again. *)
Lemma suspend_resume (st : main) :
  registry (suspend_shortcut st) = ∅ /\
  currentGlobalShortcut (suspend_shortcut st) = currentGlobalShortcut st /\
  (truthy (currentGlobalShortcut st) = true ->
   system (currentGlobalShortcut st) = granted ->
   registry (resume_shortcut (suspend_shortcut st))
   = {[ currentGlobalShortcut st := toggleMainWindow ]}).
Proof.
  split_and!; [done | done |]. intros Ht Hg.
  unfold Hotkey.resume_shortcut. cbn [suspend_shortcut currentGlobalShortcut].
  rewrite Ht. by rewrite registerGlobalShortcut_granted.
Qed.

(** C10. Registration clears the registry first and remembers the new
    accelerator only when the system grants it, so that the remembered
    accelerator is the last one granted. After a registration that fails
    no binding is held and the remembered accelerator is the one from
    before; resuming then registers that one, and holds it when the system
    grants it. *)
Theorem failed_registration_keeps_current (shortcut : str) (st : main) :
  (system shortcut = granted ->
   registry (registerGlobalShortcut shortcut st) = {[ shortcut := toggleMainWindow ]} /\
   currentGlobalShortcut (registerGlobalShortcut shortcut st) = shortcut) /\
  (forall shortcuts,
     currentGlobalShortcut (register_each system shortcuts st) =
     default (currentGlobalShortcut st)
       (last (filter (fun shortcut => system shortcut = granted) shortcuts))) /\
  (system shortcut <> granted ->
   let st' := registerGlobalShortcut shortcut st in
   registry st' = ∅ /\
   currentGlobalShortcut st' = currentGlobalShortcut st /\
   (truthy (currentGlobalShortcut st) = true ->
    resume_shortcut st' = registerGlobalShortcut (currentGlobalShortcut st) st' /\
    (system (currentGlobalShortcut st) = granted ->
     registry (resume_shortcut st') =
       {[ currentGlobalShortcut st := toggleMainWindow ]} /\
     currentGlobalShortcut (resume_shortcut st') = currentGlobalShortcut st))).
Proof.
  split_and!.
  - intros H. by rewrite registerGlobalShortcut_granted.
  - intros shortcuts. apply register_each_current.
  - intros H. simpl. rewrite registerGlobalShortcut_failed by done.
    split_and!; [done | done |].
    intros Ht. unfold Hotkey.resume_shortcut.
    cbn [currentGlobalShortcut]. rewrite Ht.
    split; [done |].
    intros Hg. by rewrite registerGlobalShortcut_granted.
Qed.

End HotkeyFacts.

Example probe_active_binding :
  let st := Hotkey.registerGlobalShortcut Hotkey.sample_system (js "Ctrl+Alt+Q")
              Hotkey.initial in
  fst (Hotkey.check_shortcut Hotkey.sample_system (js "Ctrl+Alt+Q") st) = false /\
  Hotkey.gs_calls
    (Hotkey.globalShortcut
       (snd (Hotkey.check_shortcut Hotkey.sample_system (js "Ctrl+Alt+Q") st)))
  = [Hotkey.call_unregisterAll;
     Hotkey.call_register (js "Ctrl+Alt+Q") Hotkey.toggleMainWindow;
     Hotkey.call_isRegistered (js "Ctrl+Alt+Q")].
Proof. vm_compute. done. Qed.

Example probe_taken_accelerator :
  fst (Hotkey.check_shortcut Hotkey.sample_system (js "Ctrl+C") Hotkey.initial)
  = false.
Proof. vm_compute. done. Qed.

Lemma check_shortcut_witness :
  let st := Hotkey.registerGlobalShortcut Hotkey.sample_system (js "Ctrl+Alt+Q")
              Hotkey.initial in
  Hotkey.check_shortcut Hotkey.sample_system (js "Ctrl+Alt+Q") st =
    (false, Hotkey.after_calls st [Hotkey.call_isRegistered (js "Ctrl+Alt+Q")]) /\
  Hotkey.check_shortcut Hotkey.sample_system (js "Ctrl+Shift+F") st =
    (true, Hotkey.after_calls st
             [Hotkey.call_isRegistered (js "Ctrl+Shift+F");
              Hotkey.call_register (js "Ctrl+Shift+F") Hotkey.noop;
              Hotkey.call_unregister (js "Ctrl+Shift+F")]).
Proof.
  intros st. split.
  - apply (check_shortcut_leaves_no_registration Hotkey.sample_system).
    by exists Hotkey.toggleMainWindow.
  - apply (check_shortcut_leaves_no_registration Hotkey.sample_system);
      reflexivity.
Defined.

Lemma failed_registration_witness :
  let st := Hotkey.registerGlobalShortcut Hotkey.sample_system (js "Ctrl+Alt+Q")
              Hotkey.initial in
  let st' := Hotkey.registerGlobalShortcut Hotkey.sample_system (js "Ctrl+C") st in
  Hotkey.registry st' = ∅ /\
  Hotkey.currentGlobalShortcut st' = js "Ctrl+Alt+Q" /\
  Hotkey.registry (Hotkey.resume_shortcut Hotkey.sample_system st') =
    {[ js "Ctrl+Alt+Q" := Hotkey.toggleMainWindow ]}.
Proof.
  intros st st'.
  destruct (failed_registration_keeps_current Hotkey.sample_system (js "Ctrl+C") st)
    as (_ & _ & H).
  destruct H as (H1 & H2 & H3); [discriminate |].
  destruct H3 as [_ H3]; [reflexivity |].
  destruct H3 as [H3 _]; [reflexivity |].
  split_and!; [exact H1 | exact H2 | exact H3].
Defined.

(** ** The preload bridge *)

Section PreloadFacts.

Import Preload.

Lemma createChannelBridge_spec (channel : str) (r : renderer) :
  snd (createChannelBridge channel r) = length (sets r) /\
  sets (fst (createChannelBridge channel r)) = sets r ++ [[]] /\
  listeners (fst (createChannelBridge channel r)) !! channel
    = Some [fan_out (length (sets r))] /\
  (forall channel', channel' <> channel ->
     listeners (fst (createChannelBridge channel r)) !! channel'
     = listeners r !! channel').
Proof.
  unfold createChannelBridge, new_set, ipc_on, ipc_removeAllListeners, listeners_of.
  simpl. split_and!; try done.
  - by rewrite lookup_insert_eq, lookup_delete_eq.
  - intros channel' Hne.
    rewrite lookup_insert_ne, lookup_delete_ne by done. done.
Qed.

Lemma channel_of_inj (m m' : method) : channel_of m = channel_of m' -> m = m'.
Proof. destruct m, m'; intros H; try done; vm_compute in H; discriminate H. Qed.

Lemma channel_of_not_navigate (m : method) : channel_of m <> js "navigate-route".
Proof. destruct m; intros H; vm_compute in H; discriminate H. Qed.

Lemma load_spec (r : renderer) :
  sets (ipc (load r)) = sets r ++ [[]; []; []; []] /\
  (forall m, bridge_of (load r) m =
     match m with
     | onNewMessage => length (sets r)
     | onBotResponse => length (sets r) + 1
     | onBotStream => length (sets r) + 2
     | onFocusInput => length (sets r) + 3
     end) /\
  (forall m, listeners (ipc (load r)) !! channel_of m
             = Some [fan_out (bridge_of (load r) m)]) /\
  (forall channel, (forall m, channel <> channel_of m) ->
     listeners (ipc (load r)) !! channel = listeners r !! channel).
Proof.
  unfold load.
  destruct (createChannelBridge_spec (js "new-message") r) as (Hb1 & Hs1 & Hl1 & Ho1).
  destruct (createChannelBridge (js "new-message") r) as [r1 b1].
  cbn [fst snd] in *.
  destruct (createChannelBridge_spec (js "bot-response") r1) as (Hb2 & Hs2 & Hl2 & Ho2).
  destruct (createChannelBridge (js "bot-response") r1) as [r2 b2].
  cbn [fst snd] in *.
  destruct (createChannelBridge_spec (js "bot-stream") r2) as (Hb3 & Hs3 & Hl3 & Ho3).
  destruct (createChannelBridge (js "bot-stream") r2) as [r3 b3].
  cbn [fst snd] in *.
  destruct (createChannelBridge_spec (js "focus-input") r3) as (Hb4 & Hs4 & Hl4 & Ho4).
  destruct (createChannelBridge (js "focus-input") r3) as [r4 b4].
  cbn [fst snd] in *.
  cbn [ipc bridge_of onNewMessageBridge onBotResponseBridge onBotStreamBridge
       onFocusInputBridge].
  rewrite Hs3, Hs2, Hs1 in Hb4. rewrite Hs2, Hs1 in Hb3. rewrite Hs1 in Hb2.
  repeat rewrite length_app in Hb4. repeat rewrite length_app in Hb3.
  repeat rewrite length_app in Hb2. cbn [length] in Hb4, Hb3, Hb2.
  split_and!.
  - rewrite Hs4, Hs3, Hs2, Hs1, <- !app_assoc. done.
  - intros []; cbn [bridge_of onNewMessageBridge onBotResponseBridge
                    onBotStreamBridge onFocusInputBridge]; lia.
  - intros []; cbn [channel_of bridge_of onNewMessageBridge onBotResponseBridge
                    onBotStreamBridge onFocusInputBridge].
    + rewrite Ho4, Ho3, Ho2, Hl1 by (intros H; vm_compute in H; discriminate H).
      by rewrite <- Hb1.
    + rewrite Ho4, Ho3, Hl2 by (intros H; vm_compute in H; discriminate H).
      by rewrite Hs1, length_app, Hb2.
    + rewrite Ho4, Hl3 by (intros H; vm_compute in H; discriminate H).
      rewrite Hs2, Hs1, !length_app. cbn [length]. do 2 f_equal. f_equal. lia.
    + rewrite Hl4. rewrite Hs3, Hs2, Hs1, !length_app. cbn [length].
      do 2 f_equal. f_equal. lia.
  - intros channel Hne.
    rewrite Ho4, Ho3, Ho2, Ho1; [done | | | |].
    + apply (Hne onNewMessage).
    + apply (Hne onBotResponse).
    + apply (Hne onBotStream).
    + apply (Hne onFocusInput).
Qed.

Lemma subscribers_load (r : renderer) (m : method) : subscribers (load r) m = [].
Proof.
  destruct (load_spec r) as (Hs & Hb & _). unfold subscribers.
  rewrite Hs, Hb, lookup_app_r by (destruct m; lia).
  destruct m.
  - by replace (length (sets r) - length (sets r)) with 0 by lia.
  - by replace (length (sets r) + 1 - length (sets r)) with 1 by lia.
  - by replace (length (sets r) + 2 - length (sets r)) with 2 by lia.
  - by replace (length (sets r) + 3 - length (sets r)) with 3 by lia.
Qed.

Lemma load_bridged (r : renderer) : bridged (load r).
Proof.
  destruct (load_spec r) as (Hs & Hb & Hl & _). split_and!.
  - done.
  - intros m. rewrite Hs, Hb, length_app. simpl. destruct m; lia.
  - intros m m'. rewrite !Hb. destruct m, m'; (done || lia).
  - intros m. rewrite subscribers_load. constructor.
Qed.

Lemma bridge_of_with_ipc (p : preload) (r : renderer) (m : method) :
  bridge_of (with_ipc p r) m = bridge_of p m.
Proof. by destruct m. Qed.

(** Altering the set of one bridge alters the subscribers of its method
    and of no other. *)
Lemma subscribers_alter (p : preload) (f : list handler -> list handler)
    (m' m : method) (L : gmap (list N) (list listener)) :
  bridged p ->
  subscribers
    (with_ipc p (mk_renderer L (alter f (bridge_of p m') (sets (ipc p))))) m =
  if bool_decide (m' = m) then f (subscribers p m) else subscribers p m.
Proof.
  intros (_ & Hlt & Hinj & _). unfold subscribers.
  rewrite bridge_of_with_ipc. cbn [ipc with_ipc sets].
  case_bool_decide as Hm.
  - subst m'. rewrite list_lookup_alter_eq.
    destruct (lookup_lt_is_Some_2 _ _ (Hlt m)) as [s ->]. done.
  - rewrite list_lookup_alter_ne; [done |]. intros E. by apply Hm, Hinj.
Qed.

Lemma set_add_NoDup (cb : handler) (l : list handler) :
  NoDup l -> NoDup (set_add cb l).
Proof.
  intros H. unfold set_add. case_bool_decide; [done |].
  apply NoDup_app. split_and!; [done | | apply NoDup_singleton].
  intros x Hx ->%list_elem_of_singleton. done.
Qed.

Lemma set_delete_NoDup (cb : handler) (l : list handler) :
  NoDup l -> NoDup (set_delete cb l).
Proof. apply NoDup_filter. Qed.

Lemma step_bridged (p : preload) (c : api_call) : bridged p -> bridged (step p c).
Proof.
  intros Hp. pose proof Hp as (Hl & Hlt & Hinj & Hnd).
  destruct c as [m' cb | m' cb | cb]; cbn [step api_subscribe subscribe fst
    call_returned unsubscribe onNavigate].
  - split_and!.
    + done.
    + intros m. rewrite bridge_of_with_ipc. cbn. rewrite length_alter. apply Hlt.
    + intros m m'0. rewrite !bridge_of_with_ipc. apply Hinj.
    + intros m. rewrite subscribers_alter by done.
      case_bool_decide; [by apply set_add_NoDup | done].
  - split_and!.
    + done.
    + intros m. rewrite bridge_of_with_ipc. cbn. rewrite length_alter. apply Hlt.
    + intros m m'0. rewrite !bridge_of_with_ipc. apply Hinj.
    + intros m. unfold unsubscribe. rewrite subscribers_alter by done.
      case_bool_decide; [by apply set_delete_NoDup | done].
  - split_and!.
    + intros m. rewrite bridge_of_with_ipc. cbn.
      rewrite lookup_insert_ne; [apply Hl |].
      intros E. by apply (channel_of_not_navigate m).
    + intros m. rewrite bridge_of_with_ipc. apply Hlt.
    + intros m m'0. rewrite !bridge_of_with_ipc. apply Hinj.
    + intros m. unfold subscribers. rewrite bridge_of_with_ipc. apply Hnd.
Qed.

Lemma run_bridged (p : preload) (calls : list api_call) :
  bridged p -> bridged (run p calls).
Proof.
  revert p. induction calls as [|c calls IH]; intros p Hp; [done |].
  apply IH. by apply step_bridged.
Qed.

Lemma emit_bridged {P : Type} (p : preload) (m : method) (payload : P) :
  bridged p ->
  emit (ipc p) (channel_of m) payload
  = (fun cb => (cb, payload)) <$> subscribers p m.
Proof.
  intros (Hl & _). unfold emit, listeners_of. rewrite Hl. simpl.
  by rewrite app_nil_r.
Qed.

(** C6. After the module is loaded, on a renderer in any state, and after
    any calls of the API, every bridged channel has one listener; a
    message on the channel reaches the subscribers of the channel's
    bridge, in their order, each once. The subscribers are none at first;
    subscribing adds a new handler at the end and changes nothing for one
    that is there; unsubscribing takes the handler out and keeps the order
    of the others; calls for other channels change nothing. *)
Theorem bridge_one_listener_ordered_delivery {P : Type} (r : renderer)
    (calls : list api_call) (m : method) (payload : P) :
  let p := run (load r) calls in
  length (listeners_of (ipc p) (channel_of m)) = 1 /\
  emit (ipc p) (channel_of m) payload
    = (fun cb => (cb, payload)) <$> subscribers p m /\
  NoDup (subscribers p m) /\
  subscribers (load r) m = [] /\
  (forall cb,
     subscribers (step p (call_subscribe m cb)) m =
     if bool_decide (cb ∈ subscribers p m) then subscribers p m
     else subscribers p m ++ [cb]) /\
  (forall cb,
     subscribers (step p (call_unsubscribe m cb)) m =
     filter (fun x => x <> cb) (subscribers p m)) /\
  (forall c, other_call m c -> subscribers (step p c) m = subscribers p m).
Proof.
  intros p.
  assert (Hp : bridged p) by apply run_bridged, load_bridged.
  pose proof Hp as (Hl & Hlt & Hinj & Hnd).
  split_and!.
  - unfold listeners_of. by rewrite Hl.
  - by apply emit_bridged.
  - apply Hnd.
  - apply subscribers_load.
  - intros cb. cbn [step api_subscribe subscribe fst].
    rewrite subscribers_alter by done. by rewrite bool_decide_eq_true_2.
  - intros cb. cbn [step call_returned]. unfold unsubscribe.
    rewrite subscribers_alter by done. by rewrite bool_decide_eq_true_2.
  - intros [m' cb | m' cb | cb] Hc; cbn [step api_subscribe subscribe fst
      call_returned unsubscribe onNavigate]; cbn in Hc.
    + rewrite subscribers_alter by done. by rewrite bool_decide_eq_false_2.
    + unfold unsubscribe. rewrite subscribers_alter by done.
      by rewrite bool_decide_eq_false_2.
    + unfold subscribers. by rewrite bridge_of_with_ipc.
Qed.

End PreloadFacts.

Section NavigateFacts.

Import Preload.

Context {P : Type}.

Lemma run_cons (p : preload) (c : api_call) (calls : list api_call) :
  run p (c :: calls) = run (step p c) calls.
Proof. done. Qed.

Lemma run_onNavigate (p : preload) (cb : handler) (n : nat) :
  listeners_of (ipc (run p (replicate n (call_onNavigate cb)))) (js "navigate-route")
    = listeners_of (ipc p) (js "navigate-route") ++ replicate n (direct cb) /\
  sets (ipc (run p (replicate n (call_onNavigate cb)))) = sets (ipc p).
Proof.
  revert p. induction n as [|n IH]; intros p.
  - simpl. by rewrite app_nil_r.
  - cbn [replicate]. rewrite run_cons.
    destruct (IH (step p (call_onNavigate cb))) as [-> ->].
    cbn [step onNavigate fst]. split; [| by destruct p].
    unfold listeners_of at 1. cbn. rewrite lookup_insert_eq. cbn.
    by rewrite <- app_assoc.
Qed.

Lemma call_listener_sets (r r' : renderer) (payload : P) (l : listener) :
  sets r = sets r' -> call_listener r payload l = call_listener r' payload l.
Proof. intros H. destruct l; simpl; by rewrite ?H. Qed.

Lemma emit_direct (r : renderer) (payload : P) (cb : handler) (n : nat) :
  flat_map (call_listener r payload) (replicate n (direct cb))
  = replicate n (cb, payload).
Proof. induction n as [|n IH]; simpl; [done | by rewrite IH]. Qed.

(** C9. [onNavigate] returns no unsubscribe function, and every call of
    it puts one more listener on [navigate-route]: after [n] calls with a
    callback, a message on the channel calls the callback [n] more times
    than before, which is [n] times on a renderer that has just loaded the
    module. *)
Theorem onNavigate_listener_per_call (p : preload) (cb : handler) (n : nat)
    (payload : P) :
  snd (onNavigate cb p) = undefined /\
  listeners_of (ipc (run p (replicate n (call_onNavigate cb)))) (js "navigate-route")
    = listeners_of (ipc p) (js "navigate-route") ++ replicate n (direct cb) /\
  emit (ipc (run p (replicate n (call_onNavigate cb)))) (js "navigate-route") payload
    = emit (ipc p) (js "navigate-route") payload ++ replicate n (cb, payload) /\
  length (listeners_of
            (ipc (run (load fresh) (replicate n (call_onNavigate cb))))
            (js "navigate-route")) = n /\
  emit (ipc (run (load fresh) (replicate n (call_onNavigate cb))))
       (js "navigate-route") payload
    = replicate n (cb, payload).
Proof.
  assert (Hemit : forall q,
    emit (ipc (run q (replicate n (call_onNavigate cb)))) (js "navigate-route") payload
    = emit (ipc q) (js "navigate-route") payload ++ replicate n (cb, payload)).
  { intros q. destruct (run_onNavigate q cb n) as [Hl Hs].
    unfold emit. rewrite Hl, flat_map_app, emit_direct. f_equal.
    apply flat_map_ext. intros l. by apply call_listener_sets. }
  assert (Hfresh : listeners_of (ipc (load fresh)) (js "navigate-route") = []).
  { unfold listeners_of.
    destruct (load_spec fresh) as (_ & _ & _ & Ho). rewrite Ho.
    - done.
    - intros m E. by apply (channel_of_not_navigate m). }
  split_and!.
  - done.
  - apply run_onNavigate.
  - apply Hemit.
  - destruct (run_onNavigate (load fresh) cb n) as [-> _].
    rewrite Hfresh. apply length_replicate.
  - rewrite Hemit. unfold emit at 1. by rewrite Hfresh.
Qed.

End NavigateFacts.

Example bridge_subscriptions :
  let p := Preload.run (Preload.load Preload.fresh)
             [Preload.call_subscribe Preload.onBotStream 7;
              Preload.call_subscribe Preload.onBotStream 8;
              Preload.call_subscribe Preload.onBotStream 7;
              Preload.call_subscribe Preload.onNewMessage 9;
              Preload.call_unsubscribe Preload.onBotStream 7;
              Preload.call_subscribe Preload.onBotStream 7] in
  Preload.emit (Preload.ipc p) (js "bot-stream") tt = [(8, tt); (7, tt)] /\
  Preload.emit (Preload.ipc p) (js "new-message") tt = [(9, tt)].
Proof. vm_compute. done. Qed.

Example navigate_twice :
  let p := Preload.run (Preload.load Preload.fresh)
             [Preload.call_onNavigate 5; Preload.call_onNavigate 5] in
  Preload.emit (Preload.ipc p) (js "navigate-route") tt = [(5, tt); (5, tt)].
Proof. vm_compute. done. Qed.

Lemma bridge_delivery_witness :
  let p := Preload.run (Preload.load Preload.fresh)
             [Preload.call_subscribe Preload.onBotStream 7] in
  Preload.subscribers
    (Preload.step p (Preload.call_subscribe Preload.onNewMessage 9))
    Preload.onBotStream
  = Preload.subscribers p Preload.onBotStream.
Proof.
  intros p.
  apply (bridge_one_listener_ordered_delivery Preload.fresh
           [Preload.call_subscribe Preload.onBotStream 7] Preload.onBotStream tt).
  simpl. discriminate.
Defined.

(** ** The chat view *)

Section ChatViewFacts.

Import ChatView.

(** Deciding the comparisons of two literal tags. *)
Ltac eval_tags :=
  repeat match goal with
         | |- context [bool_decide (js ?a = js ?b)] =>
             let v := eval vm_compute in (bool_decide (js a = js b)) in
             change (bool_decide (js a = js b)) with v
         end.

Lemma is_type_eq (data : StreamData) (tag : string) :
  is_type data tag = true -> data_type data = js tag.
Proof. unfold is_type, str_eqb. apply bool_decide_eq_true_1. Qed.

Lemma set_last_snoc {A} (l : list A) (x y : A) : set_last (l ++ [x]) y = l ++ [y].
Proof.
  unfold set_last. rewrite length_app. simpl.
  replace (length l + 1 - 1) with (length l) by lia.
  by rewrite take_app_length.
Qed.

Lemma getLastToolExecution_snoc (bs : list ChatBlock) (t : tool) :
  getLastToolExecution (bs ++ [tool_execution t]) = Some t.
Proof. unfold getLastToolExecution. by rewrite last_snoc. Qed.



Lemma endsWith_nil_false (x : str) : truthy x = true -> endsWith [] x = false.
Proof.
  intros Hx. destruct (endsWith [] x) eqn:E; [| done].
  apply endsWith_spec in E as [r Hr]. destruct r, x; done.
Qed.

(** A chunk whose arguments end the text of the record it goes on with
    changes nothing. *)
Lemma append_arguments_duplicate (bs : list ChatBlock) (t : tool)
    (data : StreamData) (x : str) :
  data_arguments data = Some x ->
  x `suffix_of` args t ->
  append_arguments (bs ++ [tool_execution t]) data = bs ++ [tool_execution t].
Proof.
  intros Hx [r Hr]. unfold append_arguments.
  rewrite Hx, getLastToolExecution_snoc.
  destruct (truthy x && bool_decide (tool_status t = running)) eqn:E; [| done].
  apply andb_true_iff in E as [-> _].
  assert (endsWith (args t) x = true) as -> by (apply endsWith_spec; eauto).
  done.
Qed.

(** In a record just opened the arguments are the whole text. *)
Lemma append_arguments_fresh (bs : list ChatBlock) (data : StreamData) (x : str) :
  data_arguments data = Some x ->
  append_arguments
    (bs ++ [tool_execution (mk_tool (data_name data) [] None running (Some 0))]) data
  = bs ++ [tool_execution
             (mk_tool (data_name data) x None running (Some (length x)))].
Proof.
  intros Hx. unfold append_arguments.
  rewrite Hx, getLastToolExecution_snoc. cbn [tool_status args name result].
  rewrite bool_decide_eq_true_2 by done. rewrite andb_true_r.
  destruct (truthy x) eqn:E.
  - rewrite endsWith_nil_false by done. cbn [andb]. by rewrite set_last_snoc.
  - by destruct x.
Qed.

(** The event goes to the last message when it is the assistant's, and
    to a new assistant message otherwise. *)
Lemma update_messages_assistant (data : StreamData) (ms : list Message)
    (m : Message) :
  msg_role m = assistant ->
  update_messages data (ms ++ [m]) = ms ++ [apply_event m data].
Proof.
  intros Hr. unfold update_messages. rewrite last_snoc.
  destruct m as [[] c bs l]; [done |].
  by rewrite last_snoc, set_last_snoc.
Qed.

Lemma update_messages_user (data : StreamData) (ms : list Message) (m : Message) :
  msg_role m = user ->
  update_messages data (ms ++ [m]) =
  ms ++ [m; apply_event (mk_message assistant [] [] (Some [])) data].
Proof.
  intros Hr. unfold update_messages. rewrite last_snoc.
  destruct m as [[] c bs l]; [| done].
  by rewrite last_snoc, set_last_snoc, <- app_assoc.
Qed.

(** C4. For a [tool_call_chunk] with arguments [x]: when the last block
    is a tool record whose text ends with [x], the record keeps its text,
    its result and its status; when the chunk goes on with the record
    nothing is appended anywhere, and when it opens a record instead, [x]
    is the text of the new record, after the old one. In every case, when
    the text of the record the chunk is for ends with [x], the chunk adds
    nothing to it. *)
Theorem duplicate_chunk_keeps_arguments (m : Message) (data : StreamData)
    (x : str) :
  is_type data "tool_call_chunk" = true ->
  data_arguments data = Some x ->
  (forall pre t,
     blocks m = pre ++ [tool_execution t] ->
     x `suffix_of` args t ->
     exists t' post,
       blocks (apply_event m data) = pre ++ [tool_execution t'] ++ post /\
       args t' = args t /\
       length (args t') = length (args t) /\
       result t' = result t /\
       tool_status t' = tool_status t /\
       (continues t data = true -> post = []) /\
       (continues t data = false ->
        post = [tool_execution
                  (mk_tool (data_name data) x None running (Some (length x)))])) /\
  (forall bs t,
     open_tool (blocks m) data = bs ++ [tool_execution t] ->
     x `suffix_of` args t ->
     apply_event m data = with_blocks m (bs ++ [tool_execution t])).
Proof.
  intros H%is_type_eq Hx.
  unfold apply_event, is_type, str_eqb. rewrite H. eval_tags. cbv iota.
  split.
  - intros pre t Hbs Hsuf.
    cbn [blocks with_blocks]. rewrite Hbs.
    unfold open_tool, continues. rewrite getLastToolExecution_snoc.
    destruct (truthy_opt (data_name data)) eqn:En; cbn [negb orb].
    + destruct (bool_decide (tool_status t = running)) eqn:Er; cbn [negb orb andb].
      * destruct (truthy_opt (name t)) eqn:Et; cbn [negb orb andb].
        -- destruct (same_name (name t) (data_name data)) eqn:Es; cbn [negb].
           ++ rewrite (append_arguments_duplicate _ _ _ x) by done.
              exists t, []. by split_and!.
           ++ rewrite (append_arguments_fresh _ _ x) by done.
              rewrite <- app_assoc. exists t, [tool_execution
                (mk_tool (data_name data) x None running (Some (length x)))].
              by split_and!.
        -- rewrite set_last_snoc, (append_arguments_duplicate _ _ _ x) by done.
           eexists _, []. by split_and!.
      * rewrite (append_arguments_fresh _ _ x) by done.
        rewrite <- app_assoc. exists t, [tool_execution
          (mk_tool (data_name data) x None running (Some (length x)))].
        by split_and!.
    + rewrite (append_arguments_duplicate _ _ _ x) by done.
      exists t, []. by split_and!.
  - intros bs t Hopen Hsuf. rewrite Hopen.
    by rewrite (append_arguments_duplicate _ _ _ x).
Qed.

Lemma run_stream_cons (e : option StreamData) (events : list (option StreamData))
    (v : view) :
  run_stream (e :: events) v = run_stream events (onBotStream e v).
Proof. done. Qed.

Lemma onBotStream_keeps_responding (payload : option StreamData) (v : view) :
  isResponding v = true -> keeps_responding payload ->
  isResponding (onBotStream payload v) = true.
Proof.
  intros Hv Hk. destruct payload as [data|]; [| done].
  unfold onBotStream. rewrite Hv. cbn [negb andb].
  unfold keeps_responding, ends_response in Hk. rewrite Hk.
  by destruct (is_type data "content" || is_type data "answer").
Qed.

Lemma onBotStream_ends_response (data : StreamData) (v : view) :
  ends_response data = true ->
  isResponding (onBotStream (Some data) v) = false /\
  isTyping (onBotStream (Some data) v) = false /\
  input (onBotStream (Some data) v) = input v.
Proof.
  unfold ends_response, onBotStream, starts_response.
  intros [H%is_type_eq | H%is_type_eq]%orb_true_iff;
    unfold is_type, str_eqb; rewrite H; eval_tags; done.
Qed.

Lemma onBotStream_from_idle (data : StreamData) (v : view) :
  isResponding v = false ->
  isResponding (onBotStream (Some data) v)
  = (is_type data "content" || is_type data "answer" || is_type data "thinking"
     || is_type data "tool_call" || is_type data "tool_call_chunk").
Proof.
  intros Hv. unfold onBotStream, starts_response. rewrite Hv. cbn [negb andb].
  destruct (is_type data "content") eqn:E1; [done |].
  destruct (is_type data "answer") eqn:E2; [done |]. cbn [orb].
  destruct (is_type data "error") eqn:E3.
  { apply is_type_eq in E3. unfold is_type, str_eqb. rewrite E3. by eval_tags. }
  destruct (is_type data "finish") eqn:E4.
  { apply is_type_eq in E4. unfold is_type, str_eqb. rewrite E4. by eval_tags. }
  cbn [orb]. by destruct (is_type data "thinking" || _ || _).
Qed.

(** C7. A submission that should be held back goes through.
    [handleSubmit] tests [isResponding] before it waits for
    [checkConfig] and sets it after: of two submit events that come
    while the view is idle, before the first check is answered, both
    pass the test, and the second calls [submitInput] when the first has
    set [isResponding]. An empty text on [new-message], which the main
    process sends as it starts the request for it, leaves the view idle,
    and the events of that request set [isResponding] only when one of
    the five kinds that carry an answer comes. *)
Theorem submission_passes_gate_during_check (v : view) :
  isResponding v = false ->
  truthy (trim (input v)) = true ->
  let s2 := session_run (mk_session v [] []) [submit; submit] in
  let s3 := session_step s2 (check_answered 0 configured) in
  let s4 := session_step s3 (check_answered 0 configured) in
  waiting s2 = [input v; input v] /\
  isResponding (shown s3) = true /\
  done_so_far s3 = [preventDefault; preventDefault; submitInput (input v)] /\
  done_so_far s4 = done_so_far s3 ++ [submitInput (input v)] /\
  onNewMessage [] v = v /\
  (forall data,
     isResponding (onBotStream (Some data) (onNewMessage [] v))
     = (is_type data "content" || is_type data "answer"
        || is_type data "thinking" || is_type data "tool_call"
        || is_type data "tool_call_chunk")).
Proof.
  intros Hr Hi s2 s3 s4.
  assert (handleSubmit v = ([preventDefault], Some (input v))) as Hs.
  { unfold handleSubmit. by rewrite Hr, Hi. }
  assert (s2 = mk_session v [input v; input v] [preventDefault; preventDefault])
    as E2.
  { unfold s2, session_run. cbn [fold_left session_step shown waiting done_so_far].
    rewrite Hs. cbn [shown waiting done_so_far option_list app]. by rewrite Hs. }
  assert (s3 = mk_session (mk_view (messages v) [] (isTyping v) true) [input v]
                 [preventDefault; preventDefault; submitInput (input v)]) as E3.
  { unfold s3. by rewrite E2. }
  split_and!.
  - by rewrite E2.
  - by rewrite E3.
  - by rewrite E3.
  - unfold s4. by rewrite E3.
  - done.
  - intros data. by apply onBotStream_from_idle.
Qed.

End ChatViewFacts.

Example session_scenario :
  let v1 := ChatView.onNewMessage (js "hi") ChatView.initial in
  let v2 := ChatView.run_stream
              [Some (ChatView.sample_event "thinking");
               Some (ChatView.sample_event "content")] v1 in
  let v3 := ChatView.onBotStream (Some (ChatView.sample_event "finish")) v2 in
  ChatView.isResponding v1 = true /\
  ChatView.isResponding v2 = true /\
  ChatView.isResponding v3 = false /\
  ChatView.messages v3 =
    [ChatView.mk_message ChatView.user (js "hi") [] None;
     ChatView.mk_message ChatView.assistant (js "x")
       [ChatView.thinking (ChatView.Str (js "x"));
        ChatView.text (ChatView.Str (js "x"))] (Some [])].
Proof. vm_compute. done. Qed.

Example chunk_appended :
  ChatView.blocks
    (ChatView.apply_event ChatView.sample_tool_message (ChatView.sample_chunk ",r:2}"))
  = [ChatView.thinking (ChatView.Str (js "looking it up"));
     ChatView.tool_execution
       (ChatView.mk_tool (Some (js "search")) (js "{q:1},r:2}") None
          ChatView.running (Some 10))].
Proof. reflexivity. Qed.

Example chunk_repeated :
  ChatView.apply_event ChatView.sample_tool_message (ChatView.sample_chunk "1}")
  = ChatView.sample_tool_message.
Proof. reflexivity. Qed.

Example answer_after_content :
  ChatView.apply_event (ChatView.sample_text_message "partial")
    (ChatView.sample_answer "partial and more")
  = ChatView.sample_text_message "partial".
Proof. reflexivity. Qed.

Example answer_alone :
  ChatView.update_messages (ChatView.sample_answer "done") []
  = [ChatView.mk_message ChatView.assistant (js "done")
       [ChatView.text (ChatView.Str (js "done"))] (Some [])].
Proof. reflexivity. Qed.

Lemma duplicate_chunk_witness :
  exists t' post,
    ChatView.blocks
      (ChatView.apply_event ChatView.sample_tool_message (ChatView.sample_chunk "1}"))
    = [ChatView.thinking (ChatView.Str (js "looking it up"))]
      ++ [ChatView.tool_execution t'] ++ post /\
    ChatView.args t' = js "{q:1}" /\
    post = [].
Proof.
  destruct (duplicate_chunk_keeps_arguments ChatView.sample_tool_message
              (ChatView.sample_chunk "1}") (js "1}") eq_refl eq_refl)
    as [H _].
  destruct (H [ChatView.thinking (ChatView.Str (js "looking it up"))]
              (ChatView.mk_tool (Some (js "search")) (js "{q:1}") None
                 ChatView.running (Some 5)))
    as (t' & post & Hb & Ha & _ & _ & _ & Hc & _).
  - reflexivity.
  - by exists (js "{q:").
  - exists t', post. split_and!; [exact Hb | exact Ha | by apply Hc].
Defined.


Lemma submission_witness :
  let v := ChatView.mk_view [] (js "hello") false false in
  let s3 := ChatView.session_run (ChatView.mk_session v [] [])
              [ChatView.submit; ChatView.submit;
               ChatView.check_answered 0 ChatView.configured] in
  ChatView.isResponding (ChatView.shown s3) = true /\
  ChatView.done_so_far
    (ChatView.session_step s3 (ChatView.check_answered 0 ChatView.configured))
  = [ChatView.preventDefault; ChatView.preventDefault;
     ChatView.submitInput (js "hello"); ChatView.submitInput (js "hello")].
Proof.
  intros v s3.
  destruct (submission_passes_gate_during_check v) as (_ & H2 & H3 & H4 & _).
  - reflexivity.
  - reflexivity.
  - split; [exact H2 |]. etransitivity; [exact H4 |]. by rewrite H3.
Defined.

(** * Further properties *)

(** ** The stream decoder: chunking, line endings, the end of the stream *)

Section StreamMore.

Import Stream LineEndings.

Context {J : Type}.
Variable JSON_parse : str -> option J.
Variable chatWindow : bool.

Local Abbreviation flushEvent := (flushEvent JSON_parse chatWindow).
Local Abbreviation frame_loop := (frame_loop JSON_parse chatWindow).
Local Abbreviation on_data := (on_data JSON_parse chatWindow).
Local Abbreviation on_end := (on_end JSON_parse chatWindow).
Local Abbreviation feed := (feed JSON_parse chatWindow).

Lemma framed_nil (rest : str) : framed [] rest = rest.
Proof. done. Qed.

Lemma framed_no_cr (frames : list str) (rest : str) :
  CR ∉ framed frames rest -> CR ∉ rest.
Proof.
  intros H Hr. apply H. unfold framed. apply elem_of_app. by right.
Qed.

(** What [feed] gives is read off the frames of the text, when the text
    has no CR. *)
Lemma feed_of_frames (chunks frames : list str) (buffer rest : str) :
  unterminated buffer ->
  CR ∉ buffer ++ concat chunks ->
  buffer ++ concat chunks = framed frames rest ->
  Forall complete_frame frames -> unterminated rest ->
  feed buffer chunks = Some (rest, flat_map flushEvent frames).
Proof.
  intros Hb Hcr E Hc Hu.
  destruct (feed_spec JSON_parse chatWindow chunks buffer Hb)
    as (fs & r & Hfeed & Hrw & Hc' & Hu').
  apply crlf_rewrite_no_cr in Hrw; [| done].
  destruct (framed_unique fs frames r rest) as [-> ->]; try done.
  congruence.
Qed.

(** X1. For a stream without CR, the events and the rest depend on the
    text received and not on how it was cut into chunks. *)
Theorem feed_chunking_irrelevant (chunks chunks' : list str) :
  concat chunks = concat chunks' ->
  CR ∉ concat chunks ->
  feed [] chunks = feed [] chunks'.
Proof.
  intros E Hcr.
  destruct (feed_spec JSON_parse chatWindow chunks []) as (fs & r & -> & Hrw & Hc & Hu);
    [done |].
  apply crlf_rewrite_no_cr in Hrw; [| done]. simpl in Hrw.
  symmetry. apply feed_of_frames; try done.
  - simpl. by rewrite <- E.
  - simpl. by rewrite <- E.
Qed.

Lemma replace_crlf_cons_other (x : N) (t : str) :
  x <> CR -> replace_crlf (x :: t) = x :: replace_crlf t.
Proof.
  intros Hx. destruct t as [|d t]; [done |].
  change (replace_crlf (x :: d :: t))
    with (if N.eqb x CR && N.eqb d LF then LF :: replace_crlf t
          else x :: replace_crlf (d :: t)).
  by rewrite (proj2 (N.eqb_neq x CR) Hx).
Qed.

Lemma replace_crlf_pair (t : str) :
  replace_crlf (CR :: LF :: t) = LF :: replace_crlf t.
Proof. done. Qed.

Lemma replace_crlf_no_cr_app (a c : str) :
  CR ∉ a -> replace_crlf (a ++ c) = a ++ replace_crlf c.
Proof.
  induction a as [|x a IH]; intros Hcr; [done |].
  assert (x <> CR) as Hx by (intros ->; apply Hcr; by left).
  assert (CR ∉ a) as Ha by (intros ?; apply Hcr; by right).
  change ((x :: a) ++ c) with (x :: (a ++ c)).
  by rewrite replace_crlf_cons_other, IH.
Qed.

Lemma replace_crlf_no_cr (a : str) : CR ∉ a -> replace_crlf a = a.
Proof.
  intros H. rewrite <- (app_nil_r a) at 1.
  rewrite replace_crlf_no_cr_app by done. simpl. by rewrite app_nil_r.
Qed.

(** One pass undoes the encoding, whatever follows. *)
Lemma replace_crlf_encode_app (a c : str) :
  CR ∉ a -> replace_crlf (crlf_encode a ++ c) = a ++ replace_crlf c.
Proof.
  induction a as [|x a IH]; intros Hcr; [done |].
  assert (x <> CR) as Hx by (intros ->; apply Hcr; by left).
  assert (CR ∉ a) as Ha by (intros ?; apply Hcr; by right).
  unfold crlf_encode. cbn [flat_map]. fold (crlf_encode a).
  destruct (N.eqb x LF) eqn:El.
  - apply N.eqb_eq in El as ->.
    change (([CR; LF] ++ crlf_encode a) ++ c) with (CR :: LF :: (crlf_encode a ++ c)).
    by rewrite replace_crlf_pair, IH.
  - change (([x] ++ crlf_encode a) ++ c) with (x :: (crlf_encode a ++ c)).
    by rewrite replace_crlf_cons_other, IH.
Qed.

Lemma crlf_encode_app (a b : str) :
  crlf_encode (a ++ b) = crlf_encode a ++ crlf_encode b.
Proof. unfold crlf_encode. apply flat_map_app. Qed.

(** A prefix of an encoded text is an encoded text, with a CR behind it
    when the cut falls inside a CR LF pair. *)
Lemma crlf_encode_prefix (s u rest : str) :
  u ++ rest = crlf_encode s ->
  exists s1 s2 tail,
    s = s1 ++ s2 /\ u = crlf_encode s1 ++ tail /\
    (tail = [] \/ tail = [CR]) /\ tail ++ rest = crlf_encode s2.
Proof.
  revert u. induction s as [|x s IH]; intros u E.
  - apply app_eq_nil in E as [-> ->]. exists [], [], [].
    split_and!; try done. by left.
  - destruct u as [|a u].
    + exists [], (x :: s), []. split_and!; try done. by left.
    + unfold crlf_encode in E. cbn [flat_map] in E. fold (crlf_encode s) in E.
      destruct (N.eqb x LF) eqn:El.
      * apply N.eqb_eq in El as ->.
        simpl in E. injection E as -> E.
        destruct u as [|b u].
        -- exists [], (LF :: s), [CR]. simpl in E. subst rest.
           split_and!; try done. by right.
        -- simpl in E. injection E as -> E.
           destruct (IH u E) as (s1 & s2 & tail & -> & -> & Ht & Hr).
           exists (LF :: s1), s2, tail. split_and!; try done.
      * simpl in E. injection E as -> E.
        destruct (IH u E) as (s1 & s2 & tail & -> & -> & Ht & Hr).
        exists (x :: s1), s2, tail. split_and!; try done.
        unfold crlf_encode at 2. cbn [flat_map]. by rewrite El.
Qed.

Lemma crlf_encode_not_cr (s : str) : CR ∉ s -> crlf_encode s <> [CR].
Proof.
  intros Hcr E. destruct s as [|x s]; [done |].
  unfold crlf_encode in E. cbn [flat_map] in E.
  destruct (N.eqb x LF) eqn:El; [done |].
  simpl in E. injection E as -> _. apply Hcr. by left.
Qed.

(** A CR at the end ends no frame. *)
Lemma unterminated_app_cr (r : str) : unterminated r -> unterminated (r ++ [CR]).
Proof.
  unfold unterminated. rewrite !indexOf_None. intros H j.
  destruct (startsWith (drop j (r ++ [CR])) separator) eqn:E; [| done].
  apply startsWith_spec in E as [t Ht]. specialize (H j).
  destruct (decide (j <= length r)) as [Hj|Hj].
  - rewrite drop_app_le in Ht by done.
    destruct (drop j r) as [|a [|b l]] eqn:Ed.
    + discriminate Ht.
    + discriminate Ht.
    + injection Ht as -> -> _. done.
  - rewrite drop_ge in Ht; [discriminate Ht |]. rewrite length_app. simpl. lia.
Qed.
Lemma framed_app_rest (frames : list str) (rest t : str) :
  framed frames (rest ++ t) = framed frames rest ++ t.
Proof. unfold framed. by rewrite app_assoc. Qed.

Lemma on_data_cut (buffer chunk : str) (frames : list str) (rest : str) :
  replace_crlf (buffer ++ chunk) = framed frames rest ->
  Forall complete_frame frames -> unterminated rest ->
  on_data buffer chunk = Some (rest, flat_map flushEvent frames).
Proof.
  intros E Hc Hu.
  destruct (on_data_spec JSON_parse chatWindow buffer chunk)
    as (fs & r & -> & E' & Hc' & Hu').
  destruct (framed_unique fs frames r rest) as [-> ->]; try done.
  congruence.
Qed.

Lemma feed_chunking_buffer (chunks chunks' : list str) (buffer : str) :
  unterminated buffer ->
  concat chunks = concat chunks' ->
  CR ∉ buffer ++ concat chunks ->
  feed buffer chunks = feed buffer chunks'.
Proof.
  intros Hb E Hcr.
  destruct (feed_spec JSON_parse chatWindow chunks buffer Hb)
    as (fs & r & -> & Hrw & Hc & Hu).
  apply crlf_rewrite_no_cr in Hrw; [| done].
  symmetry. apply feed_of_frames; try done; by rewrite <- E.
Qed.

Lemma feed_cons (buffer chunk : str) (more : list str) :
  feed buffer (chunk :: more) =
  match on_data buffer chunk with
  | None => None
  | Some (buffer', sent) =>
      match feed buffer' more with
      | None => None
      | Some (rest, sent') => Some (rest, sent ++ sent')
      end
  end.
Proof. done. Qed.

Lemma feed_crlf_encoded (chunks : list str) (b0 tail s2 : str) :
  CR ∉ b0 -> unterminated b0 -> CR ∉ s2 ->
  tail = [] \/ tail = [CR] ->
  tail ++ concat chunks = crlf_encode s2 ->
  feed (b0 ++ tail) chunks = feed b0 [s2].
Proof.
  revert b0 tail s2.
  induction chunks as [|chunk more IH]; intros b0 tail s2 Hb0 Hu0 Hs2 Ht E.
  - simpl in E. rewrite app_nil_r in E. destruct Ht as [-> | ->].
    + destruct s2 as [|x s2].
      * rewrite app_nil_r. symmetry.
        transitivity (Some (b0, flat_map flushEvent [])); [| done].
        apply feed_of_frames; try done.
        -- simpl. by rewrite !app_nil_r.
        -- simpl. by rewrite !app_nil_r.
      * unfold crlf_encode in E. cbn [flat_map] in E.
        destruct (N.eqb x LF); discriminate E.
    + symmetry in E. by apply crlf_encode_not_cr in E.
  - cbn [concat] in E. rewrite app_assoc in E.
    destruct (crlf_encode_prefix s2 (tail ++ chunk) (concat more) E)
      as (s2a & s2b & tail' & -> & Hu & Ht' & Hrest).
    assert ((CR ∉ s2a) /\ (CR ∉ s2b)) as [Ha Hb'].
    { split; intros ?; apply Hs2, elem_of_app; [by left | by right]. }
    assert (CR ∉ b0 ++ s2a) as Hx.
    { intros [?|?]%elem_of_app; done. }
    destruct (on_data_spec JSON_parse chatWindow b0 s2a)
      as (fs & r & Hd & Hf & Hc & Hur).
    rewrite replace_crlf_no_cr in Hf by done.
    assert (CR ∉ r) as Hr by (apply (framed_no_cr fs); by rewrite <- Hf).
    assert (on_data (b0 ++ tail) chunk = Some (r ++ tail', flat_map flushEvent fs))
      as Hd'.
    { apply on_data_cut; [| done |].
      - rewrite <- app_assoc, Hu.
        rewrite replace_crlf_no_cr_app by done.
        rewrite replace_crlf_encode_app by done.
        rewrite framed_app_rest, <- Hf, <- app_assoc.
        do 2 f_equal. by destruct Ht' as [-> | ->].
      - destruct Ht' as [-> | ->];
          [by rewrite app_nil_r | by apply unterminated_app_cr]. }
    rewrite (feed_chunking_buffer [s2a ++ s2b] [s2a; s2b] b0).
    + rewrite !feed_cons, Hd', Hd. by rewrite (IH r tail' s2b).
    + done.
    + simpl. by rewrite !app_nil_r.
    + simpl. rewrite app_nil_r. intros [?|?]%elem_of_app; done.
Qed.

(** X2. A stream sent with CR LF line endings, cut into chunks anywhere
    (also inside a CR LF pair), gives the events and the rest of the same
    text with LF line endings. *)
Theorem feed_crlf_as_lf (s : str) (chunks : list str) :
  CR ∉ s ->
  concat chunks = crlf_encode s ->
  feed [] chunks = feed [] [s].
Proof.
  intros Hs E. apply (feed_crlf_encoded chunks [] [] s); try done.
  - intros H. by apply elem_of_nil in H.
  - by left.
Qed.
Lemma split_on_cons (sep : N) (s : str) :
  exists h r, split_on sep s = h :: r.
Proof.
  induction s as [|c s (h & r & IH)]; simpl; [by eexists _, _ |].
  destruct (N.eqb c sep); [by eexists _, _ |]. rewrite IH. by eexists _, _.
Qed.

(** The lines of a text are the lines of what comes before a separator
    and the lines of what follows it. *)
Lemma split_on_app (sep : N) (a b : str) :
  split_on sep (a ++ sep :: b) = split_on sep a ++ split_on sep b.
Proof.
  induction a as [|c a IH]; simpl.
  - by rewrite N.eqb_refl.
  - destruct (N.eqb c sep); [by rewrite IH |].
    rewrite IH. by destruct (split_on_cons sep a) as (h & r & ->).
Qed.

Lemma split_on_no_sep (sep : N) (c : str) : sep ∉ c -> split_on sep c = [c].
Proof.
  induction c as [|x c IH]; intros H; [done |]. simpl.
  assert (x <> sep) as Hx by (intros ->; apply H; by left).
  rewrite (proj2 (N.eqb_neq x sep) Hx), IH; [done |].
  intros ?. apply H. by right.
Qed.

Lemma dataLines_app (a b : str) :
  dataLines (a ++ LF :: b) = dataLines a ++ dataLines b.
Proof. unfold dataLines. by rewrite split_on_app, omap_app. Qed.

Lemma dataLines_line (c : str) :
  LF ∉ c -> dataLines c = match data_line c with Some v => [v] | None => [] end.
Proof. intros H. unfold dataLines. by rewrite split_on_no_sep. Qed.

(** The event of a frame is a function of its data lines. *)
Lemma flushEvent_dataLines (f g : str) :
  dataLines f = dataLines g -> flushEvent f = flushEvent g.
Proof. unfold Stream.flushEvent. by intros ->. Qed.

(** X4. A line of a frame that does not start with [data:] (a comment,
    an [event:] or [id:] field, a blank line) does not change the event of
    the frame, wherever it stands. *)
Theorem other_lines_ignored (a b c : str) :
  LF ∉ c ->
  startsWith (trimEnd c) (js "data:") = false ->
  flushEvent (a ++ LF :: c ++ LF :: b) = flushEvent (a ++ LF :: b) /\
  flushEvent (c ++ LF :: b) = flushEvent b /\
  flushEvent (a ++ LF :: c) = flushEvent a.
Proof.
  intros Hlf Hc.
  assert (dataLines c = []) as Hd.
  { rewrite dataLines_line by done. unfold data_line. rewrite Hc.
    by destruct (negb (truthy (trimEnd c))). }
  split_and!; apply flushEvent_dataLines.
  - by rewrite !dataLines_app, Hd.
  - by rewrite dataLines_app, Hd.
  - by rewrite dataLines_app, Hd, app_nil_r.
Qed.

Lemma trimEnd_blank (s : str) :
  Forall (fun c => is_ws c = true) s -> trimEnd s = [].
Proof.
  induction 1 as [|c s Hc _ IH]; [done |]. simpl. by rewrite IH, Hc.
Qed.

Lemma trimEnd_nil_blank (s : str) :
  trimEnd s = [] -> Forall (fun c => is_ws c = true) s.
Proof.
  induction s as [|c s IH]; intros H; [constructor |].
  simpl in H. destruct (trimEnd s) as [|d t] eqn:E; [| done].
  destruct (is_ws c) eqn:Ec; [| done].
  constructor; [done | by apply IH].
Qed.

Lemma trimStart_blank (s : str) :
  Forall (fun c => is_ws c = true) (trimStart s) ->
  Forall (fun c => is_ws c = true) s.
Proof.
  induction s as [|c s IH]; intros H; [done |]. simpl in H.
  destruct (is_ws c) eqn:Ec; [| done].
  constructor; [done | by apply IH].
Qed.

Lemma split_on_blank (sep : N) (s : str) :
  Forall (fun c => is_ws c = true) s ->
  Forall (Forall (fun c => is_ws c = true)) (split_on sep s).
Proof.
  induction 1 as [|c s Hc _ IH]; simpl; [by repeat constructor |].
  destruct (N.eqb c sep); [by constructor |].
  destruct (split_on sep s) as [|h r]; [by repeat constructor |].
  apply Forall_cons in IH as [Hh Hr]. constructor; [by constructor | done].
Qed.

(** A blank text has no data line. *)
Lemma dataLines_blank (s : str) : trim s = [] -> dataLines s = [].
Proof.
  intros H. apply trimEnd_nil_blank, trimStart_blank in H.
  apply (split_on_blank LF) in H. unfold dataLines.
  induction H as [|l ls Hl _ IH]; [done |].
  cbn [omap list_omap]. unfold data_line at 1.
  rewrite (trimEnd_blank l Hl). cbn. exact IH.
Qed.

(** A text in which no frame has ended and that does not end with LF is a
    complete frame once the separator follows. *)
Lemma complete_frame_intro (f : str) :
  unterminated f -> last f <> Some LF -> complete_frame f.
Proof.
  intros Hu Hl. apply indexOf_Some. split.
  - by rewrite drop_app_length.
  - intros j Hj.
    destruct (startsWith (drop j (f ++ separator)) separator) eqn:E; [| done].
    apply startsWith_spec in E as [t Ht].
    rewrite drop_app_le in Ht by lia.
    destruct (drop j f) as [|a [|b l]] eqn:Ed.
    + apply (f_equal length) in Ed. rewrite length_drop in Ed. simpl in Ed. lia.
    + injection Ht as -> _. exfalso. apply Hl.
      rewrite <- (take_drop j f), Ed. by rewrite last_snoc.
    + injection Ht as -> -> _.
      apply indexOf_None with (j := j) in Hu. rewrite Ed in Hu. done.
Qed.

(** X3. When the stream ends without the last separator, the flush gives
    the events that the separator would have given. *)
Theorem on_end_as_separator (rest : str) :
  unterminated rest -> CR ∉ rest ->
  exists rest', on_data rest separator = Some (rest', on_end rest).
Proof.
  intros Hu Hcr.
  assert (on_end rest = flushEvent rest) as ->.
  { unfold Stream.on_end. destruct (trim rest) as [|c t] eqn:E; [| done].
    simpl. unfold Stream.flushEvent. by rewrite (dataLines_blank rest E). }
  assert (replace_crlf (rest ++ separator) = rest ++ separator) as Hn.
  { apply replace_crlf_no_cr. intros [?|H]%elem_of_app; [done |].
    apply elem_of_cons in H as [H|H]; [done |].
    apply elem_of_cons in H as [H|H]; [done |].
    by apply elem_of_nil in H. }
  destruct (decide (last rest = Some LF)) as [Hl|Hl].
  - apply last_Some in Hl as [r0 ->].
    exists [LF].
    assert (flushEvent (r0 ++ [LF]) = flushEvent r0) as ->.
    { apply flushEvent_dataLines. rewrite dataLines_app. by rewrite app_nil_r. }
    replace (flushEvent r0) with (flat_map flushEvent [r0])
      by (simpl; by rewrite app_nil_r).
    apply on_data_cut.
    + rewrite Hn, framed_cons, framed_nil, <- app_assoc. done.
    + constructor; [| done]. apply complete_frame_intro.
      * unfold unterminated in *. rewrite indexOf_None in *.
        intros j. specialize (Hu j).
        destruct (startsWith (drop j r0) separator) eqn:E; [| done].
        apply startsWith_spec in E as [t Ht]. rewrite <- Hu. symmetry.
        apply startsWith_spec. exists (t ++ [LF]).
        destruct (decide (j <= length r0)) as [Hj|Hj].
        -- by rewrite drop_app_le, Ht by done.
        -- rewrite drop_ge in Ht by lia. discriminate Ht.
      * intros Hl. apply last_Some in Hl as [r1 ->].
        unfold unterminated in Hu.
        apply indexOf_None with (j := length r1) in Hu.
        rewrite <- app_assoc, drop_app_length in Hu. done.
    + done.
  - exists [].
    replace (flushEvent rest) with (flat_map flushEvent [rest])
      by (simpl; by rewrite app_nil_r).
    apply on_data_cut.
    + by rewrite Hn, framed_cons, framed_nil.
    + constructor; [by apply complete_frame_intro | done].
    + done.
Qed.
(** C1, as amended. For every sequence of chunks of a response, the
    decoder ends with the events of the frames it has cut, in order, and a
    rest; the frames, each followed by the separator, and the rest make up
    the received text with CR LF rewritten to LF: the received text itself
    when it has no CR, and then these are the only frames of the text;
    and for a text whose line ends are all CR LF, cut into chunks
    anywhere, the events and the rest are those of the frames of the text
    with LF line ends. Every frame is complete, that is, it was followed
    by its separator, and no frame has ended in the rest. A frame gives
    one event at most, and exactly one when the chat window is there, the
    frame has a [data:] line and its payload is [[DONE]], which gives the
    [finish] event, or parses as JSON, which gives the parsed value.
    Chunks that follow add events after these only; a chunk that ends no
    frame gives no event; and the end of the stream reads a rest that is
    not blank as one more frame, and gives nothing for a blank one. *)
Theorem decoder_events_of_complete_frames (chunks : list str) :
  exists frames rest,
    feed [] chunks = Some (rest, flat_map flushEvent frames) /\
    crlf_rewrite (concat chunks) (framed frames rest) /\
    (CR ∉ concat chunks ->
     concat chunks = framed frames rest /\
     forall frames' rest',
       concat chunks = framed frames' rest' ->
       Forall complete_frame frames' -> unterminated rest' ->
       frames' = frames /\ rest' = rest) /\
    (forall s frames' rest',
       CR ∉ s -> concat chunks = crlf_encode s ->
       s = framed frames' rest' ->
       Forall complete_frame frames' -> unterminated rest' ->
       feed [] chunks = Some (rest', flat_map flushEvent frames')) /\
    Forall complete_frame frames /\
    unterminated rest /\
    (forall f, length (flushEvent f) <= 1) /\
    (forall f, length (flushEvent f) = 1 <->
       chatWindow = true /\ dataLines f <> [] /\
       (join [LF] (dataLines f) = js "[DONE]" \/
        is_Some (JSON_parse (join [LF] (dataLines f))))) /\
    (forall f,
       chatWindow = true -> dataLines f <> [] ->
       join [LF] (dataLines f) = js "[DONE]" ->
       flushEvent f = [finish_event]) /\
    (forall f data,
       chatWindow = true -> dataLines f <> [] ->
       join [LF] (dataLines f) <> js "[DONE]" ->
       JSON_parse (join [LF] (dataLines f)) = Some data ->
       flushEvent f = [parsed_event data]) /\
    (forall more, exists rest' sent',
       feed [] (chunks ++ more) = Some (rest', flat_map flushEvent frames ++ sent')) /\
    (forall buffer chunk,
       unterminated (replace_crlf (buffer ++ chunk)) ->
       on_data buffer chunk = Some (replace_crlf (buffer ++ chunk), [])) /\
    length (on_end rest) <= 1 /\
    (trim rest <> [] -> on_end rest = flushEvent rest) /\
    (trim rest = [] -> on_end rest = []).
Proof.
  destruct (feed_spec JSON_parse chatWindow chunks [])
    as (frames & rest & Hfeed & Hrw & Hc & Hu); [done |].
  exists frames, rest. split_and!; try done.
  - intros Hcr.
    assert (concat chunks = framed frames rest) as E
      by (symmetry; by apply crlf_rewrite_no_cr).
    split; [done |]. intros frames' rest' E' Hc' Hu'.
    apply framed_unique; [congruence | done..].
  - intros s frames' rest' Hs E Ef Hc' Hu'.
    change (feed [] chunks) with (feed ([] ++ []) chunks).
    rewrite (feed_crlf_encoded chunks [] [] s);
      [| apply not_elem_of_nil | reflexivity | exact Hs | by left | exact E].
    apply feed_of_frames; try done.
    + cbn. by rewrite app_nil_r.
    + cbn. by rewrite app_nil_r.
  - apply flushEvent_at_most_one.
  - apply flushEvent_one_iff.
  - intros f Hw Hd Hp. unfold Stream.flushEvent, send.
    destruct (dataLines f) eqn:E; [done |]. cbn [length Nat.eqb].
    rewrite Hp, Hw. done.
  - intros f data Hw Hd Hp Hj. unfold Stream.flushEvent, send.
    destruct (dataLines f) eqn:E; [done |]. cbn [length Nat.eqb].
    unfold str_eqb. rewrite bool_decide_eq_false_2 by done.
    by rewrite Hj, Hw.
  - intros more. rewrite feed_app, Hfeed.
    destruct (feed_spec JSON_parse chatWindow more rest Hu) as (fs & rest' & -> & _).
    by eexists _, _.
  - intros buffer chunk H. by apply frame_loop_unterminated.
  - apply on_end_at_most_one.
  - intros Hne. unfold Stream.on_end. by destruct (trim rest).
  - intros E. unfold Stream.on_end. by rewrite E.
Qed.

End StreamMore.

Lemma decoder_witness :
  Stream.on_data Json.parse true [] (Json.jsq "data: {'a':1") =
  Some (Json.jsq "data: {'a':1", []).
Proof.
  destruct (decoder_events_of_complete_frames Json.parse true [])
    as (frames & rest & _ & _ & _ & _ & _ & _ & _ & _ & _ & _ & _ & H & _).
  apply (H [] (Json.jsq "data: {'a':1")). reflexivity.
Defined.

(** ** Requests that are not streamed *)

Section ApiFacts.

Import Api.

Context {J : Type}.
Variable JSON_parse : list N -> option J.

Local Abbreviation run := (run JSON_parse).
Local Abbreviation on_end := (on_end JSON_parse).

Lemma run_app (st : request) (events more : list event) :
  run st (events ++ more) = run (run st events) more.
Proof. apply fold_left_app. Qed.

Lemma run_data (b : str) (p : option (settled J)) (chunks : list str) :
  run (mk_request (Some b) p) (res_data <$> chunks)
  = mk_request (Some (b ++ concat chunks)) p.
Proof.
  revert b. induction chunks as [|c chunks IH]; intros b.
  - simpl. by rewrite app_nil_r.
  - cbn [fmap list_fmap]. unfold Api.run in *. cbn [fold_left turn buffer promise].
    rewrite IH. cbn [concat]. by rewrite app_assoc.
Qed.

(** A promise that is settled stays as it is. *)
Lemma run_settled (st : request) (r : settled J) (events : list event) :
  promise st = Some r -> promise (run st events) = Some r.
Proof.
  revert st. induction events as [|e events IH]; intros st H; [done |].
  unfold Api.run in *. cbn [fold_left]. apply IH.
  destruct e; simpl; rewrite ?H; try done; by destruct (buffer st).
Qed.

(** X5. Whatever the status of the response and however the body is cut
    into chunks, the promise of [makeApiRequest] is resolved at the end of
    the response, with the parsed value when the whole body is JSON and
    with the body as text otherwise; it is never rejected then, and
    nothing that follows changes it. *)
Theorem makeApiRequest_resolves_on_end (statusCode : N) (chunks : list str)
    (later : list event) :
  promise (run start (response statusCode :: (res_data <$> chunks)
                      ++ res_end :: later))
  = Some (on_end (concat chunks)) /\
  (forall message, on_end (concat chunks) <> rejected message).
Proof.
  split.
  - change (run start (response statusCode :: ?l))
      with (run (mk_request (Some []) None) l).
    rewrite run_app, run_data.
    change (run ?st (res_end :: later)) with (run (turn JSON_parse st res_end) later).
    by apply run_settled.
  - intros message. unfold Api.on_end. by destruct (JSON_parse _).
Qed.

End ApiFacts.

(** ** Waiting for the worker *)

Section ReadinessFacts.

Import Readiness Attempts.

Context {J W : Type}.
Variable makeApiRequest : W -> list N -> W * Api.settled J.
Variable wake_up_shortcut : J -> option (list N).
Variable not_configured : J -> bool.
Variable system : list N -> Hotkey.answer.
Variable chatWindow inputWindow : bool.

Local Abbreviation attempt :=
  (attempt makeApiRequest wake_up_shortcut not_configured system
     chatWindow inputWindow).
Local Abbreviation checkConfigLoop :=
  (checkConfigLoop makeApiRequest wake_up_shortcut not_configured system
     chatWindow inputWindow).
Local Abbreviation attempt_outcome := (attempt_outcome makeApiRequest not_configured).
Local Abbreviation outcomes := (outcomes makeApiRequest not_configured).
Local Abbreviation actions_of := (actions_of chatWindow inputWindow).

Lemma attempt_outcomes (left : nat) (st : state) :
  trace (attempt left st)
  = trace st ++ flat_map actions_of (outcomes left (world st)).
Proof.
  revert st. induction left as [|left IH]; intros st.
  - cbn. by rewrite app_nil_r.
  - cbn [Readiness.attempt Attempts.outcomes]. unfold Attempts.attempt_outcome.
    destruct (makeApiRequest (world st) (js "/config")) as [w1 config].
    destruct config as [json | body | message].
    + destruct (makeApiRequest w1 (js "/config/check")) as [w2 res].
      destruct res as [json2 | body2 | m2]; cbn [trace flat_map];
        rewrite ?IH; cbn [trace world Attempts.actions_of flat_map];
        rewrite ?app_nil_r, <- ?app_assoc; try done.
    + destruct (makeApiRequest w1 (js "/config/check")) as [w2 res].
      destruct res as [json2 | body2 | m2]; cbn [trace flat_map];
        rewrite ?IH; cbn [trace world Attempts.actions_of flat_map];
        rewrite ?app_nil_r, <- ?app_assoc; try done.
    + rewrite IH. cbn [trace world Attempts.actions_of flat_map].
      by rewrite <- !app_assoc.
Qed.

Lemma outcomes_length (n : nat) (w : W) : length (outcomes n w) <= n.
Proof.
  revert w. induction n as [|n IH]; intros w; [done |].
  cbn [Attempts.outcomes]. destruct (attempt_outcome w) as [w' [| | r]]; cbn;
    try (specialize (IH w')); lia.
Qed.

Lemma outcomes_failed_before_last (n : nat) (w : W) (k : nat) (o : outcome) :
  outcomes n w !! k = Some o -> S k < length (outcomes n w) -> failed o.
Proof.
  revert w k. induction n as [|n IH]; intros w k; [done |].
  cbn [Attempts.outcomes]. destruct (attempt_outcome w) as [w' [| | r]].
  - destruct k as [|k]; cbn.
    + intros [= <-] _. by left.
    + intros Hk Hl. apply (IH w' k); [done | lia].
  - destruct k as [|k]; cbn.
    + intros [= <-] _. by right.
    + intros Hk Hl. apply (IH w' k); [done | lia].
  - cbn. lia.
Qed.

Lemma outcomes_stop (n : nat) (w : W) :
  (length (outcomes n w) = n /\ Forall failed (outcomes n w)) \/
  exists fails redirected,
    outcomes n w = fails ++ [answered redirected] /\ Forall failed fails.
Proof.
  revert w. induction n as [|n IH]; intros w; [by left |].
  cbn [Attempts.outcomes]. destruct (attempt_outcome w) as [w' [| | r]].
  - destruct (IH w') as [[Hl Hf] | (fails & r & -> & Hf)].
    + left. cbn. split; [by rewrite Hl |]. constructor; [by left | done].
    + right. exists (config_rejected :: fails), r. split; [done |].
      constructor; [by left | done].
  - destruct (IH w') as [[Hl Hf] | (fails & r & -> & Hf)].
    + left. cbn. split; [by rewrite Hl |]. constructor; [by right | done].
    + right. exists (check_rejected :: fails), r. split; [done |].
      constructor; [by right | done].
  - right. by exists [], r.
Qed.

(** X6. The readiness loop makes twenty attempts at most, the one that
    is answered included, and what it does is what its attempts do, in
    order. An attempt fails when the configuration request is rejected,
    or when it is answered and the check request is rejected; it is then
    the requests made and a pause of one second. The first attempt on
    which both requests are answered is the last thing the loop does,
    with the redirection to the configuration page when the check says
    that the configuration is missing; without such an attempt the loop
    gives up after twenty that failed. *)
Theorem checkConfigLoop_bounded (st : state) :
  let outs := outcomes 20 (world st) in
  trace (checkConfigLoop st) = trace st ++ flat_map actions_of outs /\
  length outs <= 20 /\
  ((length outs = 20 /\ Forall failed outs) \/
   exists fails redirected,
     outs = fails ++ [answered redirected] /\ Forall failed fails) /\
  (forall w,
     (snd (attempt_outcome w) = config_rejected <->
      exists message,
        snd (makeApiRequest w (js "/config")) = Api.rejected message) /\
     (snd (attempt_outcome w) = check_rejected <->
      (forall message,
         snd (makeApiRequest w (js "/config")) <> Api.rejected message) /\
      exists message,
        snd (makeApiRequest (fst (makeApiRequest w (js "/config")))
               (js "/config/check")) = Api.rejected message) /\
     (forall redirected,
        snd (attempt_outcome w) = answered redirected <->
        (forall message,
           snd (makeApiRequest w (js "/config")) <> Api.rejected message) /\
        (forall message,
           snd (makeApiRequest (fst (makeApiRequest w (js "/config")))
                  (js "/config/check")) <> Api.rejected message) /\
        redirected
        = is_not_configured not_configured
            (snd (makeApiRequest (fst (makeApiRequest w (js "/config")))
                    (js "/config/check"))))).
Proof.
  intros outs. split_and!.
  - apply attempt_outcomes.
  - apply outcomes_length.
  - apply outcomes_stop.
  - intros w. unfold Attempts.attempt_outcome.
    destruct (makeApiRequest w (js "/config")) as [w1 config]. cbn [fst snd].
    destruct (makeApiRequest w1 (js "/config/check")) as [w2 res]. cbn [fst snd].
    destruct config as [json | body | message];
      destruct res as [json2 | body2 | m2]; cbn [snd];
      (split_and!; [| | intros redirected]);
      (split; [intros H | intros H]);
      try discriminate H;
      repeat match goal with
             | H : exists _, _ |- _ => destruct H as [? H]; try discriminate H
             | H : _ /\ _ |- _ => destruct H
             | H : forall message, Api.rejected ?m <> Api.rejected message |- _ =>
                 destruct (H m eq_refl)
             | H : forall message, _ <> _ |- _ => clear H
             end;
      try discriminate;
      try (by eexists);
      try (split_and!; try done; by eexists);
      try (by injection H as <-);
      try congruence.
Qed.

Lemma attempt_never_ready (left : nat) (st : state) :
  (forall w, exists message,
     snd (makeApiRequest w (js "/config")) = Api.rejected message) ->
  trace (attempt left st)
    = trace st ++ concat (replicate left [Request (js "/config"); Sleep 1000]) /\
  hotkeys (attempt left st) = hotkeys st.
Proof.
  intros Hdown. revert st. induction left as [|left IH]; intros st.
  - simpl. by rewrite app_nil_r.
  - cbn [Readiness.attempt].
    destruct (Hdown (world st)) as [message Hm].
    destruct (makeApiRequest (world st) (js "/config")) as [w1 config].
    simpl in Hm. subst config.
    destruct (IH (mk_state w1 (hotkeys st)
                ((trace st ++ [Request (js "/config")]) ++ [Sleep 1000])))
      as [-> ->].
    cbn [trace hotkeys replicate concat]. by rewrite <- !app_assoc.
Qed.

(** X7. When the worker never answers the configuration request, the
    loop gives up after twenty requests and twenty pauses of one second,
    and leaves the shortcut as it was. *)
Theorem checkConfigLoop_never_ready (st : state) :
  (forall w, exists message,
     snd (makeApiRequest w (js "/config")) = Api.rejected message) ->
  trace (checkConfigLoop st)
    = trace st ++ concat (replicate 20 [Request (js "/config"); Sleep 1000]) /\
  hotkeys (checkConfigLoop st) = hotkeys st.
Proof. apply attempt_never_ready. Qed.

End ReadinessFacts.

(** ** Clearing the port: the candidates *)

Section ReaperMore.

Import PortReaper ReaperWorld.

Context {W : Type}.
Variable execPromise : W -> list N -> W * exec_result.

Local Abbreviation kill_posix := (kill_posix execPromise).
Local Abbreviation reclaim := (reclaim execPromise).

Lemma set_add_invariant (pids : list str) (pid : str) :
  NoDup pids -> NoDup (set_add pids pid).
Proof.
  intros H. unfold set_add. case_bool_decide; [done |].
  apply NoDup_app. split_and!; [done | | apply NoDup_singleton].
  intros x Hx ->%list_elem_of_singleton. done.
Qed.

Lemma collect_invariant (lines : list str) (pids : list str) :
  NoDup pids -> Forall (fun pid => pid_accepted pid = true) pids ->
  NoDup (fold_left collect_pid lines pids) /\
  Forall (fun pid => pid_accepted pid = true) (fold_left collect_pid lines pids).
Proof.
  revert pids. induction lines as [|line lines IH]; intros pids Hn Ha; [done |].
  cbn [fold_left]. apply IH.
  - unfold collect_pid. destruct (pid_accepted _); [by apply set_add_invariant | done].
  - unfold collect_pid. destruct (pid_accepted (pid_of_line line)) eqn:E; [| done].
    unfold set_add. case_bool_decide; [done |].
    apply Forall_app. split; [done |]. by constructor.
Qed.

Lemma collect_members (lines : list str) (pids : list str) (pid : str) :
  pid ∈ fold_left collect_pid lines pids <->
  pid ∈ pids \/
  exists line, line ∈ lines /\ pid = pid_of_line line /\ pid_accepted pid = true.
Proof.
  revert pids. induction lines as [|line lines IH]; intros pids.
  - cbn. split; [by left |]. intros [? | (line & ?%elem_of_nil & _)]; done.
  - cbn [fold_left]. rewrite IH. unfold collect_pid at 1.
    destruct (pid_accepted (pid_of_line line)) eqn:E.
    + unfold set_add. case_bool_decide as Hin.
      * split.
        -- intros [? | (l & Hl & ? & ?)]; [by left |].
           right. exists l. split_and!; [by right | done | done].
        -- intros [? | (l & [-> | Hl]%elem_of_cons & -> & ?)]; [by left | by left |].
           right. by exists l.
      * split.
        -- intros [[? | ->%list_elem_of_singleton]%elem_of_app | (l & Hl & ? & ?)].
           ++ by left.
           ++ right. exists line. split_and!; [by left | done | done].
           ++ right. exists l. split_and!; [by right | done | done].
        -- intros [? | (l & [-> | Hl]%elem_of_cons & -> & ?)].
           ++ left. apply elem_of_app. by left.
           ++ left. apply elem_of_app. right. by apply list_elem_of_singleton.
           ++ right. by exists l.
    + split.
      * intros [? | (l & Hl & ? & ?)]; [by left |].
        right. exists l. split_and!; [by right | done | done].
      * intros [? | (l & [-> | Hl]%elem_of_cons & -> & ?)]; [by left | congruence |].
        right. by exists l.
Qed.

Lemma pid_accepted_spec (pid : str) :
  pid_accepted pid = true <->
  pid <> [] /\ pid <> js "0" /\ parseInt_isNaN pid = false.
Proof.
  unfold pid_accepted, str_eqb. split.
  - intros [[H1 H2]%andb_true_iff H3]%andb_true_iff. split_and!.
    + by destruct pid.
    + intros ->. by rewrite bool_decide_eq_true_2 in H2.
    + by destruct (parseInt_isNaN pid).
  - intros (H1 & H2 & H3). rewrite H3, bool_decide_eq_false_2 by done.
    by destruct pid.
Qed.

(** X8. Whatever [netstat] prints, the processes the Windows branch
    kills are pairwise different, so that no [taskkill] command is run
    twice; they are the last columns of the lines that are not empty,
    not the text [0], and from which [parseInt] reads a number. That is
    all the test asks: a text that only starts with a digit is kept. *)
Theorem netstat_pids_distinct_and_accepted (stdout : str) :
  NoDup (netstat_pids stdout) /\
  (forall pid,
     pid ∈ netstat_pids stdout <->
     exists line,
       line ∈ split_on LF (trim stdout) /\ pid = pid_of_line line /\
       pid <> [] /\ pid <> js "0" /\ parseInt_isNaN pid = false) /\
  NoDup ((fun pid => Exec (taskkill_command pid)) <$> netstat_pids stdout) /\
  netstat_pids (js "  TCP  0.0.0.0:5678  0.0.0.0:0  LISTENING  12abc")
  = [js "12abc"].
Proof.
  destruct (collect_invariant (split_on LF (trim stdout)) []) as [Hn Ha];
    [constructor | constructor |].
  fold (netstat_pids stdout) in Hn, Ha. split_and!.
  - done.
  - intros pid. unfold netstat_pids. rewrite collect_members. split.
    + intros [?%elem_of_nil | (line & Hl & -> & Hacc)]; [done |].
      exists line. apply pid_accepted_spec in Hacc as (? & ? & ?). by split_and!.
    + intros (line & Hl & -> & H). right. exists line.
      split_and!; [done | done |]. by apply pid_accepted_spec.
  - apply NoDup_fmap_2; [| done].
    intros p1 p2 [= H]. done.
  - vm_compute. reflexivity.
Qed.

Lemma after_kills_cons (w : W) (pid : str) (pids : list str) :
  after_kills execPromise w (pid :: pids)
  = after_kills execPromise (fst (execPromise w (kill_command pid))) pids.
Proof. done. Qed.

(** How the loop over the candidates of [lsof] ends: after all of them,
    when every kill succeeds, or at the first one that fails. *)
Lemma for_of_kill_posix_outcome (pids : list str) (w : W) (tr : list action) :
  let cands := filter (fun pid => truthy pid = true) pids in
  exists r w' kills,
    for_of pids kill_posix (w, tr) = (r, (w', tr ++ kills)) /\
    (r = Returns tt /\
     kills = ((fun pid => Exec (kill_command pid)) <$> cands) /\
     w' = after_kills execPromise w cands /\
     (forall k, k < length cands -> kill_succeeds execPromise w cands k) \/
     exists e k,
       r = Throws e /\
       kill_fails execPromise w cands k /\
       kills = ((fun pid => Exec (kill_command pid)) <$> take (S k) cands) /\
       (forall j, j < k -> kill_succeeds execPromise w cands j)).
Proof.
  revert w tr. induction pids as [|pid pids IH]; intros w tr cands.
  - exists (Returns tt), w, []. rewrite app_nil_r. split; [done |]. left.
    split_and!; try done. cbn. lia.
  - subst cands. rewrite filter_cons. cbn [for_of]. unfold bind at 1.
    unfold PortReaper.kill_posix at 1. destruct (truthy pid) eqn:Et.
    + rewrite decide_True by done.
      unfold bind at 1.
      destruct (exec_trace execPromise (kill_command pid) w tr) as (r & -> & ->).
      destruct (snd (execPromise w (kill_command pid))) as [stdout|e] eqn:Ek.
      * cbn [ret]. destruct (IH (fst (execPromise w (kill_command pid)))
                      (tr ++ [Exec (kill_command pid)]))
          as (r & w' & kills & -> & Hk).
        exists r, w', (Exec (kill_command pid) :: kills).
        rewrite <- app_assoc. split; [done |].
        assert (kill_succeeds execPromise w
                  (pid :: filter (fun pid => truthy pid = true) pids) 0) as H0.
        { exists pid, stdout. split; [done |]. exact Ek. }
        assert (forall j,
                  kill_succeeds execPromise (fst (execPromise w (kill_command pid)))
                    (filter (fun pid => truthy pid = true) pids) j ->
                  kill_succeeds execPromise w
                    (pid :: filter (fun pid => truthy pid = true) pids) (S j)) as HS.
        { intros j (p & out & Hp & Hout). exists p, out. split; [done |].
          cbn [take]. by rewrite after_kills_cons. }
        destruct Hk as [(-> & -> & -> & Hall) | (e & k & -> & Hf & -> & Hbefore)].
        -- left. split_and!; try done.
           intros [|k] Hlt; [exact H0 |]. apply HS, Hall. cbn in Hlt. lia.
        -- right. exists e, (S k). split_and!; [done | | done |].
           ++ destruct Hf as (p & m & Hp & Hm). exists p, m. split; [exact Hp |].
              cbn [take]. by rewrite after_kills_cons.
           ++ intros [|j] Hlt; [exact H0 |]. apply HS, Hbefore. lia.
      * exists (Throws e), (fst (execPromise w (kill_command pid))),
          [Exec (kill_command pid)].
        split; [done |]. right. exists e, 0.
        split_and!; try done.
        -- exists pid, e. split; [done |]. exact Ek.
        -- intros j Hj. lia.
    + rewrite decide_False by done.
      unfold ret at 1. apply IH.
Qed.

(** X9. On the other platforms, once [lsof] has printed something, the
    candidates are killed in the order of its lines, empty lines apart.
    When every [kill -9] succeeds, all of them are killed and the settle
    delay follows; otherwise the loop stops at the first kill that
    fails, after the ones before it have succeeded, and neither the
    candidates after it nor the delay follow. The call returns in both
    cases. *)
Theorem reclaim_posix_stops_at_failure (port : N) (w : W) (stdout : str) :
  snd (execPromise w (lsof_command port)) = resolved stdout ->
  truthy stdout = true ->
  let w0 := fst (execPromise w (lsof_command port)) in
  let cands := filter (fun pid => truthy pid = true) (lsof_pids stdout) in
  exists w' kills,
    reclaim posix port w
      = (Returns tt, (w', Exec (lsof_command port) :: kills)) /\
    ((forall k, k < length cands -> kill_succeeds execPromise w0 cands k) /\
     kills = ((fun pid => Exec (kill_command pid)) <$> cands) ++ [Sleep 500] /\
     w' = after_kills execPromise w0 cands \/
     exists k,
       kill_fails execPromise w0 cands k /\
       (forall j, j < k -> kill_succeeds execPromise w0 cands j) /\
       kills = (fun pid => Exec (kill_command pid)) <$> take (S k) cands).
Proof.
  intros Hout Ht w0 cands.
  unfold PortReaper.reclaim, killProcessOnPort, try_catch.
  unfold bind at 1.
  destruct (exec_trace execPromise (lsof_command port) w []) as (r & -> & ->).
  rewrite Hout, Ht. unfold bind at 1.
  destruct (for_of_kill_posix_outcome (lsof_pids stdout)
              (fst (execPromise w (lsof_command port)))
              ([] ++ [Exec (lsof_command port)]))
    as (r & w' & kills & -> & Hk).
  destruct Hk as [(-> & -> & -> & Hall) | (e & k & -> & Hf & -> & Hbefore)].
  - exists (after_kills execPromise w0 cands),
      (((fun pid => Exec (kill_command pid)) <$> cands) ++ [Sleep 500]).
    split; [done |]. left. by split_and!.
  - exists w', ((fun pid => Exec (kill_command pid)) <$> take (S k) cands).
    split; [done |]. right. by exists k.
Qed.

End ReaperMore.

Example checkConfigLoop_slow_worker :
  Readiness.trace
    (Readiness.checkConfigLoop Attempts.slow_worker (fun _ => None) negb
       Hotkey.sample_system true true (Readiness.mk_state 0 Hotkey.initial []))
  = [Readiness.Request (js "/config"); Readiness.Sleep 1000;
     Readiness.Request (js "/config"); Readiness.Sleep 1000;
     Readiness.Request (js "/config"); Readiness.Request (js "/config/check");
     Readiness.ShowConfigPage; Readiness.HideInput].
Proof. vm_compute. reflexivity. Qed.

(** ** The global shortcut over sequences of calls *)

Section HotkeyMore.

Import Hotkey HotkeyOps.

Variable system : list N -> answer.

Local Abbreviation check_shortcut := (check_shortcut system).
Local Abbreviation handle := (handle system).
Local Abbreviation run := (run system).

Lemma check_shortcut_registry (shortcut : str) (st : main) :
  registry (snd (check_shortcut shortcut st)) = registry st /\
  currentGlobalShortcut (snd (check_shortcut shortcut st))
    = currentGlobalShortcut st.
Proof.
  unfold Hotkey.check_shortcut, gs_isRegistered, gs_register, gs_unregister,
    registry.
  cbn [held gs_calls].
  destruct (held (globalShortcut st) !! shortcut) as [cb|] eqn:E.
  - by rewrite bool_decide_eq_true_2 by eauto.
  - rewrite bool_decide_eq_false_2 by (by intros [? ?]).
    destruct (system shortcut); cbn; [| done | done].
    by rewrite delete_insert_id.
Qed.

(** X10. Whatever the system answers, the probe leaves the registry and
    the remembered accelerator as they were; it answers [true] exactly
    when this application does not hold the accelerator and the system
    grants it. *)
Theorem check_shortcut_frame (shortcut : str) (st : main) :
  registry (snd (check_shortcut shortcut st)) = registry st /\
  currentGlobalShortcut (snd (check_shortcut shortcut st))
    = currentGlobalShortcut st /\
  (fst (check_shortcut shortcut st) = true <->
   registry st !! shortcut = None /\ system shortcut = granted).
Proof.
  unfold Hotkey.check_shortcut, gs_isRegistered, gs_register, gs_unregister,
    registry.
  cbn [held gs_calls].
  destruct (held (globalShortcut st) !! shortcut) as [cb|] eqn:E.
  - rewrite bool_decide_eq_true_2 by eauto. cbn. split_and!; try done.
    split; [done | by intros [? _]].
  - rewrite bool_decide_eq_false_2 by (by intros [? ?]).
    destruct (system shortcut) eqn:Es; cbn.
    + rewrite delete_insert_id by done. split_and!; done.
    + split_and!; try done. split; [done | by intros [_ ?]].
    + split_and!; try done. split; [done | by intros [_ ?]].
Qed.

Lemma registerGlobalShortcut_consistent (shortcut : str) (st : main) :
  consistent (registerGlobalShortcut system shortcut st).
Proof.
  destruct (decide (system shortcut = granted)) as [H|H].
  - rewrite registerGlobalShortcut_granted by done. by right.
  - rewrite registerGlobalShortcut_failed by done. by left.
Qed.

Lemma handle_consistent (st : main) (c : handler_call) :
  consistent st -> consistent (handle st c).
Proof.
  intros Hst. destruct c as [s | o | | | s]; cbn [HotkeyOps.handle].
  - apply registerGlobalShortcut_consistent.
  - unfold save_config_shortcut. destruct o as [s|]; [| done].
    destruct (truthy s); [apply registerGlobalShortcut_consistent | done].
  - by left.
  - unfold resume_shortcut. destruct (truthy _); [| done].
    apply registerGlobalShortcut_consistent.
  - destruct (check_shortcut_registry s st) as (Hr & Hc).
    unfold consistent. by rewrite Hr, Hc.
Qed.

(** X11. After any sequence of registrations, saved configurations,
    suspensions, resumptions and probes, the application holds no
    accelerator at all or the remembered one alone, bound to
    [toggleMainWindow]; the callback of a probe is never left behind. *)
Theorem shortcut_registry_consistent (calls : list handler_call) :
  consistent (run initial calls) /\
  (forall accelerator cb,
     registry (run initial calls) !! accelerator = Some cb ->
     accelerator = currentGlobalShortcut (run initial calls) /\
     cb = toggleMainWindow).
Proof.
  assert (consistent (run initial calls)) as H.
  { assert (consistent initial) as H0 by (by left).
    revert H0. generalize initial.
    induction calls as [|c calls IH]; intros st Hst; [done |].
    apply IH. by apply handle_consistent. }
  split; [done |]. intros accelerator cb Hl.
  destruct H as [H | H]; rewrite H in Hl.
  - by rewrite lookup_empty in Hl.
  - apply lookup_singleton_Some in Hl as [<- <-]. done.
Qed.

Lemma run_checks_frame (probes : list str) (st : main) :
  registry (run st (check <$> probes)) = registry st /\
  currentGlobalShortcut (run st (check <$> probes)) = currentGlobalShortcut st.
Proof.
  revert st. induction probes as [|s probes IH]; intros st; [done |].
  cbn [fmap list_fmap]. unfold HotkeyOps.run in *. cbn [fold_left HotkeyOps.handle].
  destruct (IH (snd (check_shortcut s st))) as [-> ->].
  by destruct (check_shortcut_registry s st) as (-> & ->).
Qed.

(** X12. Capturing a shortcut in the settings: from the focus of the
    field to its blur the application holds no accelerator, whatever is
    probed in between, and the blur brings back the binding that was
    active, when the system still grants it. *)
Theorem capture_suspends_and_restores (probes : list str) (st : main) :
  registry st = {[ currentGlobalShortcut st := toggleMainWindow ]} ->
  truthy (currentGlobalShortcut st) = true ->
  system (currentGlobalShortcut st) = granted ->
  registry (run st (suspend :: (check <$> probes))) = ∅ /\
  registry (run st (suspend :: (check <$> probes) ++ [resume])) = registry st /\
  currentGlobalShortcut (run st (suspend :: (check <$> probes) ++ [resume]))
    = currentGlobalShortcut st.
Proof.
  intros Hreg Ht Hg.
  change (run st (suspend :: ?l)) with (run (suspend_shortcut st) l).
  destruct (run_checks_frame probes (suspend_shortcut st)) as [Hr Hc].
  split; [by rewrite Hr |].
  unfold HotkeyOps.run. rewrite fold_left_app. fold (run (suspend_shortcut st) (check <$> probes)).
  cbn [fold_left HotkeyOps.handle]. unfold resume_shortcut.
  rewrite Hc. cbn [suspend_shortcut currentGlobalShortcut]. rewrite Ht.
  rewrite registerGlobalShortcut_granted by done. by rewrite Hreg.
Qed.

End HotkeyMore.

(** ** The channel bridges: repeated subscriptions and reloading *)

Section PreloadMore.

Import Preload PreloadReload.

Context {P : Type}.

Lemma step_subscribe (p : preload) (m : method) (cb : handler) :
  bridged p ->
  subscribers (step p (call_subscribe m cb)) m = set_add cb (subscribers p m).
Proof.
  intros Hp. cbn [step api_subscribe subscribe fst].
  rewrite subscribers_alter by done. by rewrite bool_decide_eq_true_2.
Qed.

Lemma step_unsubscribe (p : preload) (m : method) (cb : handler) :
  bridged p ->
  subscribers (step p (call_unsubscribe m cb)) m = set_delete cb (subscribers p m).
Proof.
  intros Hp. cbn [step call_returned]. unfold unsubscribe.
  rewrite subscribers_alter by done. by rewrite bool_decide_eq_true_2.
Qed.

Lemma set_delete_set_add (cb : handler) (l : list handler) :
  set_delete cb (set_add cb l) = set_delete cb l.
Proof.
  unfold set_add, set_delete. case_bool_decide; [done |].
  rewrite filter_app, filter_cons_False, filter_nil, app_nil_r by (by intros ?).
  done.
Qed.

Lemma run_subscribe_delete (p : preload) (m : method) (cb : handler) (n : nat) :
  bridged p ->
  set_delete cb (subscribers (run p (replicate n (call_subscribe m cb))) m)
  = set_delete cb (subscribers p m).
Proof.
  revert p. induction n as [|n IH]; intros p Hp; [done |].
  cbn [replicate]. rewrite run_cons, IH by by apply step_bridged.
  by rewrite step_subscribe, set_delete_set_add.
Qed.

(** X13. However many times a callback was subscribed to a channel, one
    call of an unsubscribe function for it ends its delivery: the
    subscribers are the ones from before, without the callback and in
    their order, so a callback that was not subscribed before leaves the
    subscribers as they were. *)
Theorem one_unsubscribe_ends_delivery (r : renderer) (calls : list api_call)
    (m : method) (cb : handler) (n : nat) (payload : P) :
  let p := run (load r) calls in
  let q := step (run p (replicate n (call_subscribe m cb))) (call_unsubscribe m cb) in
  subscribers q m = filter (fun x => x <> cb) (subscribers p m) /\
  ((cb, payload) ∉ emit (ipc q) (channel_of m) payload) /\
  (cb ∉ subscribers p m -> subscribers q m = subscribers p m).
Proof.
  intros p q.
  assert (Hp : bridged p) by apply run_bridged, load_bridged.
  assert (Hq : subscribers q m = filter (fun x => x <> cb) (subscribers p m)).
  { unfold q. rewrite step_unsubscribe by by apply run_bridged.
    by rewrite run_subscribe_delete. }
  split_and!.
  - done.
  - rewrite emit_bridged by by apply step_bridged, run_bridged.
    rewrite Hq. intros (x & [= <- ] & Hx%list_elem_of_filter)%list_elem_of_fmap.
    by destruct Hx.
  - intros Hcb. rewrite Hq. clear Hq. induction (subscribers p m) as [|x l IH]; [done |].
    apply not_elem_of_cons in Hcb as [Hx Hl].
    rewrite filter_cons_True by done. by rewrite IH.
Qed.

Lemma stale_step (p q : preload) (c : api_call) : stale p q -> stale p (step q c).
Proof.
  intros (Hl & Hs & Hlt).
  assert (forall m m', bridge_of q m' <> bridge_of (load (ipc p)) m) as Hne.
  { intros m m'. destruct (load_spec (ipc p)) as (_ & Hb & _).
    rewrite Hb. specialize (Hlt m'). destruct m; lia. }
  destruct c as [m' cb | m' cb | cb]; cbn [step api_subscribe subscribe fst
    call_returned unsubscribe onNavigate]; unfold unsubscribe; split_and!;
    intros m; rewrite ?bridge_of_with_ipc; cbn [ipc with_ipc sets listeners];
    try done.
  - by rewrite list_lookup_alter_ne.
  - by rewrite list_lookup_alter_ne.
  - unfold ipc_on. cbn [listeners]. rewrite lookup_insert_ne; [done |].
    intros E. by apply (channel_of_not_navigate m).
Qed.

(** X14. Executing the module again, on a renderer that holds listeners
    and subscribers of an earlier execution, cuts the earlier subscribers
    off: a message on a bridged channel reaches no callback, and the
    subscription functions of the earlier execution no longer lead to a
    delivery, whatever is called through them. The listeners of
    [onNavigate] stay. *)
Theorem reload_cuts_subscribers_off (r : renderer) (calls stale_calls : list api_call)
    (m : method) (payload : P) :
  let p := run (load r) calls in
  let p' := load (ipc p) in
  emit (ipc p') (channel_of m) payload = [] /\
  emit (ipc (run (with_ipc p (ipc p')) stale_calls)) (channel_of m) payload = [] /\
  listeners_of (ipc p') (js "navigate-route")
    = listeners_of (ipc p) (js "navigate-route").
Proof.
  intros p p'.
  assert (Hp : bridged p) by apply run_bridged, load_bridged.
  split_and!.
  - unfold p'. rewrite emit_bridged by apply load_bridged.
    by rewrite subscribers_load.
  - assert (stale p (with_ipc p (ipc p'))) as H0.
    { pose proof (load_bridged (ipc p)) as (Hl & _).
      split_and!; intros m0; rewrite ?bridge_of_with_ipc.
      - apply Hl.
      - pose proof (subscribers_load (ipc p) m0) as Hs. unfold subscribers in Hs.
        pose proof (load_bridged (ipc p)) as (_ & Hlt & _).
        destruct (lookup_lt_is_Some_2 _ _ (Hlt m0)) as [s Es].
        fold p' in Es, Hs. cbn [ipc with_ipc]. fold p'.
        rewrite Es in Hs |- *. cbn in Hs. by subst s.
      - by destruct Hp as (_ & Hlt & _). }
    assert (stale p (run (with_ipc p (ipc p')) stale_calls)) as (Hl & Hs & _).
    { revert H0. generalize (with_ipc p (ipc p')).
      induction stale_calls as [|c cs IH]; intros q Hq; [done |].
      apply IH. by apply stale_step. }
    unfold emit, listeners_of. rewrite Hl. cbn. by rewrite Hs.
  - destruct (load_spec (ipc p)) as (_ & _ & _ & Hn). unfold listeners_of.
    rewrite Hn; [done |]. intros m0 E. by apply (channel_of_not_navigate m0).
Qed.

End PreloadMore.

(** ** The chat view: what a stream does to the messages *)

Section ChatViewMore.

Import ChatView ChatBlocks.

Ltac tags :=
  repeat match goal with
         | |- context [bool_decide (js ?a = js ?b)] =>
             let v := eval vm_compute in (bool_decide (js a = js b)) in
             change (bool_decide (js a = js b)) with v
         end.

Lemma last_touched_refl (bs : list ChatBlock) : last_touched bs bs.
Proof. split; [done | lia]. Qed.

Lemma last_touched_push (bs : list ChatBlock) (x : ChatBlock) :
  last_touched bs (bs ++ [x]).
Proof.
  split; [| rewrite length_app; simpl; lia].
  rewrite take_app_le by lia. done.
Qed.

Lemma last_touched_set_last (bs bs' : list ChatBlock) (x : ChatBlock) :
  last_touched bs bs' -> bs' <> [] -> last_touched bs (set_last bs' x).
Proof.
  intros [Ht Hl] Hne. assert (0 < length bs') by (destruct bs'; [done | simpl; lia]).
  unfold set_last. split.
  - rewrite take_app_le by (rewrite length_take; lia).
    rewrite take_take, Nat.min_l by lia. done.
  - rewrite length_app, length_take. simpl. lia.
Qed.

Lemma last_Some_ne {A} (l : list A) (x : A) : last l = Some x -> l <> [].
Proof. by intros H ->. Qed.

Lemma getLastToolExecution_ne (bs : list ChatBlock) (t : tool) :
  getLastToolExecution bs = Some t -> bs <> [].
Proof. unfold getLastToolExecution. by intros H ->. Qed.

Lemma append_text_touched (bs : list ChatBlock) (x : value) :
  last_touched bs (append_text bs x).
Proof.
  unfold append_text. destruct (last bs) as [[c | c | t]|] eqn:E;
    try apply last_touched_push.
  apply last_touched_set_last; [apply last_touched_refl | by eapply last_Some_ne].
Qed.

Lemma append_thinking_touched (bs : list ChatBlock) (x : value) :
  last_touched bs (append_thinking bs x).
Proof.
  unfold append_thinking. destruct (last bs) as [[c | c | t]|] eqn:E;
    try apply last_touched_push.
  apply last_touched_set_last; [apply last_touched_refl | by eapply last_Some_ne].
Qed.

Lemma open_tool_touched (bs : list ChatBlock) (data : StreamData) :
  last_touched bs (open_tool bs data).
Proof.
  unfold open_tool. destruct (truthy_opt (data_name data)); [| apply last_touched_refl].
  destruct (getLastToolExecution bs) as [t|] eqn:E; [| apply last_touched_push].
  destruct (negb _ || _); [apply last_touched_push |].
  destruct (negb _); [| apply last_touched_refl].
  apply last_touched_set_last; [apply last_touched_refl |].
  by eapply getLastToolExecution_ne.
Qed.

Lemma append_arguments_touched (bs bs' : list ChatBlock) (data : StreamData) :
  last_touched bs bs' -> last_touched bs (append_arguments bs' data).
Proof.
  intros H. unfold append_arguments.
  destruct (data_arguments data) as [newArgs|]; [| done].
  destruct (getLastToolExecution bs') as [t|] eqn:E; [| done].
  destruct (truthy newArgs && bool_decide _); [| done].
  destruct (truthy newArgs && endsWith _ _); [done |].
  apply last_touched_set_last; [done | by eapply getLastToolExecution_ne].
Qed.

(** X15. An event of the stream rewrites the last block of the message
    or adds one block after it: the blocks before the last one stay as
    they are, and no block is ever removed. *)
Theorem event_touches_last_block_only (m : Message) (data : StreamData) :
  take (length (blocks m) - 1) (blocks (apply_event m data))
    = take (length (blocks m) - 1) (blocks m) /\
  length (blocks m) <= length (blocks (apply_event m data))
    <= length (blocks m) + 1.
Proof.
  change (last_touched (blocks m) (blocks (apply_event m data))).
  unfold apply_event.
  repeat match goal with
         | |- context [if is_type data ?tag then _ else _] =>
             destruct (is_type data tag)
         end; cbn [blocks with_blocks add_log]; try apply last_touched_refl.
  - apply append_text_touched.
  - destruct (negb _ || negb _); cbn [blocks]; [| apply last_touched_refl].
    destruct (length (blocks m) =? 0);
      [apply last_touched_push | apply append_text_touched].
  - apply append_thinking_touched.
  - destruct (getLastToolExecution (blocks m)) as [t|] eqn:E;
      [| apply last_touched_push].
    destruct (bool_decide _ && _); [| apply last_touched_push].
    apply last_touched_set_last; [apply last_touched_refl |].
    by eapply getLastToolExecution_ne.
  - apply append_arguments_touched, open_tool_touched.
  - destruct (getLastToolExecution (blocks m)) as [t|] eqn:E;
      [| apply last_touched_push].
    apply last_touched_set_last; [apply last_touched_refl |].
    by eapply getLastToolExecution_ne.
  - apply last_touched_push.
Qed.

Lemma apply_event_role (m : Message) (data : StreamData) :
  msg_role (apply_event m data) = msg_role m.
Proof.
  unfold apply_event.
  repeat match goal with
         | |- context [if is_type data ?tag then _ else _] =>
             destruct (is_type data tag)
         end; cbn [msg_role with_blocks add_log]; try done.
  by destruct (negb _ || negb _).
Qed.

Lemma fold_apply_event_role (events : list StreamData) (m : Message) :
  msg_role (fold_left apply_event events m) = msg_role m.
Proof.
  revert m. induction events as [|d events IH]; intros m; [done |].
  cbn [fold_left]. by rewrite IH, apply_event_role.
Qed.

Lemma run_stream_assistant (events : list (option StreamData)) (v : view)
    (ms : list Message) (m : Message) :
  messages v = ms ++ [m] ->
  msg_role m = assistant ->
  messages (run_stream events v)
  = ms ++ [fold_left apply_event (omap id events) m].
Proof.
  revert v m. induction events as [|e events IH]; intros v m Hv Hr; [done |].
  unfold run_stream. cbn [fold_left]. fold (run_stream events (onBotStream e v)).
  destruct e as [d|]; cbn [omap option_bind id fold_left onBotStream].
  - erewrite IH; [done | | by rewrite apply_event_role].
    destruct (if is_type d "content" || is_type d "answer" then _ else _).
    cbn [messages]. rewrite Hv. by apply update_messages_assistant.
  - by apply IH.
Qed.

(** X16. After the user's message has arrived, every event of the stream
    goes into one assistant message, made on the first event and placed
    after the user's message: the earlier messages and the user's message
    stay as they are, and the assistant message is the empty one with the
    events applied in their order. *)
Theorem stream_builds_one_assistant_message (txt : str) (d : StreamData)
    (events : list (option StreamData)) (v : view) :
  truthy txt = true ->
  messages (run_stream (Some d :: events) (onNewMessage txt v))
  = messages v
    ++ [mk_message user txt [] None;
        fold_left apply_event (d :: omap id events)
          (mk_message assistant [] [] (Some []))].
Proof.
  intros Ht. unfold onNewMessage. rewrite Ht.
  unfold run_stream. cbn [fold_left].
  match goal with
  | |- messages (fold_left _ _ ?v0) = _ => fold (run_stream events v0)
  end.
  erewrite (run_stream_assistant events _
              (messages v ++ [mk_message user txt [] None])
              (apply_event (mk_message assistant [] [] (Some [])) d)).
  - by rewrite <- app_assoc.
  - cbn [onBotStream].
    destruct (if is_type d "content" || is_type d "answer" then _ else _).
    cbn [messages]. rewrite update_messages_user by done. by rewrite <- app_assoc.
  - by rewrite apply_event_role.
Qed.

Lemma session_run_snoc (s : session) (events : list ui_event) (e : ui_event) :
  session_run s (events ++ [e]) = session_step (session_run s events) e.
Proof. unfold session_run. by rewrite fold_left_app. Qed.

Lemma handleSubmit_waits (v : view) (input0 : str) :
  snd (handleSubmit v) = Some input0 ->
  isResponding v = false /\ input v = input0 /\ truthy (trim input0) = true.
Proof.
  unfold handleSubmit. destruct (isResponding v); [done |].
  destruct (truthy (trim (input v))) eqn:E; [| done].
  cbn. by intros [= <-].
Qed.

Lemma handleSubmit_effects (v : view) txt :
  submitInput txt ∉ fst (handleSubmit v).
Proof.
  unfold handleSubmit.
  destruct (isResponding v); [| destruct (negb _)]; cbn;
    by intros [?|?%elem_of_nil]%elem_of_cons.
Qed.

(** The handlers that wait have passed the two tests of [handleSubmit],
    and the calls made come from handlers that had, and were answered. *)
Lemma session_submissions (s0 : session) (events : list ui_event) :
  waiting s0 = [] -> (forall txt, submitInput txt ∉ done_so_far s0) ->
  (forall input0,
     input0 ∈ waiting (session_run s0 events) ->
     exists before after,
       events = before ++ submit :: after /\
       isResponding (shown (session_run s0 before)) = false /\
       input (shown (session_run s0 before)) = input0 /\
       truthy (trim input0) = true) /\
  (forall txt,
     submitInput txt ∈ done_so_far (session_run s0 events) ->
     exists before after k,
       events = before ++ submit :: after /\
       isResponding (shown (session_run s0 before)) = false /\
       input (shown (session_run s0 before)) = txt /\
       truthy (trim txt) = true /\
       check_answered k configured ∈ after).
Proof.
  intros Hw0 Hd0.
  induction events as [|e events [IHw IHd]] using rev_ind.
  { split; intros x Hx; cbn in Hx.
    - rewrite Hw0 in Hx. by apply elem_of_nil in Hx.
    - by destruct (Hd0 x). }
  rewrite session_run_snoc.
  set (s := session_run s0 events) in *.
  assert (forall input0,
            (exists before after,
               events = before ++ submit :: after /\
               isResponding (shown (session_run s0 before)) = false /\
               input (shown (session_run s0 before)) = input0 /\
               truthy (trim input0) = true) ->
            exists before after,
              events ++ [e] = before ++ submit :: after /\
              isResponding (shown (session_run s0 before)) = false /\
              input (shown (session_run s0 before)) = input0 /\
              truthy (trim input0) = true) as Hw'.
  { intros i (before & after & -> & H).
    exists before, (after ++ [e]). by rewrite <- app_assoc. }
  assert (forall txt,
            (exists before after k,
               events = before ++ submit :: after /\
               isResponding (shown (session_run s0 before)) = false /\
               input (shown (session_run s0 before)) = txt /\
               truthy (trim txt) = true /\
               check_answered k configured ∈ after) ->
            exists before after k,
              events ++ [e] = before ++ submit :: after /\
              isResponding (shown (session_run s0 before)) = false /\
              input (shown (session_run s0 before)) = txt /\
              truthy (trim txt) = true /\
              check_answered k configured ∈ after) as Hd'.
  { intros txt (before & after & k & -> & H1 & H2 & H3 & H4).
    exists before, (after ++ [e]), k. rewrite <- app_assoc.
    split_and!; try done. apply elem_of_app. by left. }
  destruct e as [| k check | value | txt | payload]; cbn [session_step].
  - destruct (handleSubmit (shown s)) as [effects closure] eqn:E.
    cbn [waiting done_so_far]. split.
    + intros i [Hi | Hi]%elem_of_app; [by apply Hw', IHw |].
      destruct closure as [c|]; [| by apply elem_of_nil in Hi].
      apply list_elem_of_singleton in Hi as ->.
      exists events, []. split; [done |].
      apply handleSubmit_waits. fold s. by rewrite E.
    + intros txt [Ht | Ht]%elem_of_app; [by apply Hd', IHd |].
      destruct (handleSubmit_effects (shown s) txt). by rewrite E.
  - destruct (waiting s !! k) as [input0|] eqn:Ek; [| by split; eauto].
    destruct check; cbn [handleSubmit_resume waiting done_so_far].
    + split.
      * intros i Hi. apply Hw', IHw. by eapply list_elem_of_delete_inv.
      * intros txt [Ht | Ht]%elem_of_app; [by apply Hd', IHd |].
        apply list_elem_of_singleton in Ht as [= ->].
        destruct (IHw input0) as (before & after & -> & H1 & H2 & H3).
        { by eapply list_elem_of_lookup_2. }
        exists before, (after ++ [check_answered k configured]), k.
        rewrite <- app_assoc. split_and!; try done.
        apply elem_of_app. right. by apply list_elem_of_singleton.
    + split.
      * intros i Hi. apply Hw', IHw. by eapply list_elem_of_delete_inv.
      * intros txt [Ht | Ht]%elem_of_app; [by apply Hd', IHd |].
        by apply list_elem_of_singleton in Ht.
    + split.
      * intros i Hi. apply Hw', IHw. by eapply list_elem_of_delete_inv.
      * intros txt [Ht | Ht]%elem_of_app; [by apply Hd', IHd |].
        by apply list_elem_of_singleton in Ht.
  - split; eauto.
  - split; eauto.
  - split; eauto.
Qed.

(** X17. Every call of [submitInput] by the chat view comes from a
    submit event that came while no response was under way and the input
    was not blank, and whose configuration check answered that the
    application is configured; it carries the input as it was typed at
    that event. The other way round, such a submit event whose check is
    answered so calls [submitInput] with that input, empties the field
    and marks the view as responding, whatever has come in between. *)
Theorem submitInput_after_idle_submit (events : list ui_event) :
  (forall txt,
     submitInput txt ∈ done_so_far (session_run mounted events) ->
     exists before after k,
       events = before ++ submit :: after /\
       isResponding (shown (session_run mounted before)) = false /\
       input (shown (session_run mounted before)) = txt /\
       truthy (trim txt) = true /\
       check_answered k configured ∈ after) /\
  (isResponding (shown (session_run mounted events)) = false ->
   truthy (trim (input (shown (session_run mounted events)))) = true ->
   forall between k,
     waiting (session_run mounted (events ++ submit :: between)) !! k
     = Some (input (shown (session_run mounted events))) ->
     let s := session_run mounted
                (events ++ submit :: between ++ [check_answered k configured]) in
     submitInput (input (shown (session_run mounted events))) ∈ done_so_far s /\
     input (shown s) = [] /\
     isResponding (shown s) = true) /\
  (isResponding (shown (session_run mounted events)) = false ->
   truthy (trim (input (shown (session_run mounted events)))) = true ->
   input (shown (session_run mounted events))
   ∈ waiting (session_run mounted (events ++ [submit]))).
Proof.
  split_and!.
  - apply session_submissions; [done |]. intros txt H. by apply elem_of_nil in H.
  - intros Hr Hi between k Hk s. unfold s.
    replace (events ++ submit :: between ++ [check_answered k configured])
      with ((events ++ submit :: between) ++ [check_answered k configured])
      by (by rewrite <- app_assoc).
    rewrite session_run_snoc. cbn [session_step]. rewrite Hk.
    cbn [handleSubmit_resume shown done_so_far input isResponding].
    split_and!; try done. apply elem_of_app. right. by apply list_elem_of_singleton.
  - intros Hr Hi. rewrite session_run_snoc. cbn [session_step].
    unfold handleSubmit. rewrite Hr, Hi. cbn [negb waiting option_list].
    apply elem_of_app. right. by apply list_elem_of_singleton.
Qed.

Lemma set_last_set_last {A} (l : list A) (x y : A) :
  l <> [] -> set_last (set_last l x) y = set_last l y.
Proof.
  intros Hne. destruct (exists_last Hne) as (l' & z & ->).
  by rewrite !set_last_snoc.
Qed.

Lemma js_plus_assoc (c : value) (x y : str) :
  js_plus (js_plus c (Str x)) (Str y) = js_plus c (Str (x ++ y)).
Proof. destruct c; cbn; by rewrite <- ?app_assoc. Qed.

Lemma append_text_app (bs : list ChatBlock) (x y : str) :
  append_text (append_text bs (Str x)) (Str y) = append_text bs (Str (x ++ y)).
Proof.
  unfold append_text at 2 3.
  destruct (last bs) as [b|] eqn:E.
  - apply last_Some in E as [bs' ->].
    destruct b; rewrite ?set_last_snoc; unfold append_text;
      rewrite last_snoc, set_last_snoc; by rewrite ?js_plus_assoc.
  - apply last_None in E as ->. done.
Qed.

Lemma append_thinking_app (bs : list ChatBlock) (x y : str) :
  append_thinking (append_thinking bs (Str x)) (Str y)
  = append_thinking bs (Str (x ++ y)).
Proof.
  unfold append_thinking at 2 3.
  destruct (last bs) as [b|] eqn:E.
  - apply last_Some in E as [bs' ->].
    destruct b; rewrite ?set_last_snoc; unfold append_thinking;
      rewrite last_snoc, set_last_snoc; by rewrite ?js_plus_assoc.
  - apply last_None in E as ->. done.
Qed.

(** X18. How the stream cuts a text into [content] events, or a
    reasoning into [thinking] events, does not show in the message: two
    events in a row that carry a text each leave the message that one
    event with the two texts joined leaves, whatever the last block held
    before. *)
Theorem text_chunks_compose (tag : string) (m : Message) (d1 d2 d : StreamData)
    (x y : str) :
  tag = "content"%string \/ tag = "thinking"%string ->
  is_type d1 tag = true ->
  is_type d2 tag = true ->
  is_type d tag = true ->
  data_content d1 = Some x ->
  data_content d2 = Some y ->
  data_content d = Some (x ++ y) ->
  apply_event (apply_event m d1) d2 = apply_event m d.
Proof.
  intros Htag H1%is_type_eq H2%is_type_eq H%is_type_eq Hx Hy Hd.
  unfold apply_event, is_type, str_eqb. rewrite H1, H2, H, Hx, Hy, Hd.
  destruct Htag as [-> | ->]; tags; cbv iota;
    cbn [msg_role content blocks logs with_blocks of_content to_text default].
  - by rewrite append_text_app, <- app_assoc.
  - by rewrite append_thinking_app.
Qed.

(** A chunk for the running record of the tool [n] keeps it the last
    block, running, under its name and without a result. *)
Lemma chunk_keeps_record (m : Message) (pre : list ChatBlock) (t : tool)
    (n : str) (d : StreamData) :
  blocks m = pre ++ [tool_execution t] ->
  name t = Some n -> tool_status t = running -> result t = None ->
  truthy n = true ->
  is_type d "tool_call_chunk" = true ->
  truthy_opt (data_name d) = false \/ data_name d = Some n ->
  exists t',
    blocks (apply_event m d) = pre ++ [tool_execution t'] /\
    name t' = Some n /\ tool_status t' = running /\ result t' = None.
Proof.
  intros Hb Hn Hs Hr Ht Hd%is_type_eq Hname.
  unfold apply_event, is_type, str_eqb. rewrite Hd. tags. cbv iota.
  cbn [blocks with_blocks]. rewrite Hb.
  assert (open_tool (pre ++ [tool_execution t]) d = pre ++ [tool_execution t]) as ->.
  { unfold open_tool. destruct Hname as [-> | Hname]; [done |].
    rewrite Hname. cbn [truthy_opt]. rewrite Ht, getLastToolExecution_snoc.
    rewrite Hs, Hn. unfold same_name. cbn [truthy_opt]. rewrite Ht.
    by rewrite !bool_decide_eq_true_2. }
  unfold append_arguments. rewrite getLastToolExecution_snoc.
  destruct (data_arguments d) as [newArgs|]; [| by exists t].
  destruct (truthy newArgs && bool_decide _); [| by exists t].
  destruct (truthy newArgs && endsWith _ _); [by exists t |].
  rewrite set_last_snoc. eexists. split; [done |]. done.
Qed.

Lemma chunks_keep_record (chunks : list StreamData) (m : Message)
    (pre : list ChatBlock) (t : tool) (n : str) :
  blocks m = pre ++ [tool_execution t] ->
  name t = Some n -> tool_status t = running -> result t = None ->
  truthy n = true ->
  Forall (fun d => is_type d "tool_call_chunk" = true /\
                   (truthy_opt (data_name d) = false \/ data_name d = Some n))
         chunks ->
  exists t',
    blocks (fold_left apply_event chunks m) = pre ++ [tool_execution t'] /\
    name t' = Some n /\ tool_status t' = running /\ result t' = None.
Proof.
  revert m t. induction chunks as [|d chunks IH]; intros m t Hb Hn Hs Hr Ht Hc.
  - by exists t.
  - apply Forall_cons in Hc as [[Hd Hname] Hc]. cbn [fold_left].
    destruct (chunk_keeps_record m pre t n d) as (t' & Hb' & Hn' & Hs' & Hr');
      try done.
    by apply (IH _ t').
Qed.

(** X19. The events of one tool use make one block. When the last block
    is not a running tool record, a named [tool_call_chunk], any further
    chunks without a name or under that name, the [tool_call] of that
    name and the [tool_result] leave one block more than before: a
    record under the name, finished, with the arguments of the
    [tool_call] and the result. *)
Theorem tool_events_make_one_block (m : Message) (n : str)
    (first call res : StreamData) (chunks : list StreamData) :
  (forall t, getLastToolExecution (blocks m) = Some t -> tool_status t <> running) ->
  truthy n = true ->
  is_type first "tool_call_chunk" = true ->
  data_name first = Some n ->
  Forall (fun d => is_type d "tool_call_chunk" = true /\
                   (truthy_opt (data_name d) = false \/ data_name d = Some n))
         chunks ->
  is_type call "tool_call" = true ->
  data_tool_name call = Some n ->
  is_type res "tool_result" = true ->
  exists l,
    blocks (fold_left apply_event (first :: chunks ++ [call; res]) m)
    = blocks m
      ++ [tool_execution
            (mk_tool (Some n) (data_args call) (Some (or_empty (data_result res)))
               success l)].
Proof.
  intros Hlast Ht Hf Hfn Hc Hcall Hcn Hres.
  assert (exists t0,
            blocks (apply_event m first) = blocks m ++ [tool_execution t0] /\
            name t0 = Some n /\ tool_status t0 = running /\ result t0 = None)
    as (t0 & Hb0 & Hn0 & Hs0 & Hr0).
  { apply is_type_eq in Hf. unfold apply_event, is_type, str_eqb.
    rewrite Hf. tags. cbv iota. cbn [blocks with_blocks].
    assert (open_tool (blocks m) first
            = blocks m ++ [tool_execution (mk_tool (Some n) [] None running (Some 0))])
      as ->.
    { unfold open_tool. rewrite Hfn. cbn [truthy_opt]. rewrite Ht.
      destruct (getLastToolExecution (blocks m)) as [t|] eqn:E; [| done].
      rewrite bool_decide_eq_false_2 by by apply Hlast. done. }
    unfold append_arguments. rewrite getLastToolExecution_snoc.
    destruct (data_arguments first) as [newArgs|]; [| by eexists].
    destruct (truthy newArgs && bool_decide _); [| by eexists].
    destruct (truthy newArgs && endsWith _ _); [by eexists |].
    rewrite set_last_snoc. by eexists. }
  cbn [fold_left]. rewrite fold_left_app.
  destruct (chunks_keep_record chunks (apply_event m first) (blocks m) t0 n)
    as (t1 & Hb1 & Hn1 & Hs1 & Hr1); try done.
  set (m1 := fold_left apply_event chunks (apply_event m first)) in *.
  cbn [fold_left].
  apply is_type_eq in Hcall, Hres.
  exists (lastChunkLength t1).
  unfold apply_event at 1, is_type, str_eqb. rewrite Hres. tags. cbv iota.
  cbn [blocks with_blocks add_log].
  unfold apply_event, is_type, str_eqb. rewrite Hcall. tags. cbv iota.
  cbn [blocks with_blocks add_log].
  rewrite Hb1, getLastToolExecution_snoc, Hs1, Hn1, Hcn. unfold same_name.
  rewrite !bool_decide_eq_true_2 by done. cbn [andb].
  rewrite set_last_snoc, getLastToolExecution_snoc, set_last_snoc.
  cbn [name args result lastChunkLength]. done.
Qed.

End ChatViewMore.

(** ** Ending the worker process *)

Section CleanupFacts.

Import Cleanup.

Context {W : Type}.
Variable platform : os.
Variable execSync : W -> str -> W * option str.
Variable process_kill : W -> N -> signal -> W * option str.

Local Abbreviation killPythonProcess := (killPythonProcess platform execSync process_kill).
Local Abbreviation on_hook := (on_hook platform execSync process_kill).
Local Abbreviation run_hooks := (run_hooks platform execSync process_kill).

(** What the worker is sent, by platform and by how the first attempt
    ends. *)
Lemma killPythonProcess_live (st : main) (pid : N) :
  live_pid st = Some pid ->
  exists w,
    killPythonProcess st
    = (Returns tt,
       mk_main w None
         (trace st ++
          match platform with
          | win32 =>
              ExecSync (graceful_command pid) 2000
              :: match snd (execSync (world st) (graceful_command pid)) with
                 | None => []
                 | Some _ => [ExecSync (forced_command pid) 5000]
                 end
          | _ =>
              Kill pid SIGTERM
              :: match snd (process_kill (world st) pid SIGTERM) with
                 | None => [SetTimeout 1000 pid]
                 | Some _ => []
                 end
          end)).
Proof.
  intros Hp. unfold Cleanup.killPythonProcess. rewrite Hp.
  unfold terminate, bind, try_catch, exec_sync, kill, record, clear_pyProc, ret.
  destruct platform.
  - destruct (execSync (world st) (graceful_command pid)) as [w [e|]] eqn:E1;
      cbn [snd world pyProc trace].
    + destruct (execSync w (forced_command pid)) as [w' [e'|]] eqn:E2;
        cbn [snd world pyProc trace]; exists w'; by rewrite <- app_assoc.
    + by exists w.
  - destruct (process_kill (world st) pid SIGTERM) as [w [e|]] eqn:E1;
      cbn [snd world pyProc trace]; exists w; [done | by rewrite <- app_assoc].
  - destruct (process_kill (world st) pid SIGTERM) as [w [e|]] eqn:E1;
      cbn [snd world pyProc trace]; exists w; [done | by rewrite <- app_assoc].
Qed.

Lemma killPythonProcess_idle (st : main) :
  live_pid st = None -> killPythonProcess st = (Returns tt, st).
Proof. intros Hp. unfold Cleanup.killPythonProcess. by rewrite Hp. Qed.

Lemma killPythonProcess_returns (st : main) :
  exists st', killPythonProcess st = (Returns tt, st') /\ live_pid st' = None.
Proof.
  destruct (live_pid st) as [pid|] eqn:Hp.
  - destruct (killPythonProcess_live st pid Hp) as [w ->]. by eexists.
  - exists st. by rewrite killPythonProcess_idle.
Qed.

(** X20. [killPythonProcess] returns whatever the commands and signals
    do, and leaves no worker to end: called again, it does nothing. With
    no worker, or a worker without a process id, it does nothing in the
    first place. *)
Theorem killPythonProcess_returns_and_clears (st : main) :
  exists st',
    killPythonProcess st = (Returns tt, st') /\
    live_pid st' = None /\
    killPythonProcess st' = (Returns tt, st') /\
    (live_pid st = None -> st' = st).
Proof.
  destruct (live_pid st) as [pid|] eqn:Hp.
  - destruct (killPythonProcess_live st pid Hp) as [w ->].
    eexists. split_and!; done.
  - exists st. rewrite killPythonProcess_idle by done. done.
Qed.

(** X21. With a worker, the forced [taskkill] of Windows is run exactly
    when the first one fails, and on the other platforms the timer of
    [SIGKILL] is set exactly when [SIGTERM] could be sent; nothing else
    is done, and the worker is forgotten in every case. *)
Theorem forced_kill_after_failed_attempt (st : main) (pid : N) :
  live_pid st = Some pid ->
  pyProc (snd (killPythonProcess st)) = None /\
  trace (snd (killPythonProcess st))
  = trace st ++
    match platform with
    | win32 =>
        ExecSync (graceful_command pid) 2000
        :: match snd (execSync (world st) (graceful_command pid)) with
           | None => []
           | Some _ => [ExecSync (forced_command pid) 5000]
           end
    | _ =>
        Kill pid SIGTERM
        :: match snd (process_kill (world st) pid SIGTERM) with
           | None => [SetTimeout 1000 pid]
           | Some _ => []
           end
    end.
Proof.
  intros Hp. by destruct (killPythonProcess_live st pid Hp) as [w ->].
Qed.

Lemma on_hook_spec (h : hook) (st : main) :
  exists st' quits,
    on_hook h st = (Returns tt, st') /\
    world st' = world (snd (killPythonProcess st)) /\
    pyProc st' = pyProc (snd (killPythonProcess st)) /\
    trace st' = trace (snd (killPythonProcess st)) ++ quits /\
    filter (fun a => on_worker a = true) quits = [].
Proof.
  destruct (killPythonProcess_returns st) as (st1 & E & _).
  assert (forall a, on_worker a = false ->
            exists st' quits,
              bind killPythonProcess (fun _ => record a) st = (Returns tt, st') /\
              world st' = world (snd (killPythonProcess st)) /\
              pyProc st' = pyProc (snd (killPythonProcess st)) /\
              trace st' = trace (snd (killPythonProcess st)) ++ quits /\
              filter (fun a => on_worker a = true) quits = []) as Hq.
  { intros a Ha. unfold bind, record. rewrite E. cbn [snd].
    eexists _, [a]. split_and!; try done.
    rewrite filter_cons_False by (by rewrite Ha). done. }
  assert (exists st' quits,
            killPythonProcess st = (Returns tt, st') /\
            world st' = world (snd (killPythonProcess st)) /\
            pyProc st' = pyProc (snd (killPythonProcess st)) /\
            trace st' = trace (snd (killPythonProcess st)) ++ quits /\
            filter (fun a => on_worker a = true) quits = []) as Hk.
  { rewrite E. exists st1, []. by rewrite app_nil_r. }
  destruct h; cbn [Cleanup.on_hook]; try done; try (by apply Hq).
  destruct platform; try (by apply Hq).
  unfold bind, ret. rewrite E. exists st1, []. by rewrite app_nil_r.
Qed.

Lemma run_hooks_idle (hooks : list hook) (st : main) :
  live_pid st = None ->
  exists st',
    run_hooks hooks st = (Returns tt, st') /\
    live_pid st' = None /\
    filter (fun a => on_worker a = true) (trace st')
    = filter (fun a => on_worker a = true) (trace st).
Proof.
  revert st. induction hooks as [|h hooks IH]; intros st Hp.
  - by exists st.
  - cbn [Cleanup.run_hooks]. unfold bind.
    destruct (on_hook_spec h st) as (st1 & quits & -> & Hw & Hpy & Ht & Hq).
    rewrite killPythonProcess_idle in Hw, Hpy, Ht by done. cbn [snd] in *.
    assert (live_pid st1 = None) as Hp1.
    { unfold live_pid in *. by rewrite Hpy. }
    destruct (IH st1 Hp1) as (st' & -> & Hl & Hf).
    exists st'. split_and!; try done.
    by rewrite Hf, Ht, filter_app, Hq, app_nil_r.
Qed.

(** X22. However many of the listeners of the application's end run, and
    in whatever order, they all return, and the worker is dealt with
    once, by the first of them: the commands, signals and timers are
    those of one call of [killPythonProcess]. *)
Theorem cleanup_hooks_end_worker_once (h : hook) (hooks : list hook) (st : main) :
  exists st',
    run_hooks (h :: hooks) st = (Returns tt, st') /\
    live_pid st' = None /\
    filter (fun a => on_worker a = true) (trace st')
    = filter (fun a => on_worker a = true) (trace (snd (killPythonProcess st))).
Proof.
  cbn [Cleanup.run_hooks]. unfold bind.
  destruct (on_hook_spec h st) as (st1 & quits & -> & Hw & Hpy & Ht & Hq).
  destruct (killPythonProcess_returns st) as (st2 & E & Hl).
  rewrite E in Hw, Hpy, Ht |- *. cbn [snd] in *.
  assert (live_pid st1 = None) as Hp1.
  { unfold live_pid in *. by rewrite Hpy. }
  destruct (run_hooks_idle hooks st1 Hp1) as (st' & -> & Hl' & Hf).
  exists st'. split_and!; try done.
  by rewrite Hf, Ht, filter_app, Hq, app_nil_r.
Qed.

End CleanupFacts.

(** ** The window the shortcut addresses *)

Section WindowsFacts.

Import Windows.

Variable created : window -> bool.
Variables isVisible isMinimized : window -> list call -> bool.

Local Abbreviation toggleMainWindow := (toggleMainWindow created isVisible isMinimized).
Local Abbreviation handle := (handle created isVisible isMinimized).
Local Abbreviation run := (run created isVisible isMinimized).

Lemma toggle_context (w : window) (st : main) :
  hasConversationContext (toggle created isVisible isMinimized w st)
  = hasConversationContext st.
Proof.
  unfold toggle. destruct (created w); [| done].
  destruct (isVisible w (calls st)); [done |].
  by destruct (isMinimized w (calls st)).
Qed.

Lemma to_chat_context (channel argument : str) (st : main) :
  hasConversationContext (to_chat created channel argument st)
  = hasConversationContext st.
Proof.
  unfold to_chat. by destruct (created inputWindow), (created chatWindow).
Qed.

Lemma toggle_calls (w : window) (st : main) :
  exists cs,
    calls (toggle created isVisible isMinimized w st) = calls st ++ cs /\
    Forall (fun c => window_of c = w /\ created w = true) cs /\
    (created w = true -> cs <> []).
Proof.
  unfold toggle. destruct (created w) eqn:Ec.
  - destruct (isVisible w (calls st)).
    + exists [Hide w]. split_and!; [done | by repeat constructor | done].
    + destruct (isMinimized w (calls st)).
      * exists [Restore w; Show w; Focus w; Send w (js "focus-input") None].
        cbn. rewrite <- app_assoc. split_and!; [done | by repeat constructor | done].
      * exists [Show w; Focus w; Send w (js "focus-input") None].
        split_and!; [done | by repeat constructor | done].
  - exists []. rewrite app_nil_r. split_and!; [done | constructor | done].
Qed.

(** X23. The shortcut addresses one window: the chat window when the
    last of the [submit-input] and [reset-conversation-context] messages
    so far was a [submit-input], and the input window when it was a reset
    or there was none. Every call it makes is on that window, it makes
    one when the window exists, and none otherwise. *)
Theorem shortcut_addresses_one_window (events : list event) :
  let st := run (mk_main false []) events in
  let w := match last (filter sets_context events) with
           | Some (submit_input _) => chatWindow
           | _ => inputWindow
           end in
  exists cs,
    calls (toggleMainWindow st) = calls st ++ cs /\
    Forall (fun c => window_of c = w) cs /\
    (cs <> [] <-> created w = true).
Proof.
  intros st w.
  assert (hasConversationContext st = bool_decide (w = chatWindow)) as Hc.
  { unfold st, w. clear st w.
    induction events as [|e events IH] using rev_ind; [done |].
    unfold Windows.run. rewrite fold_left_app. cbn [fold_left].
    fold (run (mk_main false []) events). rewrite filter_app.
    destruct e; cbn [Windows.handle].
    - rewrite filter_cons_False, filter_nil, app_nil_r by (by intros ?).
      unfold Windows.toggleMainWindow.
      by destruct (hasConversationContext _) eqn:E; rewrite toggle_context, E.
    - rewrite filter_cons_True, filter_nil, last_snoc by done.
      by rewrite to_chat_context.
    - rewrite filter_cons_False, filter_nil, app_nil_r by (by intros ?).
      by rewrite to_chat_context.
    - rewrite filter_cons_True, filter_nil, last_snoc by done. done. }
  unfold Windows.toggleMainWindow. rewrite Hc.
  assert (forall w0, w = w0 ->
            exists cs,
              calls (toggle created isVisible isMinimized w0 st) = calls st ++ cs /\
              Forall (fun c => window_of c = w) cs /\
              (cs <> [] <-> created w = true)) as Hw.
  { intros w0 <-. destruct (toggle_calls w st) as (cs & Hcs & Hall & Hne).
    exists cs. split_and!; [done | | ].
    - eapply Forall_impl; [done |]. by intros c [? _].
    - split; [| done]. destruct cs as [|c cs]; [done |]. intros _.
      by apply Forall_cons in Hall as [[_ ?] _]. }
  case_bool_decide as Hd; apply Hw; [done |]. by destruct w.
Qed.

End WindowsFacts.

(** ** Instances of the further properties *)

Lemma feed_chunking_witness :
  Stream.feed Json.parse true []
    [Json.jsq "data: {'a':1}"; [LF]; [LF] ++ js "data: 2"]
  = Stream.feed Json.parse true []
      [Json.jsq "data: {'a'"; Json.jsq ":1}" ++ [LF; LF] ++ js "data: 2"].
Proof.
  apply (feed_chunking_irrelevant Json.parse true).
  - reflexivity.
  - apply (bool_decide_eq_false_1 _). vm_compute. reflexivity.
Defined.

Lemma feed_crlf_witness :
  Stream.feed Json.parse true []
    [js "data: 1" ++ [CR]; [LF; CR]; [LF] ++ js "data: 2"]
  = Stream.feed Json.parse true [] [js "data: 1" ++ [LF; LF] ++ js "data: 2"].
Proof.
  apply (feed_crlf_as_lf Json.parse true).
  - apply (bool_decide_eq_false_1 _). vm_compute. reflexivity.
  - reflexivity.
Defined.

Lemma on_end_witness :
  exists rest',
    Stream.on_data Json.parse true (Json.jsq "data: {'a':1}") Stream.separator
    = Some (rest', Stream.on_end Json.parse true (Json.jsq "data: {'a':1}")).
Proof.
  apply (on_end_as_separator Json.parse true).
  - reflexivity.
  - apply (bool_decide_eq_false_1 _). vm_compute. reflexivity.
Defined.

Lemma other_lines_witness :
  Stream.flushEvent Json.parse true
    (js "data: 1" ++ LF :: js "event: message" ++ LF :: js "data: 2")
  = Stream.flushEvent Json.parse true (js "data: 1" ++ LF :: js "data: 2").
Proof.
  apply (other_lines_ignored Json.parse true (js "data: 1") (js "data: 2")
           (js "event: message")).
  - apply (bool_decide_eq_false_1 _). vm_compute. reflexivity.
  - reflexivity.
Defined.

Lemma never_ready_witness :
  let makeApiRequest := fun (w : unit) (path : str) =>
    (w, @Api.rejected str (js "connect ECONNREFUSED 127.0.0.1:5678")) in
  let st := Readiness.mk_state tt Hotkey.initial [] in
  Readiness.trace
    (Readiness.checkConfigLoop makeApiRequest (fun _ => None) (fun _ => false)
       Hotkey.sample_system true true st)
  = concat (replicate 20 [Readiness.Request (js "/config"); Readiness.Sleep 1000]).
Proof.
  intros makeApiRequest st.
  apply (checkConfigLoop_never_ready makeApiRequest (fun _ => None) (fun _ => false)
           Hotkey.sample_system true true st).
  intros w. exists (js "connect ECONNREFUSED 127.0.0.1:5678"). reflexivity.
Defined.

Lemma reclaim_posix_witness :
  exists w',
    PortReaper.reclaim PortReaper.busy_posix_host PortReaper.posix 5678 tt
    = (Returns tt,
       (w', [PortReaper.Exec (PortReaper.lsof_command 5678);
             PortReaper.Exec (PortReaper.kill_command (js "4242"))])).
Proof.
  destruct (reclaim_posix_stops_at_failure PortReaper.busy_posix_host 5678%N tt
              (js "4242" ++ [LF] ++ js "977" ++ [LF]) eq_refl eq_refl)
    as (w' & kills & E & H).
  exists w'. rewrite E.
  destruct H as [(Hall & _) | (k & _ & Hbefore & ->)].
  - destruct (Hall 0) as (pid & out & Hp & Hout); [vm_compute; lia |].
    injection Hp as <-. discriminate Hout.
  - destruct k as [|k]; [reflexivity |].
    destruct (Hbefore 0) as (pid & out & Hp & Hout); [lia |].
    injection Hp as <-. discriminate Hout.
Defined.

Lemma capture_witness :
  let st := Hotkey.registerGlobalShortcut Hotkey.sample_system (js "Ctrl+Alt+Q")
              Hotkey.initial in
  let probes := [HotkeyOps.check (js "Ctrl+C"); HotkeyOps.check (js "Ctrl+Shift+F")] in
  Hotkey.registry
    (HotkeyOps.run Hotkey.sample_system st (HotkeyOps.suspend :: probes)) = ∅ /\
  Hotkey.registry
    (HotkeyOps.run Hotkey.sample_system st
       (HotkeyOps.suspend :: probes ++ [HotkeyOps.resume]))
  = Hotkey.registry st /\
  Hotkey.currentGlobalShortcut
    (HotkeyOps.run Hotkey.sample_system st
       (HotkeyOps.suspend :: probes ++ [HotkeyOps.resume]))
  = Hotkey.currentGlobalShortcut st.
Proof.
  intros st probes.
  apply (capture_suspends_and_restores Hotkey.sample_system
           [js "Ctrl+C"; js "Ctrl+Shift+F"] st); reflexivity.
Defined.

Lemma stream_witness :
  ChatView.messages
    (ChatView.run_stream
       [Some (ChatView.sample_event "content"); None;
        Some (ChatView.sample_event "finish")]
       (ChatView.onNewMessage (js "hi") ChatView.initial))
  = [ChatView.mk_message ChatView.user (js "hi") [] None;
     fold_left ChatView.apply_event
       [ChatView.sample_event "content"; ChatView.sample_event "finish"]
       (ChatView.mk_message ChatView.assistant [] [] (Some []))].
Proof.
  apply (stream_builds_one_assistant_message (js "hi")
           (ChatView.sample_event "content")
           [None; Some (ChatView.sample_event "finish")] ChatView.initial).
  reflexivity.
Defined.

Lemma text_chunks_witness :
  ChatView.apply_event
    (ChatView.apply_event (ChatView.sample_text_message "a")
       (ChatView.sample_event "thinking"))
    (ChatView.sample_event "thinking")
  = ChatView.apply_event (ChatView.sample_text_message "a")
      (ChatView.mk_data (js "thinking") (Some (js "xx")) None None [] None None).
Proof.
  apply (text_chunks_compose "thinking" (ChatView.sample_text_message "a")
           (ChatView.sample_event "thinking") (ChatView.sample_event "thinking")
           (ChatView.mk_data (js "thinking") (Some (js "xx")) None None [] None None)
           (js "x") (js "x")).
  - right. reflexivity.
  - reflexivity.
  - reflexivity.
  - reflexivity.
  - reflexivity.
  - reflexivity.
  - reflexivity.
Defined.

Lemma submitInput_witness :
  exists before after k,
    [ChatView.change (js "hello"); ChatView.submit;
     ChatView.bot_stream None;
     ChatView.check_answered 0 ChatView.configured]
    = before ++ ChatView.submit :: after /\
    ChatView.isResponding
      (ChatView.shown (ChatView.session_run ChatView.mounted before)) = false /\
    ChatView.input
      (ChatView.shown (ChatView.session_run ChatView.mounted before)) = js "hello" /\
    truthy (trim (js "hello")) = true /\
    ChatView.check_answered k ChatView.configured ∈ after.
Proof.
  apply (submitInput_after_idle_submit
           [ChatView.change (js "hello"); ChatView.submit;
            ChatView.bot_stream None;
            ChatView.check_answered 0 ChatView.configured]).
  vm_compute. right. left.
Defined.

Lemma tool_events_witness :
  exists l,
    ChatView.blocks
      (fold_left ChatView.apply_event
         (ChatView.mk_data (js "tool_call_chunk") None (Some (js "search"))
            (Some (js "{q")) [] None None
          :: [ChatView.sample_chunk ":1}"]
          ++ [ChatView.mk_data (js "tool_call") None None None (js "{q:1}")
                (Some (js "search")) None;
              ChatView.mk_data (js "tool_result") None None None []
                (Some (js "search")) (Some (js "3 hits"))])
         (ChatView.sample_text_message "a"))
    = ChatView.blocks (ChatView.sample_text_message "a")
      ++ [ChatView.tool_execution
            (ChatView.mk_tool (Some (js "search")) (js "{q:1}")
               (Some (js "3 hits")) ChatView.success l)].
Proof.
  apply (tool_events_make_one_block (ChatView.sample_text_message "a")
           (js "search")).
  - intros t H. discriminate H.
  - reflexivity.
  - reflexivity.
  - reflexivity.
  - constructor; [| constructor]. split; [reflexivity | left; reflexivity].
  - reflexivity.
  - reflexivity.
  - reflexivity.
Defined.

Lemma forced_kill_witness :
  let st := Cleanup.mk_main tt (Some (Some 4242%N)) [] in
  Cleanup.trace
    (snd (Cleanup.killPythonProcess Cleanup.win32 Cleanup.stubborn_host
            Cleanup.gone_host st))
  = [Cleanup.ExecSync (Cleanup.graceful_command 4242) 2000;
     Cleanup.ExecSync (Cleanup.forced_command 4242) 5000].
Proof.
  intros st.
  apply (forced_kill_after_failed_attempt Cleanup.win32 Cleanup.stubborn_host
           Cleanup.gone_host st 4242%N).
  reflexivity.
Defined.
